(** * Playback cursor and loop-range engine: a shallow embedding

    The development follows the TypeScript sources of the score page:

    - [MaestroCursor] (components/MaestroCursor.tsx): the per-beat
      interpolating cursor, with its two walk modes and the pause clamp;
    - [TimelineExpander] (components/CustomLoopOverlay.tsx and the click-seek
      handler of the page): nearest-occurrence resolution of a structural bar;
    - [LoopOverlay] (components/CustomLoopOverlay.tsx): the loop-tail policy;
    - [BeatLoopOverlay] (components/BeatCustomLoopOverlay.tsx): the
      press-move-release gesture and its two commit paths;
    - [Page] (the labs page): the position-change handler with the loop
      boundary enforcer, the jump detection and the beat entry guard.

    Conventions.  Ticks are integers ([Z]).  Pixel coordinates, the progress
    ratio and the clock are JavaScript numbers, modelled as exact rationals
    ([Q]); equalities between computed coordinates are stated with [==].
    A JavaScript value that may be [null] or [undefined] is an [option];
    [a ?? b] is [default b a].  Objects mutated in place become records that
    are threaded through the functions. *)

From Stdlib Require Import ZArith QArith Qabs Qminmax Qround Lia Lqa.
From stdpp Require Import base option list gmap.

(** ** JavaScript number helpers over [Q] *)

Definition Qltb (a b : Q) : bool :=
  match (a ?= b)%Q with Lt => true | _ => false end.

Definition Qleb (a b : Q) : bool := Qle_bool a b.

(** [Math.max(0, Math.min(1, p))] *)
Definition clamp01 (p : Q) : Q := Qmax 0 (Qmin 1 p).

(** ** The score objects the engine reads *)

(** [visualBounds] of a beat, a bar or a master bar. *)
Record VisualBounds : Type := mkVisualBounds {
  vb_x : Q;
  vb_y : Q;
  vb_w : Q;
  vb_h : Q }.

(** [beat.voice.bar.masterBar]: the structural bar.  [mb_calculateDuration]
    is [None] when the object has no such method. *)
Record MasterBar : Type := mkMasterBar {
  mb_index : option Z;
  mb_start : option Z;
  mb_calculateDuration : option Z;
  mb_duration : option Z }.

(** A beat object.  [bar_index] is [beat.voice?.bar?.index] and [masterBar]
    is [beat.voice?.bar?.masterBar]. *)
#[warnings="-register-all"]
Inductive Beat : Type := mkBeat {
  absolutePlaybackStart : option Z;
  playbackStart : option Z;
  playbackDuration : option Z;
  duration : option Z;
  bar_index : option Z;
  masterBar : option MasterBar;
  nextBeat : option Beat }.

(** [beat?.voice?.bar?.masterBar?.index] *)
Definition masterBarIndex (b : Beat) : option Z := masterBar b ≫= mb_index.

(** [beat?.voice?.bar?.index ?? beat?.voice?.bar?.masterBar?.index] *)
Definition barIdxOf (b : Beat) : option Z :=
  match bar_index b with
  | Some i => Some i
  | None => masterBarIndex b
  end.

(** [b.playbackDuration ?? b.duration ?? 0] *)
Definition durOf (b : Beat) : Z :=
  default (default 0%Z (duration b)) (playbackDuration b).

(** What [boundsLookup.findBeat] returns for a beat. *)
Record BeatBounds : Type := mkBeatBounds {
  visualBounds : option VisualBounds;
  onNotesX : option Q }.

(** [typeof bb.onNotesX === 'number' ? bb.onNotesX : vb.x + vb.w / 2] *)
Definition anchorX (bb : BeatBounds) (vb : VisualBounds) : Q :=
  match onNotesX bb with
  | Some nx => nx
  | None => (vb_x vb + vb_w vb / 2)%Q
  end.

(** The part of the renderer and player the cursor consults.  A missing
    [api], [renderer], [boundsLookup] or method shows as a lookup that
    answers [None]; [findMasterBar] answers the [visualBounds] of the master
    bar bounds, [clock] is [performance.now()]. *)
Record CursorApi : Type := mkCursorApi {
  findBeat : Beat -> option BeatBounds;
  findMasterBar : option MasterBar -> option VisualBounds;
  isPlaying : option bool;
  clock : Q }.

(** ** MaestroCursor *)

Module MaestroCursor.

Local Open Scope Q_scope.

Definition cursorWidth : Q := 14.
Definition topOverhang : Q := 26.
Definition bottomOverhang : Q := 12.
Definition bottomPointBaseShift : Q := 2.

(** The cursor's DOM element: the style properties the class writes, the
    SVG it renders (total height, beat height) and the debug label (x,
    progress).  [transform = None] is the initial off-screen translation. *)
Record Element : Type := mkElement {
  visible : bool;
  opacity : Z;
  transitionNone : bool;
  transform : option (Q * Q);
  height : option Q;
  svg : option (Q * Q);
  debugLabel : option (Q * Q) }.

Record Cursor : Type := mkCursor {
  element : Element;
  currentBeat : option Beat;
  currentNoteX : Q;
  currentY : Q;
  currentHeight : Q;
  currentVbW : Q;
  nextBeatCenterX : option Q;
  beatStart : Z;
  beatDuration : Z;
  beatStartToUse : Z;
  svgRendered : bool;
  lastSvgHeight : Q;
  lastFinalX : Q;
  lastFinalY : Q;
  hasInitialPosition : bool;
  lastLogBeat : Z;
  lastDebugUpdate : Q }.

(** The constructor's state. *)
Definition create : Cursor :=
  {| element := {| visible := false; opacity := 0%Z; transitionNone := false;
                   transform := None; height := None; svg := None;
                   debugLabel := None |};
     currentBeat := None; currentNoteX := 0; currentY := 0;
     currentHeight := 0; currentVbW := 0; nextBeatCenterX := None;
     beatStart := 0%Z; beatDuration := 0%Z; beatStartToUse := 0%Z;
     svgRendered := false; lastSvgHeight := 0;
     lastFinalX := -1; lastFinalY := -1; hasInitialPosition := false;
     lastLogBeat := (-1)%Z; lastDebugUpdate := 0 |}.

(** *** Field assignments *)

Definition with_element (e : Element) (c : Cursor) : Cursor :=
  mkCursor e (currentBeat c) (currentNoteX c) (currentY c) (currentHeight c)
    (currentVbW c) (nextBeatCenterX c) (beatStart c) (beatDuration c)
    (beatStartToUse c) (svgRendered c) (lastSvgHeight c) (lastFinalX c)
    (lastFinalY c) (hasInitialPosition c) (lastLogBeat c) (lastDebugUpdate c).

(** [currentBeat], [beatStart], [beatDuration] and [beatStartToUse], as
    assigned at the top of [setBeat]. *)
Definition with_beat (b : Beat) (c : Cursor) : Cursor :=
  let start := default (default 0%Z (playbackStart b)) (absolutePlaybackStart b) in
  mkCursor (element c) (Some b) (currentNoteX c) (currentY c) (currentHeight c)
    (currentVbW c) (nextBeatCenterX c) start (durOf b)
    start (svgRendered c) (lastSvgHeight c) (lastFinalX c)
    (lastFinalY c) (hasInitialPosition c) (lastLogBeat c) (lastDebugUpdate c).

Definition with_geometry (noteX y hgt wdt : Q) (c : Cursor) : Cursor :=
  mkCursor (element c) (currentBeat c) noteX y hgt
    wdt (nextBeatCenterX c) (beatStart c) (beatDuration c)
    (beatStartToUse c) (svgRendered c) (lastSvgHeight c) (lastFinalX c)
    (lastFinalY c) (hasInitialPosition c) (lastLogBeat c) (lastDebugUpdate c).

Definition with_nextBeatCenterX (nx : option Q) (c : Cursor) : Cursor :=
  mkCursor (element c) (currentBeat c) (currentNoteX c) (currentY c) (currentHeight c)
    (currentVbW c) nx (beatStart c) (beatDuration c)
    (beatStartToUse c) (svgRendered c) (lastSvgHeight c) (lastFinalX c)
    (lastFinalY c) (hasInitialPosition c) (lastLogBeat c) (lastDebugUpdate c).

Definition with_beatStartToUse (t : Z) (c : Cursor) : Cursor :=
  mkCursor (element c) (currentBeat c) (currentNoteX c) (currentY c) (currentHeight c)
    (currentVbW c) (nextBeatCenterX c) (beatStart c) (beatDuration c)
    t (svgRendered c) (lastSvgHeight c) (lastFinalX c)
    (lastFinalY c) (hasInitialPosition c) (lastLogBeat c) (lastDebugUpdate c).

Definition with_svg (hgt : Q) (c : Cursor) : Cursor :=
  mkCursor (element c) (currentBeat c) (currentNoteX c) (currentY c) (currentHeight c)
    (currentVbW c) (nextBeatCenterX c) (beatStart c) (beatDuration c)
    (beatStartToUse c) true hgt (lastFinalX c)
    (lastFinalY c) (hasInitialPosition c) (lastLogBeat c) (lastDebugUpdate c).

Definition with_lastFinal (fx fy : Q) (c : Cursor) : Cursor :=
  mkCursor (element c) (currentBeat c) (currentNoteX c) (currentY c) (currentHeight c)
    (currentVbW c) (nextBeatCenterX c) (beatStart c) (beatDuration c)
    (beatStartToUse c) (svgRendered c) (lastSvgHeight c) fx
    fy (hasInitialPosition c) (lastLogBeat c) (lastDebugUpdate c).

Definition with_hasInitialPosition (b : bool) (c : Cursor) : Cursor :=
  mkCursor (element c) (currentBeat c) (currentNoteX c) (currentY c) (currentHeight c)
    (currentVbW c) (nextBeatCenterX c) (beatStart c) (beatDuration c)
    (beatStartToUse c) (svgRendered c) (lastSvgHeight c) (lastFinalX c)
    (lastFinalY c) b (lastLogBeat c) (lastDebugUpdate c).

Definition with_lastLogBeat (t : Z) (c : Cursor) : Cursor :=
  mkCursor (element c) (currentBeat c) (currentNoteX c) (currentY c) (currentHeight c)
    (currentVbW c) (nextBeatCenterX c) (beatStart c) (beatDuration c)
    (beatStartToUse c) (svgRendered c) (lastSvgHeight c) (lastFinalX c)
    (lastFinalY c) (hasInitialPosition c) t (lastDebugUpdate c).

Definition with_lastDebugUpdate (t : Q) (c : Cursor) : Cursor :=
  mkCursor (element c) (currentBeat c) (currentNoteX c) (currentY c) (currentHeight c)
    (currentVbW c) (nextBeatCenterX c) (beatStart c) (beatDuration c)
    (beatStartToUse c) (svgRendered c) (lastSvgHeight c) (lastFinalX c)
    (lastFinalY c) (hasInitialPosition c) (lastLogBeat c) t.

(** *** Helpers *)

Definition show (c : Cursor) : Cursor :=
  let e := element c in
  with_element (mkElement true 1%Z (transitionNone e) (transform e) (height e)
                  (svg e) (debugLabel e)) c.

Definition hide (c : Cursor) : Cursor :=
  let e := element c in
  with_element (mkElement false 0%Z (transitionNone e) (transform e) (height e)
                  (svg e) (debugLabel e)) c.

(** Assigning [innerHTML] replaces every child of the element, the debug
    label included. *)
Definition renderSVG (totalHeight beatHeight : Q) (c : Cursor) : Cursor :=
  let e := element c in
  with_element (mkElement (visible e) (opacity e) (transitionNone e) (transform e)
                  (height e) (Some (totalHeight, beatHeight)) None) c.

Definition updateDebugLabel (x progress : Q) (c : Cursor) : Cursor :=
  let e := element c in
  with_element (mkElement (visible e) (opacity e) (transitionNone e) (transform e)
                  (height e) (svg e) (Some (x, progress))) c.

(** The sub-pixel filter of [applyTransform]. *)
Definition suppressed (x y : Q) (c : Cursor) : bool :=
  Qltb (Qabs (x - lastFinalX c)) 0.5 && Qltb (Qabs (y - lastFinalY c)) 0.5.

Definition applyTransform (x y hgt : Q) (snap : bool) (c : Cursor) : Cursor :=
  if suppressed x y c then c
  else
    let c := with_lastFinal x y c in
    let e := element c in
    let c := with_element
               (mkElement (visible e) (opacity e)
                  (if snap then true else transitionNone e)
                  (Some (x, y)) (Some hgt) (svg e) (debugLabel e)) c in
    if negb (svgRendered c) || Qltb 5 (Qabs (hgt - lastSvgHeight c))
    then with_svg hgt (renderSVG hgt (currentHeight c) c)
    else c.

(** The same-row, same-bar test that decides whether the anchor of a next
    beat may be frozen as the walk target of beat [cur]. *)
Definition nextAnchor (api : CursorApi) (curY : Q) (cur next : Beat) : option Q :=
  match findBeat api next with
  | Some nb =>
      match visualBounds nb with
      | Some nvb =>
          let nx := anchorX nb nvb in
          let sameRow := Qltb (Qabs (vb_y nvb - curY)) 5 in
          if sameRow && bool_decide (barIdxOf cur = barIdxOf next)
          then Some nx else None
      | None => None
      end
  | None => None
  end.

(** *** Public API *)

Definition setBeat (api : CursorApi) (beat : option Beat) (c : Cursor) : Cursor :=
  match beat with
  | None => hide c
  | Some b =>
      let c := with_beat b c in
      match findBeat api b with
      | Some bb =>
          match visualBounds bb with
          | Some vb =>
              let c := with_geometry (anchorX bb vb) (vb_y vb) (vb_h vb) (vb_w vb) c in
              let c := with_nextBeatCenterX None c in
              let c :=
                match nextBeat b with
                | Some structuralNext =>
                    match nextAnchor api (currentY c) b structuralNext with
                    | Some nx => with_nextBeatCenterX (Some nx) c
                    | None => c
                    end
                | None => c
                end in
              let finalX := currentNoteX c - cursorWidth / 2 in
              let totalH := vb_h vb + topOverhang + bottomOverhang + bottomPointBaseShift in
              let finalY := vb_y vb - topOverhang in
              let c := applyTransform finalX finalY totalH (negb (hasInitialPosition c)) c in
              let c := with_hasInitialPosition true c in
              show c
          | None => hide c
          end
      | None => hide c
      end
  end.

Definition requestSnap (c : Cursor) : Cursor :=
  let c := with_nextBeatCenterX None c in
  let c := with_beatStartToUse (beatStart c) c in
  with_lastFinal (-1) (-1) c.

(** The locals of [setTick], as functions of the cursor after the fill. *)

Definition progressOf (tick : Z) (c : Cursor) : Q :=
  if (0 <? beatDuration c)%Z
  then clamp01 (inject_Z (tick - beatStartToUse c) / inject_Z (beatDuration c))
  else 0.

(** The test guarding both the MODE A walk and the overshoot guard. *)
Definition inModeA (c : Cursor) : bool :=
  match nextBeatCenterX c with
  | Some nx => Qltb (currentNoteX c) nx
  | None => false
  end.

(** MODE B: the distance to the right edge of the master bar, or the beat's
    own width when the master bar has no bounds (the safety fallback). *)
Definition barlineWalk (api : CursorApi) (c : Cursor) : Q :=
  match findMasterBar api (currentBeat c ≫= masterBar) with
  | Some vb => (vb_x vb + vb_w vb) - currentNoteX c
  | None => currentVbW c
  end.

Definition walkDistance (api : CursorApi) (c : Cursor) : Q :=
  match nextBeatCenterX c with
  | Some nx =>
      if Qltb (currentNoteX c) nx then nx - currentNoteX c
      else barlineWalk api c
  | None => barlineWalk api c
  end.

(** [interpolatedX] after the overshoot guard, before the pause clamp. *)
Definition walkX (api : CursorApi) (tick : Z) (c : Cursor) : Q :=
  let x := currentNoteX c + walkDistance api c * progressOf tick c in
  match nextBeatCenterX c with
  | Some nx => if Qltb (currentNoteX c) nx then Qmin x nx else x
  | None => x
  end.

(** [interpolatedX] after the pause clamp: the cursor centre of this frame. *)
Definition interpolatedX (api : CursorApi) (tick : Z) (c : Cursor) : Q :=
  if negb (default false (isPlaying api)) && Qleb 0.999 (progressOf tick c)
  then currentNoteX c
  else walkX api tick c.

(** The fill of [nextBeatCenterX]: only when it is still [null]. *)
Definition fillNext (api : CursorApi) (next : option Beat) (c : Cursor) : Cursor :=
  match next, nextBeatCenterX c, currentBeat c with
  | Some nb, None, Some cur =>
      match nextAnchor api (currentY c) cur nb with
      | Some nx => with_nextBeatCenterX (Some nx) c
      | None => c
      end
  | _, _, _ => c
  end.

(** The cursor as frozen for this frame: the beat start to use, then the
    fill. *)
Definition frozen (api : CursorApi) (next : option Beat)
    (overrideBeatStart : option Z) (c : Cursor) : Cursor :=
  fillNext api next (with_beatStartToUse (default (beatStart c) overrideBeatStart) c).

(** The end of [setTick]: the log, once per expanded beat pass, and the
    debug label, at most every 100 ms. *)
Definition diagnostics (api : CursorApi) (finalX progress : Q) (c : Cursor) : Cursor :=
  let c := if bool_decide (beatStartToUse c = lastLogBeat c) then c
           else with_lastLogBeat (beatStartToUse c) c in
  if Qltb 100 (clock api - lastDebugUpdate c)
  then updateDebugLabel finalX progress (with_lastDebugUpdate (clock api) c)
  else c.

Definition setTick (api : CursorApi) (tick : Z) (next : option Beat)
    (overrideBeatStart : option Z) (c : Cursor) : Cursor :=
  match currentBeat c with
  | None => c
  | Some _ =>
      if (beatDuration c <=? 0)%Z then c
      else
        let c := frozen api next overrideBeatStart c in
        let progress := progressOf tick c in
        let finalX := interpolatedX api tick c - cursorWidth / 2 in
        let totalH := currentHeight c + topOverhang + bottomOverhang
                      + bottomPointBaseShift in
        let finalY := currentY c - topOverhang in
        diagnostics api finalX progress (applyTransform finalX finalY totalH false c)
  end.

(** One [setTick] call, and a run of such calls with no [setBeat] or
    [requestSnap] in between. *)
Record TickCall : Type := mkTickCall {
  call_api : CursorApi;
  call_tick : Z;
  call_next : option Beat;
  call_overrideBeatStart : option Z }.

Definition setTickCall (c : Cursor) (k : TickCall) : Cursor :=
  setTick (call_api k) (call_tick k) (call_next k) (call_overrideBeatStart k) c.

Definition setTicks (calls : list TickCall) (c : Cursor) : Cursor :=
  fold_left setTickCall calls c.

(** The fields no [setTick] writes: the beat, its timing and geometry, and
    the visibility of the element. *)
Definition sameBeatState (c c' : Cursor) : Prop :=
  (currentBeat c' = currentBeat c /\ beatStart c' = beatStart c
   /\ beatDuration c' = beatDuration c)
  /\ (currentNoteX c' = currentNoteX c /\ currentY c' = currentY c
      /\ currentHeight c' = currentHeight c /\ currentVbW c' = currentVbW c)
  /\ (visible (element c') = visible (element c)
      /\ opacity (element c') = opacity (element c)
      /\ hasInitialPosition c' = hasInitialPosition c).

End MaestroCursor.

(** ** The tick cache *)

(** An entry of [tickCache.masterBars]: one pass of a structural bar in the
    unrolled timeline. *)
Record MasterBarTickLookup : Type := mkMasterBarTickLookup {
  mbt_masterBar : option MasterBar;
  mbt_start : Z }.

(** [mb.masterBar?.index] *)
Definition mbt_index (mb : MasterBarTickLookup) : option Z :=
  mbt_masterBar mb ≫= mb_index.

(** [mb.masterBar?.calculateDuration?.() ?? 0] *)
Definition mbt_dur (mb : MasterBarTickLookup) : Z :=
  default 0%Z (mbt_masterBar mb ≫= mb_calculateDuration).

(** [tc_findBeat t] is [tickCache.findBeat(trackIndices, t)?.beat] for the
    tracks of the score; [tc_getBeatStart] is [None] when the cache has no
    such method. *)
Record TickCache : Type := mkTickCache {
  tc_findBeat : Z -> option Beat;
  tc_masterBars : option (list MasterBarTickLookup);
  tc_getBeatStart : option (Beat -> Z) }.

(** [Array.prototype.reduce] without an initial value, on a non-empty array
    ([None] on the empty one, where JavaScript throws). *)
Definition reduce {A : Type} (f : A -> A -> A) (l : list A) : option A :=
  match l with
  | [] => None
  | a :: rest => Some (fold_left f rest a)
  end.

(** ** TimelineExpander *)

Module TimelineExpander.

Local Open Scope Z_scope.

(** [tickCache?.masterBars?.filter(mb => mb.masterBar?.index === visualBarIndex) ?? []] *)
Definition instancesOf (tickCache : option TickCache) (visualBarIndex : Z)
    : list MasterBarTickLookup :=
  match tickCache ≫= tc_masterBars with
  | Some mbs => filter (λ mb, mbt_index mb = Some visualBarIndex) mbs
  | None => []
  end.

(** The reducer of [resolveExpandedBarStart]. *)
Definition closer (refTick : Z) (prev curr : MasterBarTickLookup)
    : MasterBarTickLookup :=
  if Z.abs (mbt_start curr - refTick) <? Z.abs (mbt_start prev - refTick)
  then curr else prev.

Definition resolveExpandedBarStart (tickCache : option TickCache)
    (visualBarIndex refTick : Z) : option Z :=
  match instancesOf tickCache visualBarIndex with
  | [] => None
  | instances => mbt_start <$> reduce (closer refTick) instances
  end.

(** The reducer of the page's click-to-seek, over candidate ticks. *)
Definition closerTick (currentTick prev curr : Z) : Z :=
  if Z.abs (curr - currentTick) <? Z.abs (prev - currentTick) then curr else prev.

(** The target tick of the repeat-aware seek in [handleClick]: [None] where
    the handler returns without seeking. *)
Definition seekTarget (tickCache : option TickCache) (beat : Beat)
    (currentTick : Z) : option Z :=
  match tickCache ≫= tc_masterBars with
  | None => None
  | Some mbs =>
      match masterBarIndex beat with
      | None => None
      | Some visualBarIndex =>
          let offsetInBar := default 0 (playbackStart beat) in
          let instances := filter (λ mb, mbt_index mb = Some visualBarIndex) mbs in
          reduce (closerTick currentTick) ((λ mb, mbt_start mb + offsetInBar) <$> instances)
      end
  end.

End TimelineExpander.

(** ** The player's transport *)

(** [api.playbackRange]: the property may be absent, [null] or a range with
    an exclusive end. *)
Inductive PlaybackRange : Type :=
  | RangeUndefined
  | RangeNull
  | Range (startTick endTick : Z).

(** The player fields the overlays and the page write. *)
Record Transport : Type := mkTransport {
  tickPosition : option Z;
  playbackRange : PlaybackRange;
  isLooping : bool }.

Definition set_tickPosition (t : Z) (tr : Transport) : Transport :=
  mkTransport (Some t) (playbackRange tr) (isLooping tr).

Definition set_playbackRange (r : PlaybackRange) (tr : Transport) : Transport :=
  mkTransport (tickPosition tr) r (isLooping tr).

Definition set_isLooping (b : bool) (tr : Transport) : Transport :=
  mkTransport (tickPosition tr) (playbackRange tr) b.

(** ** Bounded tick scans *)

(** [for (t = from; t >= lo; t -= step) if (stop t) break]: the tick where
    the loop breaks, and the ticks it probed.  [fuel] bounds the number of
    iterations; [scanFuel] is always enough. *)
Fixpoint scanDown (stop : Z -> bool) (step lo : Z) (fuel : nat) (t : Z)
    : option Z * list Z :=
  match fuel with
  | O => (None, [])
  | S n =>
      if (t <? lo)%Z then (None, [])
      else if stop t then (Some t, [t])
      else let r := scanDown stop step lo n (t - step)%Z in (r.1, t :: r.2)
  end.

(** [for (t = from; t <= hi; t++) if (stop t) break] *)
Fixpoint scanUp (stop : Z -> bool) (hi : Z) (fuel : nat) (t : Z)
    : option Z * list Z :=
  match fuel with
  | O => (None, [])
  | S n =>
      if (hi <? t)%Z then (None, [])
      else if stop t then (Some t, [t])
      else let r := scanUp stop hi n (t + 1)%Z in (r.1, t :: r.2)
  end.

(** Iterations of a loop over the ticks between [lo] and [hi]. *)
Definition scanFuel (lo hi : Z) : nat := Z.to_nat (hi - lo + 1).

(** The structural beat identity of the overlays:
    [a?.absolutePlaybackStart === b?.absolutePlaybackStart &&
     a?.voice?.bar?.masterBar?.index === b?.voice?.bar?.masterBar?.index] *)
Definition sameStructuralBeat (a b : Beat) : bool :=
  bool_decide (absolutePlaybackStart a = absolutePlaybackStart b)
  && bool_decide (masterBarIndex a = masterBarIndex b).

(** ** CustomLoopOverlay: the loop tail *)

Module LoopOverlay.

Local Open Scope Z_scope.

(** The ticks of a [LoopSelection]. *)
Record LoopSelection : Type := mkLoopSelection {
  sel_startTick : Z;
  sel_endTick : Z }.

(** The scan for the last real beat of the selection, in steps of ten. *)
Definition lastBeatResult (tc : TickCache) (sel : LoopSelection) : option Beat :=
  (scanDown (λ t, bool_decide (is_Some (tc_findBeat tc t))) 10 (sel_startTick sel)
     (scanFuel (sel_startTick sel) (sel_endTick sel - 1))
     (sel_endTick sel - 1)).1 ≫= tc_findBeat tc.

(** The start of the last beat, by the backward scan from [endTick - 2]. *)
Definition expandedBeatStart (tc : TickCache) (sel : LoopSelection) (curBeat : Beat) : Z :=
  match (scanDown
           (λ t, match tc_findBeat tc t with
                 | Some b => negb (sameStructuralBeat b curBeat)
                 | None => true
                 end)
           1 (sel_startTick sel)
           (scanFuel (sel_startTick sel) (sel_endTick sel - 2))
           (sel_endTick sel - 2)).1 with
  | Some t => t + 1
  | None => sel_endTick sel - 1
  end.

(** [loopEnd] of [applyLoopSelection]: the real exclusive end of the loop. *)
Definition loopEnd (tickCache : option TickCache) (sel : LoopSelection) : Z :=
  match tickCache with
  | Some tc =>
      match lastBeatResult tc sel with
      | Some curBeat => expandedBeatStart tc sel curBeat + durOf curBeat
      | None => sel_endTick sel
      end
  | None => sel_endTick sel
  end.

Definition applyLoopSelection (tickCache : option TickCache) (loopEnabled : bool)
    (sel : LoopSelection) (tr : Transport) : Transport :=
  let tr :=
    match playbackRange tr with
    | RangeUndefined => tr
    | _ => set_playbackRange (Range (sel_startTick sel) (loopEnd tickCache sel + 1)) tr
    end in
  set_isLooping loopEnabled (set_tickPosition (sel_startTick sel) tr).

End LoopOverlay.

(** ** BeatCustomLoopOverlay: the gesture and its commits *)

Module BeatLoopOverlay.

Local Open Scope Z_scope.

(** A mouse event together with what [resolveBeatWithX] answers for it. *)
Record MouseEvent : Type := mkMouseEvent {
  clientX : Q;
  clientY : Q;
  resolved : option Beat }.

(** The two commit paths, as their log lines and [onLoopChange] calls tell
    them apart. *)
Inductive Commit : Type :=
  | BarSnap (startTick endTick barIdx : Z)
  | BeatLevel (startTick endTick : Z).

(** The refs of the component, the transport it writes and the commits it
    has made (latest first). *)
Record Overlay : Type := mkOverlay {
  loopRef : bool;
  isDragging : bool;
  startBeat : option Beat;
  endBeat : option Beat;
  downXRef : Q;
  downYRef : Q;
  downTickRef : option Z;
  beatCrossedRef : bool;
  transport : Transport;
  commits : list Commit }.

Definition tickOf (tickCache : option TickCache) (beat : Beat) : Z :=
  match tickCache ≫= tc_getBeatStart with
  | Some getBeatStart => getBeatStart beat
  | None => default 0 (absolutePlaybackStart beat)
  end.

Definition loHi (tickCache : option TickCache) (a b : Beat) : Beat * Beat :=
  if tickOf tickCache a <=? tickOf tickCache b then (a, b) else (b, a).

(** The first entry of [masterBars] with a positive duration that owns the
    tick. *)
Definition owningEntry (tick : Z) (mbs : list MasterBarTickLookup) : option (Z * Z) :=
  (λ mb, (mbt_start mb, mbt_start mb + mbt_dur mb)) <$>
  List.find (λ mb, (0 <? mbt_dur mb) && (mbt_start mb <=? tick)
                   && (tick <? mbt_start mb + mbt_dur mb)) mbs.

(** The structural fallback: the beat's own master bar. *)
Definition structuralRange (beat : option Beat) : option (Z * Z) :=
  match beat ≫= masterBar with
  | Some mb =>
      let start := default 0 (mb_start mb) in
      let dur := match mb_calculateDuration mb with
                 | Some d => d
                 | None => default 1920 (mb_duration mb)
                 end in
      if 0 <? dur then Some (start, start + dur) else None
  | None => None
  end.

Definition getExpandedBarRange (tickCache : option TickCache) (tick : Z)
    (beat : option Beat) : option (Z * Z) :=
  match owningEntry tick (default [] (tickCache ≫= tc_masterBars)) with
  | Some r => Some r
  | None => structuralRange beat
  end.

(** [commitBarSnap]: [None] where the source returns [false]. *)
Definition commitBarSnap (tickCache : option TickCache) (beat : Beat)
    (o : Overlay) : option Overlay :=
  match getExpandedBarRange tickCache (tickOf tickCache beat) (Some beat), barIdxOf beat with
  | Some (startTick, endTick), Some barIdx =>
      Some (mkOverlay (loopRef o) (isDragging o) (startBeat o) (endBeat o)
              (downXRef o) (downYRef o) (downTickRef o) (beatCrossedRef o)
              (set_isLooping true
                 (set_playbackRange (Range startTick endTick) (transport o)))
              (BarSnap startTick endTick barIdx :: commits o))
  | _, _ => None
  end.

Definition onDown (tickCache : option TickCache) (e : MouseEvent) (o : Overlay) : Overlay :=
  if negb (loopRef o) then o
  else
    match resolved e with
    | None => o
    | Some beat =>
        mkOverlay (loopRef o) true (Some beat) (Some beat)
          (clientX e) (clientY e) (Some (tickOf tickCache beat)) false
          (transport o) (commits o)
    end.

Definition onMove (tickCache : option TickCache) (e : MouseEvent) (o : Overlay) : Overlay :=
  if negb (isDragging o) || negb (bool_decide (is_Some (startBeat o))) then o
  else
    match resolved e with
    | None => o
    | Some beat =>
        let curTick := tickOf tickCache beat in
        let crossed :=
          match downTickRef o with
          | Some downTick =>
              if bool_decide (curTick = downTick) then beatCrossedRef o else true
          | None => beatCrossedRef o
          end in
        mkOverlay (loopRef o) (isDragging o) (startBeat o) (Some beat)
          (downXRef o) (downYRef o) (downTickRef o) crossed
          (transport o) (commits o)
    end.

(** The beat-level commit at the end of [onUp]. *)
Definition commitBeatLevel (tickCache : option TickCache) (sb : Beat)
    (eb : option Beat) (o : Overlay) : Overlay :=
  let '(lo, hi) := loHi tickCache sb (default sb eb) in
  let startTick := tickOf tickCache lo in
  let endTick := tickOf tickCache hi + durOf hi in
  mkOverlay (loopRef o) (isDragging o) (startBeat o) (endBeat o)
    (downXRef o) (downYRef o) (downTickRef o) (beatCrossedRef o)
    (set_isLooping true (set_playbackRange (Range startTick endTick) (transport o)))
    (BeatLevel startTick endTick :: commits o).

Definition onUp (tickCache : option TickCache) (e : MouseEvent) (o : Overlay) : Overlay :=
  if negb (isDragging o) then o
  else
    let o := mkOverlay (loopRef o) false (startBeat o) (endBeat o)
               (downXRef o) (downYRef o) (downTickRef o) (beatCrossedRef o)
               (transport o) (commits o) in
    match startBeat o with
    | None => o
    | Some sb =>
        let snapped := if beatCrossedRef o then None else commitBarSnap tickCache sb o in
        match snapped with
        | Some o' => o'
        | None => commitBeatLevel tickCache sb (endBeat o) o
        end
    end.

(** The gesture cancellation of [handleRenderFinished]. *)
Definition handleRenderFinished (o : Overlay) : Overlay :=
  mkOverlay (loopRef o) false None None
    (downXRef o) (downYRef o) (downTickRef o) false
    (transport o) (commits o).

(** A move event that resolves a beat whose tick is not the tick resolved
    at press. *)
Definition resolvedOtherTick (tickCache : option TickCache) (downTick : Z)
    (e : MouseEvent) : Prop :=
  exists beat, resolved e = Some beat /\ tickOf tickCache beat <> downTick.

(** The release committed a bar-snap on top of the earlier commits. *)
Definition committedBar (before after : Overlay) : Prop :=
  exists startTick endTick barIdx,
    commits after = BarSnap startTick endTick barIdx :: commits before.

(** A press, the moves that follow it, and the release. *)
Definition gesture (tickCache : option TickCache) (down : MouseEvent)
    (moves : list MouseEvent) (up : MouseEvent) (o : Overlay) : Overlay :=
  onUp tickCache up
    (fold_left (λ o e, onMove tickCache e o) moves (onDown tickCache down o)).

End BeatLoopOverlay.

(** ** The page: position-change handler *)

Module Page.

Local Open Scope Z_scope.

(** The layout tree of [boundsLookup.staffSystems]: master bar bounds hold
    bar bounds, which hold voices, which hold the [beat] of each beat
    bounds. *)
Record BarBounds : Type := mkBarBounds {
  barb_voices : list (list (option Beat)) }.

Record MasterBarBounds : Type := mkMasterBarBounds {
  mbb_masterBar : option MasterBar;
  mbb_index : option Z;
  mbb_bars : list BarBounds }.

Record StaffSystem : Type := mkStaffSystem {
  sys_bars : list MasterBarBounds }.

(** What one event reads and does not change. *)
Record PageApi : Type := mkPageApi {
  cursorApi : CursorApi;
  tickCache : option TickCache;
  staffSystems : list StaffSystem }.

(** The refs of the page and the transport. *)
Record PageState : Type := mkPageState {
  cursorRef : option MaestroCursor.Cursor;
  loopEnabledRef : bool;
  lastTickRef : option Z;
  stableCurBeatRef : option Beat;
  stableExpandedBeatStartRef : Z;
  stableNextBeatRef : option Beat;
  transport : Transport }.

(** The calls to [tickCache.findBeat] made by one event. *)
Inductive Probe : Type :=
  | FallbackProbe (t : Z)
  | BackwardProbe (t : Z)
  | ForwardProbe (t : Z).

Definition isScanProbe (p : Probe) : bool :=
  match p with
  | FallbackProbe _ => false
  | BackwardProbe _ | ForwardProbe _ => true
  end.

Definition SAFETY_MARGIN : Z := 120.

(** [isSameBeat]: structural equality, [false] when either side is missing. *)
Definition isSameBeat (a b : option Beat) : bool :=
  match a, b with
  | Some a, Some b =>
      bool_decide (absolutePlaybackStart a = absolutePlaybackStart b)
      && bool_decide (masterBarIndex a = masterBarIndex b)
  | _, _ => false
  end.

(** The test of the loop boundary enforcer: the start to wrap to, if the
    tick is intercepted. *)
Definition enforcerWrap (loopEnabled : bool) (range : PlaybackRange) (tickRaw : Z)
    : option Z :=
  if loopEnabled then
    match range with
    | Range startTick endTick =>
        if endTick - SAFETY_MARGIN <=? tickRaw then Some startTick else None
    | _ => None
    end
  else None.

(** The jump detection. *)
Definition jumpedFrom (lastTick : option Z) (tick : Z) : bool :=
  match lastTick with
  | Some l => 2000 <? Z.abs (tick - l)
  | None => false
  end.

(** *** Expanded beat resolution *)

(** Step 1: the last entry of [masterBars] that owns the tick, with its
    occurrence number and expanded start. *)
Definition ownerStep (tick : Z) (acc : gmap Z nat * option (Z * nat * Z))
    (mb : MasterBarTickLookup) : gmap Z nat * option (Z * nat * Z) :=
  match mbt_index mb with
  | None => acc
  | Some mbIdx =>
      let occ := default 0%nat (acc.1 !! mbIdx) in
      let occurrenceMap := <[mbIdx := S occ]> acc.1 in
      if (mbt_start mb <=? tick) && (tick <? mbt_start mb + mbt_dur mb)
      then (occurrenceMap, Some (mbIdx, occ, mbt_start mb))
      else (occurrenceMap, acc.2)
  end.

Definition findOwner (tick : Z) (masterBarsArr : list MasterBarTickLookup)
    : option (Z * nat * Z) :=
  (fold_left (ownerStep tick) masterBarsArr (∅, None)).2.

(** Step 2: the visual instance of the owner with the same occurrence
    number, in layout order. *)
Fixpoint findVisual (ownerMbIdx : Z) (ownerOccurrence : nat)
    (visualOccMap : gmap Z nat) (bars : list MasterBarBounds)
    : option MasterBarBounds :=
  match bars with
  | [] => None
  | mbb :: rest =>
      match (match mbb_masterBar mbb ≫= mb_index with
             | Some i => Some i
             | None => mbb_index mbb
             end) with
      | None => findVisual ownerMbIdx ownerOccurrence visualOccMap rest
      | Some vbIdx =>
          let vOcc := default 0%nat (visualOccMap !! vbIdx) in
          if bool_decide (vbIdx = ownerMbIdx) && bool_decide (vOcc = ownerOccurrence)
          then Some mbb
          else findVisual ownerMbIdx ownerOccurrence (<[vbIdx := S vOcc]> visualOccMap) rest
      end
  end.

(** Step 3: the first beat of the instance whose offset-adjusted span owns
    the tick. *)
Definition findBeatIn (tick ownerExpandedStart : Z) (targetMbb : MasterBarBounds)
    : option Beat :=
  List.find
    (λ beat,
       let beatExpandedStart := ownerExpandedStart + default 0 (playbackStart beat) in
       (beatExpandedStart <=? tick) && (tick <? beatExpandedStart + durOf beat))
    (omap id (concat (concat (barb_voices <$> mbb_bars targetMbb)))).

Definition resolveExpandedBeat (api : PageApi) (tc : TickCache) (tick : Z) : option Beat :=
  match findOwner tick (default [] (tc_masterBars tc)) with
  | Some (ownerMbIdx, ownerOccurrence, ownerExpandedStart) =>
      findVisual ownerMbIdx ownerOccurrence ∅ (concat (sys_bars <$> staffSystems api))
        ≫= findBeatIn tick ownerExpandedStart
  | None => None
  end.

(** The beat the handler tracks: the expanded resolution, or the
    structurally biased [findBeat] when it fails. *)
Definition resolveBeat (api : PageApi) (tc : TickCache) (tick : Z)
    : option Beat * list Probe :=
  match resolveExpandedBeat api tc tick with
  | Some b => (Some b, [])
  | None => (tc_findBeat tc tick, [FallbackProbe tick])
  end.

(** *** The two scans of the beat entry guard *)

(** [expandedBeatStart] by the backward scan, with its probes. *)
Definition backwardScan (tc : TickCache) (curBeat : Beat) (tick : Z) : Z * list Probe :=
  let r := scanDown (λ t, negb (isSameBeat (tc_findBeat tc t) (Some curBeat)))
             1 (tick - 2000) (scanFuel (tick - 2000) (tick - 1)) (tick - 1) in
  (match r.1 with Some t => t + 1 | None => tick end, BackwardProbe <$> r.2).

(** [scannedNextBeat] by the forward scan, with its probes. *)
Definition forwardScan (tc : TickCache) (curBeat : Beat) (expandedBeatStart : Z)
    : option Beat * list Probe :=
  let r := scanUp (λ t, bool_decide (is_Some (tc_findBeat tc t))
                        && negb (isSameBeat (tc_findBeat tc t) (Some curBeat)))
             (expandedBeatStart + 4000)
             (scanFuel (expandedBeatStart + 1) (expandedBeatStart + 4000))
             (expandedBeatStart + 1) in
  (r.1 ≫= tc_findBeat tc, ForwardProbe <$> r.2).

(** *** The handler *)

Definition onPlayerPositionChanged (api : PageApi) (e : option Z) (st : PageState)
    : PageState * list Probe :=
  match cursorRef st, e with
  | Some cursor, Some tickRaw =>
      match enforcerWrap (loopEnabledRef st) (playbackRange (transport st)) tickRaw with
      | Some startTick =>
          (mkPageState (Some (MaestroCursor.requestSnap cursor)) (loopEnabledRef st)
             (lastTickRef st) (stableCurBeatRef st) (stableExpandedBeatStartRef st)
             (stableNextBeatRef st) (set_tickPosition startTick (transport st)), [])
      | None =>
          let tick := tickRaw in
          let jumped := jumpedFrom (lastTickRef st) tick in
          let cursor := if jumped then MaestroCursor.requestSnap cursor else cursor in
          let stableCurBeat := if jumped then None else stableCurBeatRef st in
          let stableStart := if jumped then 0 else stableExpandedBeatStartRef st in
          let st1 := mkPageState (Some cursor) (loopEnabledRef st) (Some tick)
                       stableCurBeat stableStart (stableNextBeatRef st) (transport st) in
          match tickCache api with
          | None => (st1, [])
          | Some tc =>
              let resolvedBeat := resolveBeat api tc tick in
              match resolvedBeat.1 with
              | None => (st1, resolvedBeat.2)
              | Some curBeat =>
                  if negb (isSameBeat (Some curBeat) stableCurBeat) || jumped then
                    let back := backwardScan tc curBeat tick in
                    let fwd := forwardScan tc curBeat back.1 in
                    let cursor := MaestroCursor.setBeat (cursorApi api) (Some curBeat) cursor in
                    let cursor := MaestroCursor.setTick (cursorApi api) tick fwd.1
                                    (Some back.1) cursor in
                    (mkPageState (Some cursor) (loopEnabledRef st) (Some tick)
                       (Some curBeat) back.1 fwd.1 (transport st),
                     resolvedBeat.2 ++ back.2 ++ fwd.2)
                  else
                    let cursor := MaestroCursor.setTick (cursorApi api) tick
                                    (stableNextBeatRef st) (Some stableStart) cursor in
                    (mkPageState (Some cursor) (loopEnabledRef st) (Some tick)
                       stableCurBeat stableStart (stableNextBeatRef st) (transport st),
                     resolvedBeat.2)
              end
          end
      end
  | _, _ => (st, [])
  end.

(** The probes of the two scans among the probes of an event. *)
Definition scanProbes (ps : list Probe) : list Probe := List.filter isScanProbe ps.

(** No tick before [selectionEnd] is intercepted under the range: the
    margin does not shorten the loop. *)
Definition neverShortens (range : PlaybackRange) (selectionEnd : Z) : Prop :=
  forall tick, is_Some (enforcerWrap true range tick) -> selectionEnd <= tick.

(** *** The manual loop of [enableManualLoop] *)

(** [lastValid]: the last tick of the range with a resolvable beat, or the
    start when there is none. *)
Definition lastValid (tc : option TickCache) (start endExclusive : Z) : Z :=
  default start
    (scanDown (λ t, bool_decide (is_Some (tc ≫= (λ c, tc_findBeat c t)))) 1 start
       (scanFuel start (endExclusive - 1)) (endExclusive - 1)).1.

(** The subscribed handler: the position it forces, if any. *)
Definition manualLoopWrap (start lastValidTick : Z) (e : option Z) : option Z :=
  match e with
  | None => None
  | Some tick =>
      if tick <? start then Some start
      else if lastValidTick <=? tick then Some start
      else None
  end.

(** [enableManualLoop]: [None] when there is no playback range; otherwise
    the transport with the native loop disabled, and the handler. *)
Definition enableManualLoop (tc : option TickCache) (tr : Transport)
    : option (Transport * (option Z -> option Z)) :=
  match playbackRange tr with
  | Range start endExclusive =>
      Some (set_isLooping false tr,
            manualLoopWrap start (lastValid tc start endExclusive))
  | _ => None
  end.

End Page.

(** ** CustomLoopOverlay: tick resolution and the drag *)

Module LoopOverlayDrag.

Import LoopOverlay.
Local Open Scope Z_scope.

(** The result of the bar hit-test. *)
Record BarHitResult : Type := mkBarHitResult {
  hit_masterBar : option MasterBar;
  hit_startTick : Z;
  hit_endTick : Z;
  hit_barBounds : VisualBounds }.

(** What the overlay reads of the renderer: the tick cache, the bounds of a
    beat, the beat under a point and the bar hit-test at a point. *)
Record OverlayApi : Type := mkOverlayApi {
  ov_tickCache : option TickCache;
  ov_findBeat : Beat -> option BeatBounds;
  ov_getBeatAtPos : Q -> Q -> option Beat;
  ov_findBarAtPos : Q -> Q -> option BarHitResult }.

(** [Math.max(barHit.startTick, Math.min(barHit.endTick, tick))] *)
Definition clampToBar (tick : Z) (barHit : BarHitResult) : Z :=
  Z.max (hit_startTick barHit) (Z.min (hit_endTick barHit) tick).

Definition resolveExpandedBeatTickFromRendererBeat (tickCache : option TickCache)
    (rBeat : option Beat) (passRefTick : Z) (visualBarIndexFallback : option Z)
    : option Z :=
  match rBeat with
  | None => None
  | Some b =>
      match tickCache ≫= tc_masterBars with
      | None => None
      | Some _ =>
          match (match masterBarIndex b with
                 | Some i => Some i
                 | None => visualBarIndexFallback
                 end) with
          | None => None
          | Some visualBarIndex =>
              match TimelineExpander.resolveExpandedBarStart tickCache
                      visualBarIndex passRefTick with
              | None => None
              | Some barStart => Some (barStart + default 0 (playbackStart b))
              end
          end
      end
  end.

(** The proportional tick inside the beat box under the mouse. *)
Definition computeInsideBeatTick (api : OverlayApi) (rBeat : Beat)
    (expandedBeatStart : Z) (mouseX : Q) : option Z :=
  match ov_findBeat api rBeat ≫= visualBounds with
  | None => None
  | Some vb =>
      let beatDur := durOf rBeat in
      if (beatDur <=? 0) || Qleb (vb_w vb) 0 then None
      else
        let t := clamp01 ((mouseX - vb_x vb) / vb_w vb)%Q in
        Some (expandedBeatStart + Qfloor (t * inject_Z beatDur)%Q)
  end.

Definition resolveBeatModeTick (api : OverlayApi) (x y : Q) (barHit : BarHitResult)
    (passRefTick : Z) : Z :=
  let preciseTick :=
    match ov_getBeatAtPos api x y with
    | Some rBeat =>
        let expandedBeatStart :=
          resolveExpandedBeatTickFromRendererBeat (ov_tickCache api) (Some rBeat)
            passRefTick (hit_masterBar barHit ≫= mb_index) in
        let insideTick :=
          expandedBeatStart ≫= (λ s, computeInsideBeatTick api rBeat s x) in
        match insideTick with
        | Some t => t
        | None => default (hit_endTick barHit) expandedBeatStart
        end
    | None => hit_endTick barHit
    end in
  clampToBar preciseTick barHit.

Inductive SnapMode : Type := BarMode | BeatMode.

(** A mouse event: the client coordinates, the button, and the content
    coordinates [getScaledPos] computes for it. *)
Record MouseEvent : Type := mkMouseEvent {
  clientX : Q;
  clientY : Q;
  button : Z;
  posX : Q;
  posY : Q }.

Record DragState : Type := mkDragState {
  isDragging : bool;
  startX : Q;
  startY : Q;
  startBar : option BarHitResult;
  currentBar : option BarHitResult;
  startTick : option Z;
  currentTick : option Z;
  passRefTick : Z }.

(** The refs and state of the component and the transport it writes;
    [changes] are the calls to [onLoopChange], latest first. *)
Record Overlay : Type := mkOverlay {
  snapModeRef : SnapMode;
  dragRef : DragState;
  loopSelectionRef : option LoopSelection;
  previewSelection : option LoopSelection;
  transport : Transport;
  changes : list (Z * Z) }.

Definition CLICK_THRESHOLD_PX : Q := 5.

(** [dx < CLICK_THRESHOLD_PX && dy < CLICK_THRESHOLD_PX] *)
Definition withinClick (e : MouseEvent) (drag : DragState) : bool :=
  Qltb (Qabs (clientX e - startX drag)) CLICK_THRESHOLD_PX
  && Qltb (Qabs (clientY e - startY drag)) CLICK_THRESHOLD_PX.

Definition set_drag (d : DragState) (o : Overlay) : Overlay :=
  mkOverlay (snapModeRef o) d (loopSelectionRef o) (previewSelection o)
    (transport o) (changes o).

Definition set_preview (p : option LoopSelection) (o : Overlay) : Overlay :=
  mkOverlay (snapModeRef o) (dragRef o) (loopSelectionRef o) p
    (transport o) (changes o).

(** [setLoopSelection], [applyLoopSelection] and [onLoopChange] for a
    selection of the given ticks; [loopEnabled] is the prop as the calling
    closure sees it. *)
Definition commit (api : OverlayApi) (loopEnabled : bool) (startTick endTick : Z)
    (o : Overlay) : Overlay :=
  let sel := mkLoopSelection startTick endTick in
  mkOverlay (snapModeRef o) (dragRef o) (Some sel) None
    (applyLoopSelection (ov_tickCache api) loopEnabled sel (transport o))
    ((startTick, endTick) :: changes o).

Definition handleMouseDown (api : OverlayApi) (loopEnabled : bool) (e : MouseEvent)
    (o : Overlay) : Overlay :=
  if negb (bool_decide (button e = 0)) || negb loopEnabled then o
  else
    let barHit := ov_findBarAtPos api (posX e) (posY e) in
    let passRefTick := default 0 (hit_startTick <$> barHit) in
    let preciseTick :=
      match snapModeRef o, barHit with
      | BeatMode, Some hit =>
          Some (resolveBeatModeTick api (posX e) (posY e) hit passRefTick)
      | _, _ => hit_startTick <$> barHit
      end in
    set_drag (mkDragState true (clientX e) (clientY e) barHit barHit
                preciseTick preciseTick passRefTick) o.

(** The ticks of the selection a drag spans. *)
Definition dragTicks (mode : SnapMode) (drag : DragState) (startBar cur : BarHitResult)
    (currentTick : option Z) : Z * Z :=
  match mode, startTick drag, currentTick with
  | BeatMode, Some s, Some c => (Z.min s c, Z.max s c)
  | _, _, _ =>
      (Z.min (hit_startTick startBar) (hit_startTick cur),
       Z.max (hit_endTick startBar) (hit_endTick cur))
  end.

Definition handleMouseMove (api : OverlayApi) (e : MouseEvent) (o : Overlay) : Overlay :=
  let drag := dragRef o in
  match isDragging drag, startBar drag with
  | true, Some sb =>
      if withinClick e drag then o
      else
        match ov_findBarAtPos api (posX e) (posY e) with
        | None => o
        | Some barHit =>
            let drag1 := mkDragState (isDragging drag) (startX drag) (startY drag)
                           (startBar drag) (Some barHit) (startTick drag)
                           (currentTick drag) (passRefTick drag) in
            let preciseTick :=
              match snapModeRef o with
              | BeatMode =>
                  resolveBeatModeTick api (posX e) (posY e) barHit (passRefTick drag)
              | BarMode => hit_endTick barHit
              end in
            let unchanged :=
              match snapModeRef o with
              | BeatMode =>
                  bool_decide (is_Some (startTick drag))
                  && bool_decide (Some preciseTick = currentTick drag)
              | BarMode => false
              end in
            if unchanged then set_drag drag1 o
            else
              let drag2 := mkDragState (isDragging drag) (startX drag) (startY drag)
                             (startBar drag) (Some barHit) (startTick drag)
                             (Some preciseTick) (passRefTick drag) in
              let '(s, t) := dragTicks (snapModeRef o) drag sb barHit (Some preciseTick) in
              set_preview (Some (mkLoopSelection s t)) (set_drag drag2 o)
        end
  | _, _ => o
  end.

(** [handleMouseUp] is memoised on [api, surfaceRef, onLoopChange] only: the
    [applyLoopSelection] it calls is the closure of the render that created
    the handler, so the loop flag it writes is the [loopEnabled] prop of
    that render, [capturedLoopEnabled], not the current one. *)
Definition handleMouseUp (api : OverlayApi) (capturedLoopEnabled : bool)
    (e : MouseEvent) (o : Overlay) : Overlay :=
  let drag := dragRef o in
  if negb (isDragging drag) then o
  else
    let o := set_drag (mkDragState false (startX drag) (startY drag) (startBar drag)
                         (currentBar drag) (startTick drag) (currentTick drag)
                         (passRefTick drag)) o in
    if withinClick e drag then
      let o := set_preview None o in
      match ov_findBarAtPos api (posX e) (posY e) with
      | None => o
      | Some barHit =>
          commit api capturedLoopEnabled (hit_startTick barHit) (hit_endTick barHit) o
      end
    else
      match startBar drag, currentBar drag with
      | Some sb, Some cb =>
          let '(s, t) := dragTicks (snapModeRef o) drag sb cb (currentTick drag) in
          if bool_decide (s = t) then
            match ov_findBarAtPos api (posX e) (posY e) with
            | None => set_preview None o
            | Some barHit2 =>
                commit api capturedLoopEnabled (hit_startTick barHit2)
                  (hit_endTick barHit2) o
            end
          else commit api capturedLoopEnabled s t o
      | _, _ => set_preview None o
      end.

Definition clearLoopSelection (o : Overlay) : Overlay :=
  let tr :=
    match playbackRange (transport o) with
    | RangeUndefined => transport o
    | _ => set_playbackRange RangeNull (transport o)
    end in
  mkOverlay (snapModeRef o) (dragRef o) None None (set_isLooping false tr) (changes o).

(** A press, the moves that follow it, and the release.  The press reads
    the current [loopEnabled] prop ([handleMouseDown] is memoised on it);
    the release writes with the prop its handler captured. *)
Definition gesture (api : OverlayApi) (loopEnabled capturedLoopEnabled : bool)
    (down : MouseEvent) (moves : list MouseEvent) (up : MouseEvent) (o : Overlay)
    : Overlay :=
  handleMouseUp api capturedLoopEnabled up
    (fold_left (λ o e, handleMouseMove api e o) moves
       (handleMouseDown api loopEnabled down o)).

(** A hit whose bar is not inverted, if there is a hit. *)
Definition orderedHit (h : option BarHitResult) : Prop :=
  forall hit, h = Some hit -> hit_startTick hit <= hit_endTick hit.

(** What the moves of a drag leave alone. *)
Definition sameAnchor (o o' : Overlay) : Prop :=
  (isDragging (dragRef o') = isDragging (dragRef o)
   /\ startX (dragRef o') = startX (dragRef o)
   /\ startY (dragRef o') = startY (dragRef o)
   /\ startBar (dragRef o') = startBar (dragRef o)
   /\ startTick (dragRef o') = startTick (dragRef o))
  /\ (snapModeRef o' = snapModeRef o
      /\ loopSelectionRef o' = loopSelectionRef o
      /\ transport o' = transport o
      /\ changes o' = changes o).

(** What a commit leaves behind. *)
Definition committed (api : OverlayApi) (loopEnabled : bool) (s t : Z)
    (o o' : Overlay) : Prop :=
  changes o' = (s, t) :: changes o
  /\ loopSelectionRef o' = Some (mkLoopSelection s t)
  /\ transport o'
     = applyLoopSelection (ov_tickCache api) loopEnabled (mkLoopSelection s t)
         (transport o).

End LoopOverlayDrag.

(** ** Loop controls and runs of position events *)

Module LoopControls.

(** [onLoopToggle] of the page, with the player attached. *)
Definition onLoopToggle (enabled : bool) (st : Page.PageState) : Page.PageState :=
  Page.mkPageState (Page.cursorRef st) enabled (Page.lastTickRef st)
    (Page.stableCurBeatRef st) (Page.stableExpandedBeatStartRef st)
    (Page.stableNextBeatRef st)
    (if enabled then set_isLooping true (Page.transport st)
     else set_playbackRange RangeNull (set_isLooping false (Page.transport st))).

(** The position handler over a run of events. *)
Definition positionEvents (api : Page.PageApi) (es : list (option Z))
    (st : Page.PageState) : Page.PageState :=
  fold_left (λ st e, (Page.onPlayerPositionChanged api e st).1) es st.

(** [updateCursorForTick]: the immediate snap after a seek, a re-render or
    a manual toggle, by the structurally biased [findBeat];
    [boundsLookup] tells whether the renderer has its bounds lookup. *)
Definition updateCursorForTick (api : Page.PageApi) (boundsLookup : bool) (tick : Z)
    (st : Page.PageState) : Page.PageState :=
  match Page.cursorRef st with
  | None => st
  | Some cursor =>
      if negb boundsLookup then st
      else
        match Page.tickCache api ≫= (λ tc, tc_findBeat tc tick) with
        | None => st
        | Some beat =>
            let cursor := MaestroCursor.setBeat (Page.cursorApi api) (Some beat) cursor in
            let cursor := MaestroCursor.setTick (Page.cursorApi api) tick None None
                            cursor in
            Page.mkPageState (Some cursor) (Page.loopEnabledRef st)
              (Page.lastTickRef st) (Page.stableCurBeatRef st)
              (Page.stableExpandedBeatStartRef st) (Page.stableNextBeatRef st)
              (Page.transport st)
        end
  end.

(** The beat the page holds as current is the beat the cursor holds. *)
Definition tracksBeat (st : Page.PageState) : Prop :=
  forall b, Page.stableCurBeatRef st = Some b ->
    exists c, Page.cursorRef st = Some c /\ MaestroCursor.currentBeat c = Some b.

End LoopControls.

(** ** Occurrences of a bar, for the expanded beat resolution *)

Module Occurrences.

Local Open Scope Z_scope.

(** The entry's span in the unrolled timeline owns the tick. *)
Definition owns (tick : Z) (mb : MasterBarTickLookup) : Prop :=
  mbt_start mb <= tick < mbt_start mb + mbt_dur mb.

(** [mbb.masterBar?.index ?? mbb.index] *)
Definition visualIndex (mbb : Page.MasterBarBounds) : option Z :=
  match Page.mbb_masterBar mbb ≫= mb_index with
  | Some i => Some i
  | None => Page.mbb_index mbb
  end.

(** How many of the elements carry the bar index. *)
Definition occurrences {A : Type} (index : A -> option Z) (idx : Z) (l : list A) : nat :=
  length (filter (λ a, index a = Some idx) l).

(** The beats of a laid-out master bar, in the order the handler visits
    them. *)
Definition beatsOf (mbb : Page.MasterBarBounds) : list Beat :=
  omap id (concat (concat (Page.barb_voices <$> Page.mbb_bars mbb))).

End Occurrences.

(** ** The bar overlay: auto-init *)

Module LoopInit.

Import LoopOverlay LoopOverlayDrag.
Local Open Scope Z_scope.

(** The auto-init effect of the bar overlay: a one-bar loop at the
    player's position when the loop is switched on and nothing is
    selected. *)
Definition autoInit (api : OverlayApi) (loopEnabled boundsReady : bool)
    (o : Overlay) : Overlay :=
  if negb loopEnabled || negb boundsReady then o
  else
    match loopSelectionRef o with
    | Some _ => o
    | None =>
        let currentTick := default 0 (tickPosition (transport o)) in
        match ov_tickCache api with
        | None => o
        | Some tickCache =>
            match tc_findBeat tickCache currentTick ≫= masterBar with
            | None => o
            | Some mb =>
                match mb_index mb with
                | None => o
                | Some visualBarIndex =>
                    match TimelineExpander.resolveExpandedBarStart (Some tickCache)
                            visualBarIndex currentTick with
                    | None => o
                    | Some expandedStart =>
                        let barDur := match mb_calculateDuration mb with
                                      | Some d => d
                                      | None => default 0 (mb_duration mb)
                                      end in
                        let barStart := expandedStart in
                        let barEnd := barStart + barDur in
                        let sel := mkLoopSelection barStart barEnd in
                        mkOverlay (snapModeRef o) (dragRef o) (Some sel)
                          (previewSelection o)
                          (applyLoopSelection (ov_tickCache api) loopEnabled sel
                             (transport o))
                          ((barStart, barEnd) :: changes o)
                    end
                end
            end
        end
    end.

(** The tick resolves to the given beat, structurally. *)
Definition resolvesTo (tc : TickCache) (curBeat : Beat) (t : Z) : Prop :=
  exists b, tc_findBeat tc t = Some b /\ sameStructuralBeat b curBeat = true.

End LoopInit.

(** ** A worked score

    Structural bar 5 lasts 1920 ticks and sounds three times, at expanded
    starts 9600, 19200 and 28800.  It holds two beats of 960 ticks: the
    first is anchored at x = 110, the second at x = 210, and the bar's right
    edge is at x = 320. *)

Module Scenario.

Definition bar5 : MasterBar := mkMasterBar (Some 5%Z) (Some 9600%Z) (Some 1920%Z) None.
Definition bar6 : MasterBar := mkMasterBar (Some 6%Z) (Some 11520%Z) (Some 1920%Z) None.

Definition beat2 : Beat :=
  mkBeat (Some 10560%Z) (Some 960%Z) (Some 960%Z) None (Some 5%Z) (Some bar5) None.

Definition beat1 : Beat :=
  mkBeat (Some 9600%Z) (Some 0%Z) (Some 960%Z) None (Some 5%Z) (Some bar5) (Some beat2).

(** A beat that knows neither its bar nor its master bar. *)
Definition orphan : Beat :=
  mkBeat (Some 9600%Z) (Some 0%Z) (Some 480%Z) None None None None.

Definition boundsOf (b : Beat) : option BeatBounds :=
  match absolutePlaybackStart b with
  | Some 9600%Z => Some (mkBeatBounds (Some (mkVisualBounds 100 50 20 40)) (Some 110%Q))
  | Some 10560%Z => Some (mkBeatBounds (Some (mkVisualBounds 200 50 20 40)) (Some 210%Q))
  | _ => None
  end.

Definition masterBarBoundsOf (mb : option MasterBar) : option VisualBounds :=
  match mb ≫= mb_index with
  | Some 5%Z => Some (mkVisualBounds 80 50 240 40)
  | _ => None
  end.

Definition playing : CursorApi := mkCursorApi boundsOf masterBarBoundsOf (Some true) 0.
Definition paused : CursorApi := mkCursorApi boundsOf masterBarBoundsOf (Some false) 0.

(** A renderer with no master bar bounds. *)
Definition pausedNoBars : CursorApi := mkCursorApi boundsOf (λ _, None) (Some false) 0.

Definition masterBars : list MasterBarTickLookup :=
  [ mkMasterBarTickLookup (Some bar5) 9600;
    mkMasterBarTickLookup (Some bar6) 11520;
    mkMasterBarTickLookup (Some bar5) 19200;
    mkMasterBarTickLookup (Some bar6) 21120;
    mkMasterBarTickLookup (Some bar5) 28800 ].

(** [findBeat] of the tick cache over the first pass of bar 5. *)
Definition beatAt (t : Z) : option Beat :=
  if ((9600 <=? t) && (t <? 10560))%Z then Some beat1
  else if ((10560 <=? t) && (t <? 11520))%Z then Some beat2
  else None.

Definition cache : TickCache :=
  mkTickCache beatAt (Some masterBars)
    (Some (λ b, default 0%Z (absolutePlaybackStart b))).

(** A cache without the expansion table. *)
Definition bareCache : TickCache :=
  mkTickCache beatAt None (Some (λ b, default 0%Z (absolutePlaybackStart b))).

Definition stopped : Transport := mkTransport (Some 9600%Z) RangeNull false.

(** The layout shows bar 5 once, with its two beats in one voice. *)
Definition layout : list Page.StaffSystem :=
  [ Page.mkStaffSystem
      [ Page.mkMasterBarBounds (Some bar5) (Some 5%Z)
          [ Page.mkBarBounds [[Some beat1; Some beat2]] ] ] ].

Definition pageApi : Page.PageApi := Page.mkPageApi playing (Some cache) layout.

(** The page with the cursor attached, before the first event; and with
    the loop [9600, 11520) enabled. *)
Definition fresh : Page.PageState :=
  Page.mkPageState (Some MaestroCursor.create) false None None 0%Z None stopped.

(** The overlay in loop mode, before any gesture; a press and a move on
    given beats, and a release. *)
Definition idle : BeatLoopOverlay.Overlay :=
  BeatLoopOverlay.mkOverlay true false None None 0 0 None false stopped [].

Definition pointerAt (x : Q) (b : option Beat) : BeatLoopOverlay.MouseEvent :=
  BeatLoopOverlay.mkMouseEvent x 60 b.

Definition looping : Page.PageState :=
  Page.mkPageState (Some MaestroCursor.create) true None None 0%Z None
    (mkTransport (Some 11519%Z) (Range 9600 11520) true).

(** The cursor on the first and on the second beat of the bar. *)
Definition onBeat1 : MaestroCursor.Cursor :=
  MaestroCursor.setBeat playing (Some beat1) MaestroCursor.create.

Definition onBeat2 : MaestroCursor.Cursor :=
  MaestroCursor.setBeat playing (Some beat2) MaestroCursor.create.

End Scenario.

(** ** More of the worked score *)

Module Examples.

(** A beat of the third pass that the renderer has not laid out. *)
Definition unrendered : Beat :=
  mkBeat (Some 30000%Z) (Some 1200%Z) (Some 480%Z) None (Some 5%Z)
    (Some Scenario.bar5) None.

(** The first beat of bar 5 as a beat instance without a structural next
    beat: [setBeat] freezes no next anchor for it. *)
Definition unlinked : Beat :=
  mkBeat (Some 9600%Z) (Some 0%Z) (Some 960%Z) None (Some 5%Z)
    (Some Scenario.bar5) None.

(** What the overlay reads, over the worked score: every point hits the
    first pass of bar 5, points left of x = 200 are on the first beat. *)
Definition barHit1 : LoopOverlayDrag.BarHitResult :=
  LoopOverlayDrag.mkBarHitResult (Some Scenario.bar5) 9600 11520
    (mkVisualBounds 80 50 240 40).

Definition overlayApi : LoopOverlayDrag.OverlayApi :=
  LoopOverlayDrag.mkOverlayApi (Some Scenario.cache) Scenario.boundsOf
    (λ x _, if Qltb x 200 then Some Scenario.beat1 else Some Scenario.beat2)
    (λ _ _, Some barHit1).

(** The bar overlay in beat mode, with no drag and no selection. *)
Definition overlayIdle : LoopOverlayDrag.Overlay :=
  LoopOverlayDrag.mkOverlay LoopOverlayDrag.BeatMode
    (LoopOverlayDrag.mkDragState false 0 0 None None None None 0)
    None None Scenario.stopped [].

End Examples.

(** * Properties *)

(** ** Number helpers *)

Lemma Qltb_lt (a b : Q) : Qltb a b = true <-> (a < b)%Q.
Proof.
  unfold Qltb. rewrite Qlt_alt.
  destruct (a ?= b)%Q; split; intros E; congruence.
Qed.

Lemma Qltb_ge (a b : Q) : Qltb a b = false <-> (b <= a)%Q.
Proof.
  rewrite <- not_true_iff_false, Qltb_lt. split.
  - apply Qnot_lt_le.
  - intros Hle Hlt. exact (Qle_not_lt _ _ Hle Hlt).
Qed.

Lemma Qleb_le (a b : Q) : Qleb a b = true <-> (a <= b)%Q.
Proof. apply Qle_bool_iff. Qed.

Lemma Qleb_gt (a b : Q) : Qleb a b = false <-> (b < a)%Q.
Proof.
  rewrite <- not_true_iff_false, Qleb_le. split.
  - apply Qnot_le_lt.
  - intros Hlt Hle. exact (Qle_not_lt _ _ Hle Hlt).
Qed.

Lemma clamp01_range (p : Q) : (0 <= clamp01 p <= 1)%Q.
Proof.
  unfold clamp01. split.
  - apply Q.le_max_l.
  - apply Q.max_lub; [lra | apply Q.le_min_l].
Qed.

Lemma clamp01_id (p : Q) : (0 <= p)%Q -> (p <= 1)%Q -> (clamp01 p == p)%Q.
Proof.
  intros H0 H1. unfold clamp01.
  rewrite (Q.min_r 1 p) by exact H1. apply Q.max_r. exact H0.
Qed.



(** ** MaestroCursor *)

Section CursorFacts.

Import MaestroCursor.
Local Open Scope Q_scope.

(** Reduce the projections of a cursor or an element, and nothing else. *)
Ltac proj_simpl :=
  cbn [element currentBeat currentNoteX currentY currentHeight currentVbW
       nextBeatCenterX beatStart beatDuration beatStartToUse svgRendered
       lastSvgHeight lastFinalX lastFinalY hasInitialPosition lastLogBeat
       lastDebugUpdate visible opacity transitionNone transform height svg
       debugLabel] in *.

(** *** Frame lemmas: which fields each step touches *)

Lemma applyTransform_nextBeatCenterX x y hgt snap c :
  nextBeatCenterX (applyTransform x y hgt snap c) = nextBeatCenterX c.
Proof.
  unfold applyTransform. destruct (suppressed x y c); [reflexivity|].
  cbn. destruct (_ || _); reflexivity.
Qed.

Lemma applyTransform_currentNoteX x y hgt snap c :
  currentNoteX (applyTransform x y hgt snap c) = currentNoteX c.
Proof.
  unfold applyTransform. destruct (suppressed x y c); [reflexivity|].
  cbn. destruct (_ || _); reflexivity.
Qed.

Lemma fillNext_nextBeatCenterX api next c :
  nextBeatCenterX (fillNext api next c) = nextBeatCenterX c
  \/ (nextBeatCenterX c = None /\ is_Some (nextBeatCenterX (fillNext api next c))).
Proof.
  unfold fillNext. destruct next as [nb|]; [|now left].
  destruct (nextBeatCenterX c) as [nx|] eqn:E; [left; now rewrite E|].
  destruct (currentBeat c) as [cur|]; [|left; now rewrite E].
  destruct (nextAnchor api (currentY c) cur nb) as [nx|]; [|left; now rewrite E].
  right. split; [reflexivity|]. cbn. eauto.
Qed.

Lemma frozen_nextBeatCenterX api next override c :
  nextBeatCenterX (frozen api next override c) = nextBeatCenterX c
  \/ (nextBeatCenterX c = None
      /\ is_Some (nextBeatCenterX (frozen api next override c))).
Proof.
  unfold frozen.
  apply (fillNext_nextBeatCenterX api next
           (with_beatStartToUse (default (beatStart c) override) c)).
Qed.

Lemma diagnostics_currentNoteX api finalX progress c :
  currentNoteX (diagnostics api finalX progress c) = currentNoteX c.
Proof.
  unfold diagnostics.
  destruct (bool_decide (beatStartToUse c = lastLogBeat c));
    cbv zeta;
    match goal with
    | |- context [if ?b then _ else _] => destruct b
    end; reflexivity.
Qed.

Lemma diagnostics_frame api finalX progress c :
  nextBeatCenterX (diagnostics api finalX progress c) = nextBeatCenterX c
  /\ transform (element (diagnostics api finalX progress c)) = transform (element c).
Proof.
  unfold diagnostics.
  destruct (bool_decide (beatStartToUse c = lastLogBeat c));
    cbv zeta;
    match goal with
    | |- context [if ?b then _ else _] => destruct b
    end; split; reflexivity.
Qed.

Lemma setTick_after_frozen api tick next override c :
  nextBeatCenterX (setTick api tick next override c) = nextBeatCenterX c
  \/ nextBeatCenterX (setTick api tick next override c)
     = nextBeatCenterX (frozen api next override c).
Proof.
  unfold setTick. destruct (currentBeat c); [|now left].
  destruct (beatDuration c <=? 0)%Z; [now left|]. right. cbv zeta.
  rewrite (proj1 (diagnostics_frame _ _ _ _)).
  apply applyTransform_nextBeatCenterX.
Qed.

(** A single [setTick] keeps the frozen anchor, or fills an empty one. *)
Lemma setTick_nextBeatCenterX api tick next override c :
  nextBeatCenterX (setTick api tick next override c) = nextBeatCenterX c
  \/ (nextBeatCenterX c = None
      /\ is_Some (nextBeatCenterX (setTick api tick next override c))).
Proof.
  destruct (setTick_after_frozen api tick next override c) as [E|E];
    [now left|].
  rewrite E. apply frozen_nextBeatCenterX.
Qed.

Lemma fillNext_currentNoteX api next c :
  currentNoteX (fillNext api next c) = currentNoteX c.
Proof.
  unfold fillNext.
  destruct next as [nb|], (nextBeatCenterX c) as [nx|],
    (currentBeat c) as [cur|]; try reflexivity.
  destruct (nextAnchor api (currentY c) cur nb); reflexivity.
Qed.

Lemma setTick_currentNoteX api tick next override c :
  currentNoteX (setTick api tick next override c) = currentNoteX c.
Proof.
  unfold setTick. destruct (currentBeat c); [|reflexivity].
  destruct (beatDuration c <=? 0)%Z; [reflexivity|]. cbv zeta.
  rewrite diagnostics_currentNoteX, applyTransform_currentNoteX.
  unfold frozen. now rewrite fillNext_currentNoteX.
Qed.

Lemma setTicks_frozen calls : forall c nx,
  nextBeatCenterX c = Some nx ->
  nextBeatCenterX (setTicks calls c) = Some nx
  /\ currentNoteX (setTicks calls c) = currentNoteX c.
Proof.
  induction calls as [|k calls IH]; intros c nx Hc; [now split|].
  change (setTicks (k :: calls) c)
    with (setTicks calls (setTick (call_api k) (call_tick k) (call_next k)
                            (call_overrideBeatStart k) c)).
  assert (Hk : nextBeatCenterX (setTick (call_api k) (call_tick k) (call_next k)
                                  (call_overrideBeatStart k) c) = Some nx).
  { destruct (setTick_nextBeatCenterX (call_api k) (call_tick k) (call_next k)
                (call_overrideBeatStart k) c) as [E|[E _]]; congruence. }
  destruct (IH _ nx Hk) as [IH1 IH2]. split; [exact IH1|].
  rewrite IH2. apply setTick_currentNoteX.
Qed.

Lemma setTicks_nextBeatCenterX calls : forall c,
  nextBeatCenterX (setTicks calls c) = nextBeatCenterX c
  \/ (nextBeatCenterX c = None /\ is_Some (nextBeatCenterX (setTicks calls c))).
Proof.
  induction calls as [|k calls IH]; intros c; [now left|].
  change (setTicks (k :: calls) c)
    with (setTicks calls (setTick (call_api k) (call_tick k) (call_next k)
                            (call_overrideBeatStart k) c)).
  destruct (setTick_nextBeatCenterX (call_api k) (call_tick k) (call_next k)
              (call_overrideBeatStart k) c) as [E|[E S]].
  - rewrite <- E. apply IH.
  - right. split; [exact E|].
    destruct (IH (setTick (call_api k) (call_tick k) (call_next k)
                    (call_overrideBeatStart k) c)) as [E'|[E' _]].
    + now rewrite E'.
    + rewrite E' in S. now destruct S.
Qed.

(** C7, as the code has it.  Between a [setBeat] and the next [setBeat] or
    [requestSnap] the cursor only receives [setTick] calls.  Each call, and
    so each run of calls, leaves [nextBeatCenterX] as it was or fills it
    when it was [null]: an established value is never cleared nor replaced,
    and MODE A, once in force, stays in force.  The walk mode of a beat
    entered with no next anchor is not fixed at entry: the first [setTick]
    whose next beat resolves on the same row and bar fills the anchor and
    may switch the walk from MODE B to MODE A in the middle of the beat. *)
Theorem nextBeatCenterX_fill_never_clear :
  (forall api tick next override c,
      nextBeatCenterX (setTick api tick next override c) = nextBeatCenterX c
      \/ (nextBeatCenterX c = None
          /\ is_Some (nextBeatCenterX (setTick api tick next override c))))
  /\ (forall calls c nx,
        nextBeatCenterX c = Some nx ->
        nextBeatCenterX (setTicks calls c) = Some nx
        /\ inModeA (setTicks calls c) = inModeA c)
  /\ (forall calls c,
        nextBeatCenterX (setTicks calls c) = nextBeatCenterX c
        \/ (nextBeatCenterX c = None
            /\ is_Some (nextBeatCenterX (setTicks calls c))))
  /\ (forall calls c, inModeA c = true -> inModeA (setTicks calls c) = true)
  /\ (forall api tick next override c cur,
        currentBeat c = Some cur -> (0 < beatDuration c)%Z ->
        nextBeatCenterX c = None ->
        nextBeatCenterX (setTick api tick next override c)
        = next ≫= nextAnchor api (currentY c) cur).
Proof.
  assert (Frozen : forall calls c nx,
             nextBeatCenterX c = Some nx ->
             nextBeatCenterX (setTicks calls c) = Some nx
             /\ inModeA (setTicks calls c) = inModeA c).
  { intros calls c nx Hc.
    destruct (setTicks_frozen calls c nx Hc) as [E X].
    split; [exact E|]. unfold inModeA. now rewrite E, Hc, X. }
  split; [exact setTick_nextBeatCenterX|]. split; [exact Frozen|].
  split; [intros calls c; apply setTicks_nextBeatCenterX|]. split.
  - intros calls c HA.
    destruct (nextBeatCenterX c) as [nx|] eqn:N.
    + rewrite (proj2 (Frozen calls c nx N)). exact HA.
    + unfold inModeA in HA. rewrite N in HA. discriminate.
  - intros api tick next override c cur Hcur Hdur Hnone.
    unfold setTick. rewrite Hcur. apply Z.leb_gt in Hdur. rewrite Hdur. cbv zeta.
    rewrite (proj1 (diagnostics_frame _ _ _ _)), applyTransform_nextBeatCenterX.
    unfold frozen, fillNext, with_beatStartToUse. proj_simpl.
    rewrite Hnone, Hcur. destruct next as [nb|]; [|reflexivity].
    cbn. destruct (nextAnchor api (currentY c) cur nb); reflexivity.
Qed.

Lemma nextBeatCenterX_fill_never_clear_witness :
  let calls := [ mkTickCall Scenario.playing 9700 (Some Scenario.beat2) (Some 9600%Z);
                 mkTickCall Scenario.pausedNoBars 10300 None None;
                 mkTickCall Scenario.paused 10559 (Some Scenario.beat1) (Some 9600%Z) ] in
  nextBeatCenterX Scenario.onBeat1 = Some 210
  /\ nextBeatCenterX (setTicks calls Scenario.onBeat1) = Some 210
  /\ inModeA (setTicks calls Scenario.onBeat1) = inModeA Scenario.onBeat1.
Proof.
  cbv zeta. split; [reflexivity|].
  apply (proj1 (proj2 nextBeatCenterX_fill_never_clear)). reflexivity.
Defined.

(** C7 as stated: the walk mode chosen at beat entry would persist for the
    whole beat.  A beat entered with no structural next beat starts in
    MODE B and walks toward the barline; the first [setTick] that is handed
    a next beat on the same row and bar fills the anchor, and the walk is
    MODE A from then on: at the same tick the element moves back from
    x = 208 to x = 153. *)
Lemma mode_B_entry_switches_to_A_counterexample :
  let c0 := setBeat Scenario.playing (Some Examples.unlinked) create in
  let c1 := setTick Scenario.playing 10080 None (Some 9600%Z) c0 in
  let c2 := setTick Scenario.playing 10080 (Some Scenario.beat2) (Some 9600%Z) c1 in
  let writtenX c := match transform (element c) with
                    | Some (x, _) => x
                    | None => 0
                    end in
  (nextBeatCenterX c0 = None /\ inModeA c0 = false)
  /\ (nextBeatCenterX c1 = None /\ inModeA c1 = false /\ writtenX c1 == 208)
  /\ (nextBeatCenterX c2 = Some 210 /\ inModeA c2 = true /\ writtenX c2 == 153)
  /\ ~ (inModeA c2 = inModeA c0).
Proof.
  cbv zeta. repeat split; try (vm_compute; reflexivity).
  vm_compute. discriminate.
Qed.

(** C9.  A [setTick] on a malformed beat (no current beat, or a duration
    that is zero or negative) returns early: the whole cursor, its element
    included, is unchanged. *)
Theorem setTick_malformed_noop api tick next override c :
  currentBeat c = None \/ (beatDuration c <= 0)%Z ->
  setTick api tick next override c = c.
Proof.
  intros [H|H]; unfold setTick.
  - now rewrite H.
  - destruct (currentBeat c); [|reflexivity].
    apply Z.leb_le in H. now rewrite H.
Qed.

Lemma setTick_malformed_noop_witness :
  currentBeat create = None
  /\ setTick Scenario.playing 9600 (Some Scenario.beat2) (Some 9600%Z) create = create.
Proof.
  split; [reflexivity|].
  apply (setTick_malformed_noop Scenario.playing 9600 (Some Scenario.beat2)
           (Some 9600%Z) create).
  left. reflexivity.
Defined.

(** [setTick] never reads the visibility of the element nor writes it. *)
Lemma frozen_hide api next override c :
  frozen api next override (hide c) = hide (frozen api next override c).
Proof.
  unfold frozen, fillNext, hide, with_beatStartToUse, with_element. proj_simpl.
  destruct next as [nb|], (nextBeatCenterX c) as [nx|],
    (currentBeat c) as [cur|]; try reflexivity.
  destruct (nextAnchor api (currentY c) cur nb); reflexivity.
Qed.

Lemma applyTransform_hide x y hgt snap c :
  applyTransform x y hgt snap (hide c) = hide (applyTransform x y hgt snap c).
Proof.
  unfold applyTransform, suppressed, hide, with_lastFinal, with_element,
    with_svg, renderSVG. proj_simpl.
  destruct (Qltb (Qabs (x - lastFinalX c)) 0.5 && Qltb (Qabs (y - lastFinalY c)) 0.5);
    [reflexivity|].
  destruct (negb (svgRendered c) || Qltb 5 (Qabs (hgt - lastSvgHeight c)));
    reflexivity.
Qed.

Lemma diagnostics_hide api finalX progress c :
  diagnostics api finalX progress (hide c) = hide (diagnostics api finalX progress c).
Proof.
  unfold diagnostics, hide, with_lastLogBeat, with_lastDebugUpdate,
    updateDebugLabel, with_element. proj_simpl.
  destruct (bool_decide (beatStartToUse c = lastLogBeat c)); proj_simpl;
    destruct (Qltb 100 (clock api - lastDebugUpdate c)); reflexivity.
Qed.

Lemma setTick_hide api tick next override c :
  setTick api tick next override (hide c) = hide (setTick api tick next override c).
Proof.
  unfold setTick.
  change (currentBeat (hide c)) with (currentBeat c).
  change (beatDuration (hide c)) with (beatDuration c).
  destruct (currentBeat c) as [cur|]; [|reflexivity].
  destruct (beatDuration c <=? 0)%Z; [reflexivity|].
  rewrite frozen_hide.
  set (f := frozen api next override c).
  change (interpolatedX api tick (hide f)) with (interpolatedX api tick f).
  change (progressOf tick (hide f)) with (progressOf tick f).
  change (currentHeight (hide f)) with (currentHeight f).
  change (currentY (hide f)) with (currentY f).
  cbv zeta. rewrite applyTransform_hide.
  apply diagnostics_hide.
Qed.

(** C10.  [setBeat(null)] hides the element (visibility hidden, opacity 0)
    and writes nothing else: the current beat, the beat timing, the frozen
    next anchor and the cached geometry are kept, so a later [setTick]
    computes the very frame it would have computed, on a hidden element. *)
Theorem setBeat_null_only_hides api c :
  let c' := setBeat api None c in
  (visible (element c') = false /\ opacity (element c') = 0%Z)
  /\ (transitionNone (element c') = transitionNone (element c)
      /\ transform (element c') = transform (element c)
      /\ height (element c') = height (element c)
      /\ svg (element c') = svg (element c)
      /\ debugLabel (element c') = debugLabel (element c))
  /\ (currentBeat c' = currentBeat c
      /\ beatStart c' = beatStart c
      /\ beatDuration c' = beatDuration c
      /\ beatStartToUse c' = beatStartToUse c
      /\ nextBeatCenterX c' = nextBeatCenterX c)
  /\ (currentNoteX c' = currentNoteX c
      /\ currentY c' = currentY c
      /\ currentHeight c' = currentHeight c
      /\ currentVbW c' = currentVbW c)
  /\ (svgRendered c' = svgRendered c
      /\ lastSvgHeight c' = lastSvgHeight c
      /\ lastFinalX c' = lastFinalX c
      /\ lastFinalY c' = lastFinalY c
      /\ hasInitialPosition c' = hasInitialPosition c
      /\ lastLogBeat c' = lastLogBeat c
      /\ lastDebugUpdate c' = lastDebugUpdate c)
  /\ (forall api' tick next override,
        setTick api' tick next override c'
        = hide (setTick api' tick next override c)).
Proof.
  cbn. repeat split; try reflexivity.
  intros api' tick next override. apply setTick_hide.
Qed.

(** *** The frame computed by [setTick] *)

Lemma frozen_frame api next override c :
  currentBeat (frozen api next override c) = currentBeat c
  /\ beatDuration (frozen api next override c) = beatDuration c
  /\ beatStartToUse (frozen api next override c) = default (beatStart c) override
  /\ currentNoteX (frozen api next override c) = currentNoteX c
  /\ currentY (frozen api next override c) = currentY c
  /\ currentVbW (frozen api next override c) = currentVbW c.
Proof.
  unfold frozen, fillNext, with_beatStartToUse. proj_simpl.
  destruct next as [nb|], (nextBeatCenterX c) as [nx|],
    (currentBeat c) as [cur|]; try (repeat split; reflexivity).
  destruct (nextAnchor api (currentY c) cur nb); repeat split; reflexivity.
Qed.

Lemma progressOf_positive tick c :
  (0 < beatDuration c)%Z ->
  progressOf tick c
  = clamp01 (inject_Z (tick - beatStartToUse c) / inject_Z (beatDuration c)).
Proof. intros H. unfold progressOf. apply Z.ltb_lt in H. now rewrite H. Qed.

Lemma applyTransform_transform x y hgt snap c :
  suppressed x y c = false ->
  transform (element (applyTransform x y hgt snap c)) = Some (x, y).
Proof.
  intros Hs. unfold applyTransform. rewrite Hs.
  match goal with
  | |- context [if ?b then _ else _] => destruct b
  end; reflexivity.
Qed.

(** The transform written by a [setTick] that is not filtered out. *)
Lemma setTick_transform api tick next override c cur :
  currentBeat c = Some cur -> (0 < beatDuration c)%Z ->
  let f := frozen api next override c in
  let finalX := interpolatedX api tick f - cursorWidth / 2 in
  let finalY := currentY f - topOverhang in
  suppressed finalX finalY f = false ->
  transform (element (setTick api tick next override c)) = Some (finalX, finalY).
Proof.
  intros Hcur Hdur f finalX finalY Hs. unfold setTick. rewrite Hcur.
  apply Z.leb_gt in Hdur. rewrite Hdur. fold f. cbv zeta. fold finalX finalY.
  rewrite (proj2 (diagnostics_frame _ _ _ _)).
  now apply applyTransform_transform.
Qed.

(** The MODE A walk stays left of the frozen next anchor. *)
Lemma modeA_walk (anchor nx p : Q) :
  anchor < nx -> 0 <= p -> p <= 1 ->
  Qmin (anchor + (nx - anchor) * p) nx == anchor + p * (nx - anchor).
Proof.
  intros Hlt H0 H1. rewrite Q.min_l; [ring|]. nra.
Qed.

(** C5, as the code has it.  On every [setTick] with a current beat of
    positive duration, with [progress = clamp01((tick - frozenBeatStart) /
    beatDuration)]: the walk position is [anchor + progress * (target -
    anchor)], where the target is the frozen next anchor when one is set and
    lies right of the anchor (MODE A), and otherwise (MODE B) the right edge
    of the master bar when the bar has bounds, and the anchor plus the
    beat's own width when it has none.  The position of the frame is the
    walk position, except that a transport that is not playing with
    progress at 0.999 or more pins it to the anchor.  In MODE A neither
    position exceeds the next anchor, whatever the tick.  The frame is
    written to the element unless the sub-pixel filter drops the write. *)
Theorem setTick_walk_formula api tick next override c cur :
  currentBeat c = Some cur -> (0 < beatDuration c)%Z ->
  let f := frozen api next override c in
  let anchor := currentNoteX c in
  let frozenBeatStart := default (beatStart c) override in
  let progress :=
    clamp01 (inject_Z (tick - frozenBeatStart) / inject_Z (beatDuration c)) in
  let barTarget :=
    match findMasterBar api (masterBar cur) with
    | Some vb => vb_x vb + vb_w vb
    | None => anchor + currentVbW c
    end in
  let target :=
    match nextBeatCenterX f with
    | Some nx => if Qltb anchor nx then nx else barTarget
    | None => barTarget
    end in
  let pinned := negb (default false (isPlaying api)) && Qleb 0.999 progress in
  walkX api tick f == anchor + progress * (target - anchor)
  /\ interpolatedX api tick f
     == (if pinned then anchor else anchor + progress * (target - anchor))
  /\ (forall nx, nextBeatCenterX f = Some nx -> anchor < nx ->
        walkX api tick f <= nx /\ interpolatedX api tick f <= nx)
  /\ (suppressed (interpolatedX api tick f - cursorWidth / 2)
        (currentY c - topOverhang) f = false ->
       transform (element (setTick api tick next override c))
       = Some (interpolatedX api tick f - cursorWidth / 2, currentY c - topOverhang)).
Proof.
  intros Hcur Hdur f anchor frozenBeatStart progress barTarget target pinned.
  destruct (frozen_frame api next override c) as (Fcur & Fdur & Fstart & Fx & Fy & Fw).
  fold f in Fcur, Fdur, Fstart, Fx, Fy, Fw.
  assert (Hp : progressOf tick f = progress).
  { rewrite progressOf_positive by (now rewrite Fdur). now rewrite Fstart, Fdur. }
  assert (Hmb : currentBeat f ≫= masterBar = masterBar cur).
  { now rewrite Fcur, Hcur. }
  destruct (clamp01_range
              (inject_Z (tick - frozenBeatStart) / inject_Z (beatDuration c)))
    as [P0 P1]. fold progress in P0, P1.
  assert (Hbar : anchor + barlineWalk api f == barTarget).
  { unfold barlineWalk, barTarget. rewrite Hmb, Fx, Fw. fold anchor.
    destruct (findMasterBar api (masterBar cur)); ring. }
  assert (Hwalk : walkX api tick f == anchor + progress * (target - anchor)).
  { unfold walkX, walkDistance, target. rewrite Hp, Fx. fold anchor.
    destruct (nextBeatCenterX f) as [nx|].
    - destruct (Qltb anchor nx) eqn:A.
      + apply Qltb_lt in A. now apply modeA_walk.
      + rewrite <- Hbar. ring.
    - rewrite <- Hbar. ring. }
  assert (Hle : forall nx, nextBeatCenterX f = Some nx -> anchor < nx ->
                           walkX api tick f <= nx).
  { intros nx Hnx Hlt. unfold walkX. rewrite Hnx, Fx. fold anchor.
    apply Qltb_lt in Hlt. rewrite Hlt. apply Q.le_min_r. }
  split; [exact Hwalk|]. split; [|split].
  - unfold interpolatedX. rewrite Hp, Fx. fold anchor pinned.
    destruct pinned; [reflexivity|exact Hwalk].
  - intros nx Hnx Hlt. split; [now apply Hle|].
    unfold interpolatedX.
    destruct (negb (default false (isPlaying api))
              && Qleb 0.999 (progressOf tick f)).
    + rewrite Fx. fold anchor. lra.
    + now apply Hle.
  - intros Hs. rewrite <- Fy in Hs |- *.
    now apply (setTick_transform api tick next override c cur).
Qed.

Lemma setTick_walk_formula_witness :
  currentBeat Scenario.onBeat1 = Some Scenario.beat1
  /\ (0 < beatDuration Scenario.onBeat1)%Z
  /\ interpolatedX Scenario.playing 10080
       (frozen Scenario.playing None (Some 9600%Z) Scenario.onBeat1)
     == 110 + clamp01 (inject_Z (10080 - 9600) / inject_Z 960) * (210 - 110).
Proof.
  split; [reflexivity|]. split; [reflexivity|].
  refine (proj1 (proj2 (setTick_walk_formula Scenario.playing 10080 None
                          (Some 9600%Z) Scenario.onBeat1 Scenario.beat1 _ _)));
    reflexivity.
Defined.

(** C5 as stated: on every such [setTick] the cursor centre would be
    [anchor + progress * (target - anchor)] with the bar's right edge as the
    MODE B target.  On the last beat of bar 5 (anchor 210, right edge of the
    bar at 320): with a renderer that answers no master bar bounds the
    centre at half the beat is 220, the anchor plus half the beat's width,
    not 265; and with the transport paused at the end of the beat the
    centre is the anchor, 210, not the bar's right edge. *)
Lemma walk_target_not_bar_edge_counterexample :
  let claimed tick :=
    210 + clamp01 (inject_Z (tick - 10560) / inject_Z 960) * (320 - 210) in
  let f := frozen Scenario.pausedNoBars None (Some 10560%Z) Scenario.onBeat2 in
  let g := frozen Scenario.paused None (Some 10560%Z) Scenario.onBeat2 in
  (currentNoteX Scenario.onBeat2 == 210 /\ inModeA f = false /\ inModeA g = false
   /\ (0 < beatDuration Scenario.onBeat2)%Z
   /\ Scenario.masterBarBoundsOf (Some Scenario.bar5)
      = Some (mkVisualBounds 80 50 240 40))
  /\ (interpolatedX Scenario.pausedNoBars 11040 f == 220
      /\ claimed 11040%Z == 265
      /\ ~ interpolatedX Scenario.pausedNoBars 11040 f == claimed 11040%Z)
  /\ (interpolatedX Scenario.paused 11520 g == 210
      /\ claimed 11520%Z == 320
      /\ ~ interpolatedX Scenario.paused 11520 g == claimed 11520%Z).
Proof.
  cbv zeta. repeat split; try (vm_compute; reflexivity); vm_compute; discriminate.
Qed.

(** A [setTick] whose write is filtered out leaves the transform as it
    was, within half a pixel of the position it computed. *)
Lemma setTick_suppressed api tick next override c cur :
  currentBeat c = Some cur -> (0 < beatDuration c)%Z ->
  let f := frozen api next override c in
  let finalX := interpolatedX api tick f - cursorWidth / 2 in
  let finalY := currentY f - topOverhang in
  suppressed finalX finalY f = true ->
  transform (element (setTick api tick next override c)) = transform (element c)
  /\ Qabs (finalX - lastFinalX c) < 0.5.
Proof.
  intros Hcur Hdur f finalX finalY Hs. split.
  - unfold setTick. rewrite Hcur.
    apply Z.leb_gt in Hdur. rewrite Hdur. fold f. cbv zeta. fold finalX finalY.
    rewrite (proj2 (diagnostics_frame _ _ _ _)).
    unfold applyTransform. rewrite Hs.
    subst f. unfold frozen, fillNext. cbn.
    destruct next as [nb|], (nextBeatCenterX c) as [nx|],
      (currentBeat c) as [cb|]; try reflexivity.
    destruct (nextAnchor api (currentY c) cb nb); reflexivity.
  - unfold suppressed in Hs. apply andb_true_iff in Hs. destruct Hs as [Hs _].
    apply Qltb_lt in Hs.
    replace (lastFinalX c) with (lastFinalX f); [exact Hs|].
    subst f. unfold frozen, fillNext. cbn.
    destruct next as [nb|], (nextBeatCenterX c) as [nx|],
      (currentBeat c) as [cb|]; try reflexivity.
    destruct (nextAnchor api (currentY c) cb nb); reflexivity.
Qed.

(** C6.  When the transport is not playing and the progress of the beat is
    at least 0.999, the position of the frame is the anchor of the current
    beat, not the walk position; the transform written is the anchor less
    half the cursor width, and only a write within half a pixel of the last
    written position is dropped by the sub-pixel filter.  In MODE B at
    progress 1 the walk position is the right edge of the bar, and the frame
    rests on the anchor all the same. *)
Theorem setTick_pause_clamp api tick next override c cur :
  currentBeat c = Some cur -> (0 < beatDuration c)%Z ->
  default false (isPlaying api) = false ->
  let f := frozen api next override c in
  let anchor := currentNoteX c in
  let frozenBeatStart := default (beatStart c) override in
  0.999 <= clamp01 (inject_Z (tick - frozenBeatStart) / inject_Z (beatDuration c)) ->
  interpolatedX api tick f = anchor
  /\ (suppressed (anchor - cursorWidth / 2) (currentY c - topOverhang) f = false ->
      transform (element (setTick api tick next override c))
      = Some (anchor - cursorWidth / 2, currentY c - topOverhang))
  /\ (suppressed (anchor - cursorWidth / 2) (currentY c - topOverhang) f = true ->
      transform (element (setTick api tick next override c)) = transform (element c)
      /\ Qabs (anchor - cursorWidth / 2 - lastFinalX c) < 0.5)
  /\ (forall vb,
        inModeA f = false -> findMasterBar api (masterBar cur) = Some vb ->
        tick = (frozenBeatStart + beatDuration c)%Z ->
        walkX api tick f == vb_x vb + vb_w vb).
Proof.
  intros Hcur Hdur Hplay f anchor frozenBeatStart Hp.
  destruct (frozen_frame api next override c) as (Fcur & Fdur & Fstart & Fx & Fy & Fw).
  fold f in Fcur, Fdur, Fstart, Fx, Fy, Fw.
  assert (Hpos : (0 < beatDuration f)%Z) by now rewrite Fdur.
  assert (Hprog : progressOf tick f
                  = clamp01 (inject_Z (tick - frozenBeatStart)
                             / inject_Z (beatDuration c))).
  { rewrite (progressOf_positive tick f Hpos). now rewrite Fstart, Fdur. }
  assert (Hx : interpolatedX api tick f = anchor).
  { unfold interpolatedX. rewrite Hplay, Hprog.
    apply Qleb_le in Hp. rewrite Hp. exact Fx. }
  split; [exact Hx|]. split; [|split].
  - intros Hs.
    pose proof (setTick_transform api tick next override c cur Hcur Hdur) as Ht.
    cbv zeta in Ht. fold f in Ht. rewrite Hx, Fy in Ht. now apply Ht.
  - intros Hs.
    pose proof (setTick_suppressed api tick next override c cur Hcur Hdur) as Ht.
    cbv zeta in Ht. fold f in Ht. rewrite Hx, Fy in Ht. now apply Ht.
  - intros vb HA Hvb Htick.
    unfold walkX, walkDistance, barlineWalk. unfold inModeA in HA.
    rewrite Fcur, Hcur. cbn [mbind option_bind]. rewrite Hvb, Hprog, Htick.
    replace (frozenBeatStart + beatDuration c - frozenBeatStart)%Z
      with (beatDuration c) by lia.
    assert (H1 : inject_Z (beatDuration c) / inject_Z (beatDuration c) == 1).
    { apply Qmult_inv_r. intros E. unfold Qeq in E. cbn in E. lia. }
    assert (Hc : clamp01 (inject_Z (beatDuration c) / inject_Z (beatDuration c)) == 1).
    { rewrite clamp01_id; [exact H1 | rewrite H1; lra | rewrite H1; lra]. }
    destruct (nextBeatCenterX f) as [nx|]; [rewrite HA|]; rewrite Hc; ring.
Qed.

Lemma setTick_pause_clamp_witness :
  let c := setTick Scenario.playing 11040 None (Some 10560%Z) Scenario.onBeat2 in
  let c' := setTick Scenario.paused 11520 None (Some 10560%Z) c in
  transform (element c) = Some (495360 # 1920, 24)
  /\ transform (element c') = Some (210 - 14 / 2, 50 - 26)
  /\ walkX Scenario.paused 11520 (frozen Scenario.paused None (Some 10560%Z) c)
     == 80 + 240.
Proof.
  destruct (setTick_pause_clamp Scenario.paused 11520 None (Some 10560%Z)
              (setTick Scenario.playing 11040 None (Some 10560%Z) Scenario.onBeat2)
              Scenario.beat2) as (_ & Ht & _ & Hw);
    [reflexivity | reflexivity | reflexivity
    | apply Qle_bool_imp_le; vm_compute; reflexivity | ].
  split; [vm_compute; reflexivity|]. split.
  - apply Ht. vm_compute. reflexivity.
  - apply (Hw (mkVisualBounds 80 50 240 40)); reflexivity.
Defined.

(** The guard of MODE A at work.  On the last beat of a bar that repeats,
    the next beat handed to [setTick] is the first beat of the same bar: its
    anchor is frozen (the log line reads A), but it lies left of the current
    anchor, so the walk is the MODE B walk to the barline. *)
Example left_next_anchor_walks_to_barline :
  let f := frozen Scenario.playing (Some Scenario.beat1) (Some 10560%Z)
             Scenario.onBeat2 in
  nextBeatCenterX f = Some 110
  /\ inModeA f = false
  /\ walkX Scenario.playing 11040 f == 210 + (1 # 2) * (320 - 210).
Proof. cbv zeta. repeat split. Qed.

End CursorFacts.

(** ** TimelineExpander *)

Section ExpanderFacts.

Import TimelineExpander.
Local Open Scope Z_scope.

(** Distance of an occurrence's start to the reference tick. *)
Local Abbreviation dist refTick mb := (Z.abs (mbt_start mb - refTick)).

(** The invariant of the reduction: the result is never farther than the
    accumulator, is nearest among the scanned entries, and is either the
    accumulator or a scanned entry strictly closer than it and than every
    entry scanned before. *)
Lemma fold_closer refTick rest : forall acc,
  let r := fold_left (closer refTick) rest acc in
  dist refTick r <= dist refTick acc
  /\ (forall j o, rest !! j = Some o -> dist refTick r <= dist refTick o)
  /\ (r = acc
      \/ exists k, rest !! k = Some r
                   /\ dist refTick r < dist refTick acc
                   /\ forall j o, (j < k)%nat -> rest !! j = Some o ->
                                  dist refTick r < dist refTick o).
Proof.
  induction rest as [|x rest IH]; intros acc; cbn.
  - split; [lia|]. split; [intros j o Hj; destruct j; discriminate Hj|now left].
  - destruct (IH (closer refTick acc x)) as (Hle & Hall & Hfirst).
    unfold closer in *.
    destruct (dist refTick x <? dist refTick acc) eqn:E.
    + apply Z.ltb_lt in E. split; [lia|]. split.
      * intros [|j] o Hj; cbn in Hj; [injection Hj as <-; exact Hle|eauto].
      * right. destruct Hfirst as [->|(k & Hk & Hlt & Hbefore)].
        -- exists 0%nat. split; [reflexivity|]. split; [exact E|].
           intros j o Hj. lia.
        -- exists (S k). split; [exact Hk|]. split; [lia|].
           intros [|j] o Hj Ho; cbn in Ho.
           ++ injection Ho as <-. exact Hlt.
           ++ apply (Hbefore j o); [lia|exact Ho].
    + apply Z.ltb_ge in E. split; [exact Hle|]. split.
      * intros [|j] o Hj; cbn in Hj; [injection Hj as <-; lia|eauto].
      * destruct Hfirst as [->|(k & Hk & Hlt & Hbefore)]; [now left|].
        right. exists (S k). split; [exact Hk|]. split; [exact Hlt|].
        intros [|j] o Hj Ho; cbn in Ho.
        -- injection Ho as <-. lia.
        -- apply (Hbefore j o); [lia|exact Ho].
Qed.

(** The reduction over a non-empty array picks the first nearest entry. *)
Lemma reduce_closer refTick a rest :
  exists i best,
    (a :: rest) !! i = Some best
    /\ reduce (closer refTick) (a :: rest) = Some best
    /\ (forall j o, (a :: rest) !! j = Some o -> dist refTick best <= dist refTick o)
    /\ (forall j o, (j < i)%nat -> (a :: rest) !! j = Some o ->
                    dist refTick best < dist refTick o).
Proof.
  destruct (fold_closer refTick rest a) as (Hle & Hall & Hfirst).
  cbn in Hle, Hall, Hfirst. unfold reduce.
  set (r := fold_left (closer refTick) rest a) in *.
  destruct Hfirst as [Hr|(k & Hk & Hlt & Hbefore)].
  - exists 0%nat, r. split; [now rewrite Hr|]. split; [reflexivity|]. split.
    + intros [|j] o Ho; cbn in Ho; [injection Ho as <-; exact Hle|eauto].
    + intros j o Hj. lia.
  - exists (S k), r. split; [exact Hk|]. split; [reflexivity|]. split.
    + intros [|j] o Ho; cbn in Ho; [injection Ho as <-; exact Hle|eauto].
    + intros [|j] o Hj Ho; cbn in Ho.
      * injection Ho as <-. exact Hlt.
      * apply (Hbefore j o); [lia|exact Ho].
Qed.

(** An element of a filtered list sits in the list itself, after every
    earlier element of the list that passes the filter. *)
Lemma filter_lookup_origin {A : Type} (P : A -> Prop) `{!forall x, Decision (P x)} :
  forall (l : list A) i x,
    filter P l !! i = Some x ->
    exists k, l !! k = Some x /\ P x
              /\ forall j o, (j < k)%nat -> l !! j = Some o -> P o ->
                              exists j', (j' < i)%nat /\ filter P l !! j' = Some o.
Proof.
  induction l as [|a l IH]; intros i x Hx; [destruct i; discriminate Hx|].
  destruct (decide (P a)) as [Pa|Pa].
  - rewrite filter_cons_True in Hx |- * by exact Pa. destruct i as [|i]; cbn in Hx.
    + injection Hx as <-. exists 0%nat. split; [reflexivity|]. split; [exact Pa|].
      intros j o Hj. lia.
    + destruct (IH i x Hx) as (k & Hk & Px & Hbefore).
      exists (S k). split; [exact Hk|]. split; [exact Px|].
      intros [|j] o Hj Ho Po; cbn in Ho.
      * injection Ho as <-. exists 0%nat. split; [lia|reflexivity].
      * destruct (Hbefore j o ltac:(lia) Ho Po) as (j' & Hj' & Hf).
        exists (S j'). split; [lia|exact Hf].
  - rewrite filter_cons_False in Hx |- * by exact Pa.
    destruct (IH i x Hx) as (k & Hk & Px & Hbefore).
    exists (S k). split; [exact Hk|]. split; [exact Px|].
    intros [|j] o Hj Ho Po; cbn in Ho.
    + injection Ho as <-. contradiction.
    + apply (Hbefore j o); [lia|exact Ho|exact Po].
Qed.

(** C4.  [resolveExpandedBarStart] answers [null] exactly when
    [tickCache.masterBars] holds no entry of the requested bar index, be the
    table empty, absent or full of other bars.  Otherwise it answers the
    start of an entry of the table that carries the requested index and is
    nearest to the reference tick in absolute distance among the entries of
    that index, the first one in table order among equally near ones.  With
    occurrences of bar 5 at 9600, 19200 and 28800 (and bar 6 in between) and
    reference 20000 the answer is 19200; bar 7, which the table does not
    hold, is unresolved. *)
Theorem resolveExpandedBarStart_nearest tickCache visualBarIndex refTick :
  let table := default [] (tickCache ≫= tc_masterBars) in
  let occurrence mb := mbt_index mb = Some visualBarIndex in
  ((forall mb, mb ∈ table -> ~ occurrence mb) ->
   resolveExpandedBarStart tickCache visualBarIndex refTick = None)
  /\ ((exists mb, mb ∈ table /\ occurrence mb) ->
      exists i best,
        table !! i = Some best /\ occurrence best
        /\ resolveExpandedBarStart tickCache visualBarIndex refTick
           = Some (mbt_start best)
        /\ (forall o, o ∈ table -> occurrence o ->
                      dist refTick best <= dist refTick o)
        /\ (forall j o, (j < i)%nat -> table !! j = Some o -> occurrence o ->
                        dist refTick best < dist refTick o))
  /\ resolveExpandedBarStart (Some Scenario.cache) 5 20000 = Some 19200
  /\ resolveExpandedBarStart (Some Scenario.cache) 7 20000 = None.
Proof.
  intros table occurrence.
  assert (Hinst : instancesOf tickCache visualBarIndex = filter occurrence table).
  { unfold instancesOf, table. destruct (tickCache ≫= tc_masterBars); reflexivity. }
  unfold resolveExpandedBarStart. rewrite Hinst.
  split; [|split; [|split; reflexivity]].
  - intros Hnone. destruct (filter occurrence table) as [|a rest] eqn:F; [reflexivity|].
    assert (Ha : a ∈ filter occurrence table) by (rewrite F; left).
    apply list_elem_of_filter in Ha as [Pa Hin]. now destruct (Hnone a Hin).
  - intros (mb & Hin & Pmb).
    destruct (filter occurrence table) as [|a rest] eqn:F.
    { assert (Hmb : mb ∈ filter occurrence table)
        by (apply list_elem_of_filter; now split).
      rewrite F in Hmb. inversion Hmb. }
    destruct (reduce_closer refTick a rest) as (i & best & Hi & Hr & Hmin & Hfirst).
    rewrite <- F in Hi.
    destruct (filter_lookup_origin occurrence table i best Hi)
      as (k & Hk & Pbest & Hbefore).
    exists k, best. split; [exact Hk|]. split; [exact Pbest|].
    split; [now rewrite Hr|]. split.
    + intros o Ho Po.
      assert (Hf : o ∈ a :: rest)
        by (rewrite <- F; apply list_elem_of_filter; now split).
      apply list_elem_of_lookup_1 in Hf as [j Hj]. exact (Hmin j o Hj).
    + intros j o Hj Ho Po.
      destruct (Hbefore j o Hj Ho Po) as (j' & Hj' & Hf). rewrite F in Hf.
      exact (Hfirst j' o Hj' Hf).
Qed.

Lemma resolveExpandedBarStart_nearest_witness :
  let table := default [] (Some Scenario.cache ≫= tc_masterBars) in
  (forall mb, mb ∈ table -> ~ mbt_index mb = Some 7)
  /\ resolveExpandedBarStart (Some Scenario.cache) 7 24000 = None
  /\ (exists mb, mb ∈ table /\ mbt_index mb = Some 5)
  /\ exists i best,
       table !! i = Some best /\ mbt_index best = Some 5
       /\ resolveExpandedBarStart (Some Scenario.cache) 5 24000 = Some (mbt_start best)
       /\ (forall o, o ∈ table -> mbt_index o = Some 5 ->
                     dist 24000 best <= dist 24000 o)
       /\ (forall j o, (j < i)%nat -> table !! j = Some o -> mbt_index o = Some 5 ->
                       dist 24000 best < dist 24000 o).
Proof.
  cbv zeta.
  assert (H7 : forall mb,
             mb ∈ default [] (Some Scenario.cache ≫= tc_masterBars) ->
             ~ mbt_index mb = Some 7).
  { intros mb Hin. cbn in Hin. unfold Scenario.masterBars in Hin.
    repeat (apply elem_of_cons in Hin as [->|Hin]; [vm_compute; discriminate|]).
    inversion Hin. }
  assert (H5 : exists mb,
             mb ∈ default [] (Some Scenario.cache ≫= tc_masterBars)
             /\ mbt_index mb = Some 5).
  { exists (mkMasterBarTickLookup (Some Scenario.bar5) 9600).
    split; [left|reflexivity]. }
  split; [exact H7|]. split.
  - exact (proj1 (resolveExpandedBarStart_nearest (Some Scenario.cache) 7 24000) H7).
  - split; [exact H5|].
    exact (proj1 (proj2 (resolveExpandedBarStart_nearest (Some Scenario.cache) 5 24000))
             H5).
Defined.

(** The click-to-seek of the page picks its target the same way, with the
    beat's offset added to every candidate. *)
Lemma fold_closerTick currentTick offsetInBar rest : forall acc,
  fold_left (closerTick currentTick) ((λ mb, mbt_start mb + offsetInBar) <$> rest)
    (mbt_start acc + offsetInBar)
  = mbt_start (fold_left (closer (currentTick - offsetInBar)) rest acc) + offsetInBar.
Proof.
  induction rest as [|x rest IH]; intros acc; cbn; [reflexivity|].
  unfold closerTick at 2, closer at 2.
  replace (mbt_start x + offsetInBar - currentTick)
    with (mbt_start x - (currentTick - offsetInBar)) by lia.
  replace (mbt_start acc + offsetInBar - currentTick)
    with (mbt_start acc - (currentTick - offsetInBar)) by lia.
  destruct (_ <? _); apply IH.
Qed.

Lemma seekTarget_resolve tc beat visualBarIndex currentTick mbs :
  tc_masterBars tc = Some mbs ->
  masterBarIndex beat = Some visualBarIndex ->
  let offsetInBar := default 0 (playbackStart beat) in
  seekTarget (Some tc) beat currentTick
  = (λ start, start + offsetInBar)
      <$> resolveExpandedBarStart (Some tc) visualBarIndex (currentTick - offsetInBar).
Proof.
  intros Hmbs Hidx offsetInBar.
  unfold seekTarget, resolveExpandedBarStart, instancesOf. cbn.
  rewrite Hmbs, Hidx. fold offsetInBar.
  destruct (filter _ mbs) as [|a rest]; [reflexivity|].
  cbn. f_equal. apply fold_closerTick.
Qed.

End ExpanderFacts.

(** ** The page handler *)

Section PageFacts.

Import Page.
Local Open Scope Z_scope.

(** *** Scans: enough fuel *)

Lemma scanDown_fuel stop step lo : forall fuel fuel' t,
  0 < step ->
  (Z.to_nat (t - lo + 1) <= fuel)%nat -> (Z.to_nat (t - lo + 1) <= fuel')%nat ->
  scanDown stop step lo fuel t = scanDown stop step lo fuel' t.
Proof.
  induction fuel as [|n IH]; intros fuel' t Hstep Hf Hf'.
  - destruct fuel' as [|n']; [reflexivity|]. cbn.
    destruct (t <? lo) eqn:E; [reflexivity|]. apply Z.ltb_ge in E. lia.
  - destruct fuel' as [|n']; cbn.
    + destruct (t <? lo) eqn:E; [reflexivity|]. apply Z.ltb_ge in E. lia.
    + destruct (t <? lo) eqn:E; [reflexivity|]. apply Z.ltb_ge in E.
      destruct (stop t); [reflexivity|].
      rewrite (IH n' (t - step)); [reflexivity|lia|lia|lia].
Qed.

Lemma scanUp_fuel stop hi : forall fuel fuel' t,
  (Z.to_nat (hi - t + 1) <= fuel)%nat -> (Z.to_nat (hi - t + 1) <= fuel')%nat ->
  scanUp stop hi fuel t = scanUp stop hi fuel' t.
Proof.
  induction fuel as [|n IH]; intros fuel' t Hf Hf'.
  - destruct fuel' as [|n']; [reflexivity|]. cbn.
    destruct (hi <? t) eqn:E; [reflexivity|]. apply Z.ltb_ge in E. lia.
  - destruct fuel' as [|n']; cbn.
    + destruct (hi <? t) eqn:E; [reflexivity|]. apply Z.ltb_ge in E. lia.
    + destruct (hi <? t) eqn:E; [reflexivity|]. apply Z.ltb_ge in E.
      destruct (stop t); [reflexivity|].
      rewrite (IH n' (t + 1)); [reflexivity|lia|lia].
Qed.

(** The fuel the scans are given is enough: more changes nothing. *)
Lemma scanDown_scanFuel stop step lo t extra :
  0 < step ->
  scanDown stop step lo (scanFuel lo t + extra) t
  = scanDown stop step lo (scanFuel lo t) t.
Proof. intros Hstep. apply scanDown_fuel; unfold scanFuel; lia. Qed.

Lemma scanUp_scanFuel stop hi t extra :
  scanUp stop hi (scanFuel t hi + extra) t = scanUp stop hi (scanFuel t hi) t.
Proof. apply scanUp_fuel; unfold scanFuel; lia. Qed.

(** *** Probes *)

Lemma scanProbes_app ps qs : scanProbes (ps ++ qs) = scanProbes ps ++ scanProbes qs.
Proof. apply List.filter_app. Qed.

Lemma resolveBeat_no_scan api tc tick : scanProbes (resolveBeat api tc tick).2 = [].
Proof. unfold resolveBeat. destruct (resolveExpandedBeat api tc tick); reflexivity. Qed.

(** The backward scan always probes the tick before the current one. *)
Lemma backwardScan_probes tc curBeat tick :
  exists ps, (backwardScan tc curBeat tick).2 = BackwardProbe (tick - 1) :: ps.
Proof.
  unfold backwardScan, scanFuel.
  destruct (Z.to_nat (tick - 1 - (tick - 2000) + 1)) as [|n] eqn:F; [lia|].
  cbn [scanDown].
  destruct (tick - 1 <? tick - 2000) eqn:E; [apply Z.ltb_lt in E; lia|].
  destruct (negb _); cbn [fst snd fmap list_fmap]; eauto.
Qed.

(** The probes of one event, by the path the handler takes. *)
Lemma handler_probes api tick st cursor tc :
  cursorRef st = Some cursor ->
  enforcerWrap (loopEnabledRef st) (playbackRange (transport st)) tick = None ->
  tickCache api = Some tc ->
  let jumped := jumpedFrom (lastTickRef st) tick in
  let out := onPlayerPositionChanged api (Some tick) st in
  match (resolveBeat api tc tick).1 with
  | None => scanProbes out.2 = []
  | Some curBeat =>
      if negb (isSameBeat (Some curBeat)
                 (if jumped then None else stableCurBeatRef st)) || jumped
      then exists ps, scanProbes out.2 = BackwardProbe (tick - 1) :: ps
      else scanProbes out.2 = []
  end.
Proof.
  intros Hc Hw Htc jumped out. subst out. unfold onPlayerPositionChanged.
  rewrite Hc, Hw, Htc. cbv zeta. fold jumped.
  destruct (resolveBeat api tc tick).1 as [curBeat|] eqn:R.
  - destruct (negb _ || jumped).
    + cbn [snd]. rewrite !scanProbes_app, resolveBeat_no_scan.
      destruct (backwardScan_probes tc curBeat tick) as (ps & ->).
      cbn. eauto.
    + cbn [snd]. apply resolveBeat_no_scan.
  - cbn [snd]. apply resolveBeat_no_scan.
Qed.

(** C3.  On a position-change event the backward and forward scans probe
    the tick cache only when the handler has resolved a beat that is not the
    cached current beat under structural equality (same
    [absolutePlaybackStart], same master bar index) or when the event is a
    jump; on an event whose resolved beat matches the cached one, with no
    jump, neither scan makes a probe. *)
Theorem scans_gated_by_beat_entry api e st :
  let out := onPlayerPositionChanged api e st in
  (scanProbes out.2 <> [] ->
   exists tick tc curBeat,
     e = Some tick /\ tickCache api = Some tc
     /\ (resolveBeat api tc tick).1 = Some curBeat
     /\ (isSameBeat (Some curBeat) (stableCurBeatRef st) = false
         \/ jumpedFrom (lastTickRef st) tick = true))
  /\ (forall tick tc curBeat,
        e = Some tick -> tickCache api = Some tc ->
        (resolveBeat api tc tick).1 = Some curBeat ->
        isSameBeat (Some curBeat) (stableCurBeatRef st) = true ->
        jumpedFrom (lastTickRef st) tick = false ->
        scanProbes out.2 = []).
Proof.
  intros out. subst out. split.
  - intros Hne.
    destruct (cursorRef st) as [cursor|] eqn:Hc;
      [|unfold onPlayerPositionChanged in Hne; rewrite Hc in Hne; now elim Hne].
    destruct e as [tick|];
      [|unfold onPlayerPositionChanged in Hne; rewrite Hc in Hne; now elim Hne].
    destruct (enforcerWrap (loopEnabledRef st) (playbackRange (transport st)) tick)
      as [startTick|] eqn:Hw;
      [unfold onPlayerPositionChanged in Hne; rewrite Hc, Hw in Hne; now elim Hne|].
    destruct (tickCache api) as [tc|] eqn:Htc;
      [|unfold onPlayerPositionChanged in Hne; rewrite Hc, Hw, Htc in Hne;
        now elim Hne].
    pose proof (handler_probes api tick st cursor tc Hc Hw Htc) as H.
    cbv zeta in H.
    destruct (resolveBeat api tc tick).1 as [curBeat|] eqn:R; [|congruence].
    exists tick, tc, curBeat. repeat split; try assumption.
    destruct (jumpedFrom (lastTickRef st) tick); [now right|left].
    rewrite orb_false_r in H.
    destruct (isSameBeat (Some curBeat) (stableCurBeatRef st));
      [cbn in H; congruence|reflexivity].
  - intros tick tc curBeat -> Htc R Hsame Hjump.
    unfold onPlayerPositionChanged.
    destruct (cursorRef st) as [cursor|] eqn:Hc; [|reflexivity].
    destruct (enforcerWrap (loopEnabledRef st) (playbackRange (transport st)) tick)
      as [startTick|] eqn:Hw; [reflexivity|].
    rewrite Htc. cbv zeta. rewrite R, Hjump, Hsame. cbn [negb orb snd].
    apply resolveBeat_no_scan.
Qed.

Lemma scans_gated_by_beat_entry_witness :
  let first := onPlayerPositionChanged Scenario.pageApi (Some 9700) Scenario.fresh in
  let second := onPlayerPositionChanged Scenario.pageApi (Some 9710) first.1 in
  scanProbes first.2 <> []
  /\ (exists tick tc curBeat,
        Some 9700 = Some tick /\ tickCache Scenario.pageApi = Some tc
        /\ (resolveBeat Scenario.pageApi tc tick).1 = Some curBeat
        /\ (isSameBeat (Some curBeat) (stableCurBeatRef Scenario.fresh) = false
            \/ jumpedFrom (lastTickRef Scenario.fresh) tick = true))
  /\ scanProbes second.2 = [].
Proof.
  cbv zeta.
  assert (Hne : scanProbes
                  (onPlayerPositionChanged Scenario.pageApi (Some 9700) Scenario.fresh).2
                <> []) by (vm_compute; discriminate).
  split; [exact Hne|]. split.
  - exact (proj1 (scans_gated_by_beat_entry Scenario.pageApi (Some 9700) Scenario.fresh)
             Hne).
  - apply (proj2 (scans_gated_by_beat_entry Scenario.pageApi (Some 9710)
                    (onPlayerPositionChanged Scenario.pageApi (Some 9700)
                       Scenario.fresh).1)
             9710 Scenario.cache Scenario.beat1);
      vm_compute; reflexivity.
Defined.

(** *** The loop boundary enforcer *)

Lemma enforcerWrap_spec loopEnabled range tick startTick :
  enforcerWrap loopEnabled range tick = Some startTick
  <-> loopEnabled = true
      /\ exists endTick, range = Range startTick endTick
                         /\ endTick - SAFETY_MARGIN <= tick.
Proof.
  unfold enforcerWrap. split.
  - destruct loopEnabled; [|discriminate].
    destruct range as [| |s e]; try discriminate.
    destruct (e - SAFETY_MARGIN <=? tick) eqn:E; [|discriminate].
    intros [= ->]. apply Z.leb_le in E. eauto.
  - intros (-> & e & -> & Hle). apply Z.leb_le in Hle. now rewrite Hle.
Qed.

(** An event that is not intercepted leaves the transport alone. *)
Lemma handler_transport api e st :
  match e with
  | Some tick =>
      enforcerWrap (loopEnabledRef st) (playbackRange (transport st)) tick = None
  | None => True
  end ->
  transport (onPlayerPositionChanged api e st).1 = transport st.
Proof.
  intros Hw. unfold onPlayerPositionChanged.
  destruct (cursorRef st) as [cursor|]; [|reflexivity].
  destruct e as [tick|]; [|reflexivity]. rewrite Hw.
  destruct (tickCache api) as [tc|]; [|reflexivity]. cbv zeta.
  destruct (resolveBeat api tc tick).1; [|reflexivity].
  destruct (negb _ || _); reflexivity.
Qed.

Lemma scanDown_result stop step lo : forall fuel t t',
  0 < step -> (scanDown stop step lo fuel t).1 = Some t' ->
  lo <= t' <= t /\ stop t' = true.
Proof.
  induction fuel as [|n IH]; intros t t' Hstep H; cbn in H; [discriminate|].
  destruct (t <? lo) eqn:E; [discriminate|]. apply Z.ltb_ge in E.
  destruct (stop t) eqn:S.
  - cbn in H. injection H as <-. split; [lia|exact S].
  - cbn in H. destruct (IH _ _ Hstep H) as [Hr Hs]. split; [lia|exact Hs].
Qed.

(** [lastValid] is a tick of the range that resolves, or the start. *)
Lemma lastValid_range tc start endExclusive :
  lastValid tc start endExclusive = start
  \/ (start <= lastValid tc start endExclusive < endExclusive).
Proof.
  unfold lastValid.
  destruct (scanDown _ 1 start _ (endExclusive - 1)).1 as [t|] eqn:E; [|now left].
  right. apply scanDown_result in E; [cbn; lia|lia].
Qed.

(** C2, as the code has it.  With the loop enabled and a playback range
    set, the boundary enforcer of the position handler forces the transport
    back to the loop start exactly when the incoming tick is at least the
    range end less the 120-tick safety margin, and then snaps the cursor;
    any earlier tick leaves the transport alone.  For the loop
    [9600, 11520) tick 11399 does not wrap; ticks 11400, 11519 and 11520
    reset the transport to 9600.  The handler of [enableManualLoop] wraps
    before the start and from [lastValid] on, a tick below the end. *)
Theorem enforcer_wraps_from_margin api st cursor tick startTick endTick :
  cursorRef st = Some cursor -> loopEnabledRef st = true ->
  playbackRange (transport st) = Range startTick endTick ->
  let out := (onPlayerPositionChanged api (Some tick) st).1 in
  (endTick - SAFETY_MARGIN <= tick ->
   tickPosition (transport out) = Some startTick
   /\ cursorRef out = Some (MaestroCursor.requestSnap cursor))
  /\ (tick < endTick - SAFETY_MARGIN -> transport out = transport st)
  /\ (enforcerWrap true (Range 9600 11520) 11399 = None
      /\ enforcerWrap true (Range 9600 11520) 11400 = Some 9600
      /\ enforcerWrap true (Range 9600 11520) 11519 = Some 9600
      /\ enforcerWrap true (Range 9600 11520) 11520 = Some 9600)
  /\ (forall tc lastValidTick,
        lastValidTick = lastValid tc startTick endTick ->
        (manualLoopWrap startTick lastValidTick (Some tick) = Some startTick
         <-> tick < startTick \/ lastValidTick <= tick)
        /\ (manualLoopWrap startTick lastValidTick (Some tick) = None
            <-> startTick <= tick < lastValidTick)
        /\ (startTick < endTick -> lastValidTick < endTick)).
Proof.
  intros Hc Hloop Hrange out. subst out.
  split; [|split; [|split; [repeat split; reflexivity|]]].
  - intros Hle. unfold onPlayerPositionChanged. rewrite Hc, Hloop, Hrange.
    unfold enforcerWrap. apply Z.leb_le in Hle. rewrite Hle. split; reflexivity.
  - intros Hlt. apply handler_transport. rewrite Hloop, Hrange.
    unfold enforcerWrap. apply Z.leb_gt in Hlt. now rewrite Hlt.
  - intros tc lv Hlv. unfold manualLoopWrap. split; [|split].
    + destruct (tick <? startTick) eqn:E1.
      * apply Z.ltb_lt in E1. split; [lia|reflexivity].
      * apply Z.ltb_ge in E1. destruct (lv <=? tick) eqn:E2.
        -- apply Z.leb_le in E2. split; [lia|reflexivity].
        -- apply Z.leb_gt in E2. split; [discriminate|lia].
    + destruct (tick <? startTick) eqn:E1.
      * apply Z.ltb_lt in E1. split; [discriminate|lia].
      * apply Z.ltb_ge in E1. destruct (lv <=? tick) eqn:E2.
        -- apply Z.leb_le in E2. split; [discriminate|lia].
        -- apply Z.leb_gt in E2. split; [lia|reflexivity].
    + intros Hne. destruct (lastValid_range tc startTick endTick); lia.
Qed.

Lemma enforcer_wraps_from_margin_witness :
  let out := (onPlayerPositionChanged Scenario.pageApi (Some 11400) Scenario.looping).1 in
  tickPosition (transport out) = Some 9600
  /\ cursorRef out = Some (MaestroCursor.requestSnap MaestroCursor.create).
Proof.
  apply (proj1 (enforcer_wraps_from_margin Scenario.pageApi Scenario.looping
                  MaestroCursor.create 11400 9600 11520 eq_refl eq_refl eq_refl)).
  unfold SAFETY_MARGIN. lia.
Defined.

(** C2 as stated: in the loop [9600, 11520) tick 11519 would cause no
    wrap.  The enforcer intercepts it, the handler
    resets the transport from 11519 to 9600, and the handler of
    [enableManualLoop] over the same range wraps at 11519 as well. *)
Lemma no_wrap_at_11519_counterexample :
  ~ (enforcerWrap true (Range 9600 11520) 11519 = None)
  /\ tickPosition (transport Scenario.looping) = Some 11519
  /\ tickPosition
       (transport (onPlayerPositionChanged Scenario.pageApi (Some 11519)
                     Scenario.looping).1) = Some 9600
  /\ manualLoopWrap 9600 (lastValid (Some Scenario.cache) 9600 11520) (Some 11519)
     = Some 9600.
Proof.
  split; [discriminate|]. split; [reflexivity|]. split; vm_compute; reflexivity.
Qed.

End PageFacts.

(** ** The gesture of the beat overlay *)

Section GestureFacts.

Import BeatLoopOverlay.
Local Open Scope Z_scope.

Lemma onMove_invariant tc e o sb downTick :
  isDragging o = true -> startBeat o = Some sb -> downTickRef o = Some downTick ->
  let o' := onMove tc e o in
  (isDragging o' = true /\ startBeat o' = Some sb /\ downTickRef o' = Some downTick)
  /\ (loopRef o' = loopRef o /\ transport o' = transport o /\ commits o' = commits o)
  /\ (beatCrossedRef o' = true
      <-> beatCrossedRef o = true \/ resolvedOtherTick tc downTick e).
Proof.
  intros Hd Hs Ht. unfold onMove, resolvedOtherTick. rewrite Hd, Hs, Ht. cbn.
  destruct (resolved e) as [beat|]; cbn.
  - repeat split; try assumption.
    + destruct (bool_decide (tickOf tc beat = downTick)) eqn:E; [now left|].
      intros _. right. exists beat. split; [reflexivity|].
      now apply bool_decide_eq_false in E.
    + intros [H|(b & [= <-] & Hne)].
      * destruct (bool_decide _); [exact H|reflexivity].
      * apply (bool_decide_eq_false_2 _) in Hne. now rewrite Hne.
  - repeat split; try assumption; [now left|].
    intros [H|(b & Hb & _)]; [exact H|discriminate].
Qed.

Lemma moves_invariant tc moves : forall o sb downTick,
  isDragging o = true -> startBeat o = Some sb -> downTickRef o = Some downTick ->
  let o' := fold_left (λ o e, onMove tc e o) moves o in
  (isDragging o' = true /\ startBeat o' = Some sb /\ downTickRef o' = Some downTick)
  /\ (loopRef o' = loopRef o /\ transport o' = transport o /\ commits o' = commits o)
  /\ (beatCrossedRef o' = true
      <-> beatCrossedRef o = true \/ Exists (resolvedOtherTick tc downTick) moves).
Proof.
  induction moves as [|e moves IH]; intros o sb downTick Hd Hs Ht; cbn.
  - repeat split; try assumption; [now left|].
    intros [H|H]; [exact H|inversion H].
  - destruct (onMove_invariant tc e o sb downTick Hd Hs Ht)
      as ((Hd1 & Hs1 & Ht1) & (Hl1 & Htr1 & Hc1) & Hx1).
    destruct (IH (onMove tc e o) sb downTick Hd1 Hs1 Ht1)
      as (Hkeep & (Hl2 & Htr2 & Hc2) & Hx2).
    split; [exact Hkeep|]. split; [repeat split; congruence|].
    rewrite Hx2, Hx1, Exists_cons. tauto.
Qed.

Lemma commitBarSnap_spec tc beat o :
  match getExpandedBarRange tc (tickOf tc beat) (Some beat), barIdxOf beat with
  | Some (startTick, endTick), Some barIdx =>
      exists o', commitBarSnap tc beat o = Some o'
                 /\ commits o' = BarSnap startTick endTick barIdx :: commits o
                 /\ playbackRange (transport o') = Range startTick endTick
                 /\ isLooping (transport o') = true
  | _, _ => commitBarSnap tc beat o = None
  end.
Proof.
  unfold commitBarSnap.
  destruct (getExpandedBarRange tc (tickOf tc beat) (Some beat)) as [[s e]|];
    [|reflexivity].
  destruct (barIdxOf beat) as [i|]; [|reflexivity].
  eexists. repeat split.
Qed.

Lemma commitBeatLevel_spec tc sb eb o :
  exists startTick endTick,
    commits (commitBeatLevel tc sb eb o) = BeatLevel startTick endTick :: commits o
    /\ playbackRange (transport (commitBeatLevel tc sb eb o)) = Range startTick endTick.
Proof.
  unfold commitBeatLevel. destruct (loHi tc sb (default sb eb)) as [lo hi].
  eexists _, _. split; reflexivity.
Qed.

(** C8, as the code has it.  After a press that resolves a beat in loop
    mode, the release makes exactly one commit.  It is the bar-snap of the
    bar that owns the pressed beat if and only if no move of the gesture
    resolved a beat tick other than the tick resolved at press and the
    bar-snap helpers succeed (the tick has a bar range, the beat a bar
    index); otherwise the release commits the beat-level range.  The
    decision reads only the flag accumulated over the moves, never the
    position or the resolution of the release event. *)
Theorem release_bar_snap_iff tc down moves up o sb :
  loopRef o = true -> resolved down = Some sb ->
  let o' := gesture tc down moves up o in
  let downTick := tickOf tc sb in
  (exists c, commits o' = c :: commits o)
  /\ (committedBar o o'
      <-> ~ Exists (resolvedOtherTick tc downTick) moves
          /\ is_Some (getExpandedBarRange tc downTick (Some sb))
          /\ is_Some (barIdxOf sb))
  /\ (forall startTick endTick barIdx,
        commits o' = BarSnap startTick endTick barIdx :: commits o ->
        getExpandedBarRange tc downTick (Some sb) = Some (startTick, endTick)
        /\ barIdxOf sb = Some barIdx
        /\ playbackRange (transport o') = Range startTick endTick)
  /\ (forall up', commits (gesture tc down moves up' o) = commits o').
Proof.
  intros Hloop Hdown o' downTick. subst o'. unfold gesture.
  set (o0 := onDown tc down o).
  assert (H0 : isDragging o0 = true /\ startBeat o0 = Some sb
               /\ downTickRef o0 = Some downTick /\ beatCrossedRef o0 = false
               /\ commits o0 = commits o).
  { subst o0. unfold onDown. rewrite Hloop, Hdown. cbn. repeat split. }
  destruct H0 as (Hd0 & Hs0 & Ht0 & Hx0 & Hc0).
  destruct (moves_invariant tc moves o0 sb downTick Hd0 Hs0 Ht0)
    as ((Hd & Hs & Ht) & (_ & _ & Hc) & Hx).
  set (o1 := fold_left (λ o e, onMove tc e o) moves o0) in *.
  rewrite Hx0 in Hx. rewrite Hc0 in Hc.
  assert (Hup : forall e,
             onUp tc e o1
             = let o2 := mkOverlay (loopRef o1) false (startBeat o1) (endBeat o1)
                           (downXRef o1) (downYRef o1) (downTickRef o1)
                           (beatCrossedRef o1) (transport o1) (commits o1) in
               match (if beatCrossedRef o1 then None else commitBarSnap tc sb o2) with
               | Some o3 => o3
               | None => commitBeatLevel tc sb (endBeat o1) o2
               end).
  { intros e. unfold onUp. rewrite Hd. cbn. now rewrite Hs. }
  split; [|split; [|split]].
  - rewrite Hup. cbv zeta.
    destruct (beatCrossedRef o1).
    + destruct (commitBeatLevel_spec tc sb (endBeat o1)
                  (mkOverlay (loopRef o1) false (startBeat o1) (endBeat o1)
                     (downXRef o1) (downYRef o1) (downTickRef o1) true
                     (transport o1) (commits o1))) as (s & e & -> & _).
      cbn. rewrite Hc. eauto.
    + match goal with
      | |- context [commitBarSnap tc sb ?o2] =>
          pose proof (commitBarSnap_spec tc sb o2) as B;
          destruct (commitBeatLevel_spec tc sb (endBeat o1) o2) as (s & e & L & _)
      end.
      fold downTick in B.
      destruct (getExpandedBarRange tc downTick (Some sb)) as [[s' e']|];
        [destruct (barIdxOf sb) as [i|]|].
      * destruct B as (o3 & -> & -> & _). cbn. rewrite Hc. eauto.
      * rewrite B, L. cbn. rewrite Hc. eauto.
      * rewrite B, L. cbn. rewrite Hc. eauto.
  - unfold committedBar. rewrite Hup. cbv zeta.
    destruct (beatCrossedRef o1) eqn:Hx1.
    + destruct (commitBeatLevel_spec tc sb (endBeat o1)
                  (mkOverlay (loopRef o1) false (startBeat o1) (endBeat o1)
                     (downXRef o1) (downYRef o1) (downTickRef o1) true
                     (transport o1) (commits o1))) as (s & e & -> & _).
      split.
      * intros (s' & e' & i & H). discriminate H.
      * intros (Hno & _). exfalso. apply Hno.
        destruct (proj1 Hx eq_refl) as [H|H]; [discriminate|exact H].
    + assert (Hno : ~ Exists (resolvedOtherTick tc downTick) moves).
      { intros H. assert (false = true) by (apply Hx; now right). discriminate. }
      match goal with
      | |- context [commitBarSnap tc sb ?o2] =>
          pose proof (commitBarSnap_spec tc sb o2) as B;
          destruct (commitBeatLevel_spec tc sb (endBeat o1) o2) as (s & e & L & _)
      end.
      fold downTick in B.
      destruct (getExpandedBarRange tc downTick (Some sb)) as [[s' e']|];
        [destruct (barIdxOf sb) as [i|]|].
      * destruct B as (o3 & -> & B3 & _). split.
        -- intros _. repeat split; eauto.
        -- intros _. exists s', e', i. rewrite B3. cbn. now rewrite Hc.
      * rewrite B, L. split.
        -- intros (? & ? & ? & H). discriminate H.
        -- intros (_ & _ & [? H]). discriminate H.
      * rewrite B, L. split.
        -- intros (? & ? & ? & H). discriminate H.
        -- intros (_ & [? H] & _). discriminate H.
  - intros startTick endTick barIdx. rewrite Hup. cbv zeta.
    destruct (beatCrossedRef o1).
    + destruct (commitBeatLevel_spec tc sb (endBeat o1)
                  (mkOverlay (loopRef o1) false (startBeat o1) (endBeat o1)
                     (downXRef o1) (downYRef o1) (downTickRef o1) true
                     (transport o1) (commits o1))) as (s & e & -> & _).
      discriminate.
    + match goal with
      | |- context [commitBarSnap tc sb ?o2] =>
          pose proof (commitBarSnap_spec tc sb o2) as B;
          destruct (commitBeatLevel_spec tc sb (endBeat o1) o2) as (s & e & L & _)
      end.
      fold downTick in B.
      destruct (getExpandedBarRange tc downTick (Some sb)) as [[s' e']|];
        [destruct (barIdxOf sb) as [i|]|].
      * destruct B as (o3 & -> & B3 & B4 & _). rewrite B3.
        intros [= <- <- <-]. repeat split. exact B4.
      * rewrite B, L. discriminate.
      * rewrite B, L. discriminate.
  - intros up'. now rewrite !Hup.
Qed.

Lemma release_bar_snap_iff_witness :
  let press := Scenario.pointerAt 105 (Some Scenario.beat1) in
  let moves := [ Scenario.pointerAt 105.2 (Some Scenario.beat1);
                 Scenario.pointerAt 105.4 (Some Scenario.beat1);
                 Scenario.pointerAt 105.1 (Some Scenario.beat1) ] in
  let release := Scenario.pointerAt 200 (Some Scenario.beat2) in
  let o' := gesture (Some Scenario.cache) press moves release Scenario.idle in
  committedBar Scenario.idle o' /\ commits o' = [BarSnap 9600 11520 5].
Proof.
  cbv zeta. split; [|vm_compute; reflexivity].
  apply (proj2 (proj1 (proj2
           (release_bar_snap_iff (Some Scenario.cache)
              (Scenario.pointerAt 105 (Some Scenario.beat1))
              [ Scenario.pointerAt 105.2 (Some Scenario.beat1);
                Scenario.pointerAt 105.4 (Some Scenario.beat1);
                Scenario.pointerAt 105.1 (Some Scenario.beat1) ]
              (Scenario.pointerAt 200 (Some Scenario.beat2))
              Scenario.idle Scenario.beat1 eq_refl eq_refl)))).
  split; [|split; eexists; vm_compute; reflexivity].
  intros H.
  repeat match goal with
         | H : Exists _ (_ :: _) |- _ =>
             apply Exists_cons in H; destruct H as [(b & [= <-] & Hne)|H];
             [now apply Hne|]
         end.
  inversion H.
Defined.

(** C8 as stated fails when the bar-snap helpers fail: a press
    on a beat with no bar range and no bar index, no move at all, and the
    release commits the beat-level range of that beat, not a bar. *)
Lemma bar_snap_iff_no_crossing_counterexample :
  let press := Scenario.pointerAt 105 (Some Scenario.orphan) in
  let o' := gesture (Some Scenario.bareCache) press [] press Scenario.idle in
  commits o' = [BeatLevel 9600 10080]
  /\ ~ (committedBar Scenario.idle o'
        <-> ~ Exists (resolvedOtherTick (Some Scenario.bareCache) 9600) []).
Proof.
  cbv zeta. split; [vm_compute; reflexivity|].
  intros [_ H]. destruct H as (s & e & i & Hc).
  - intros X. inversion X.
  - vm_compute in Hc. discriminate Hc.
Qed.

End GestureFacts.

(** ** The end of the loop *)

Section LoopEndFacts.

Import LoopOverlay.
Local Open Scope Z_scope.

Lemma neverShortens_margin startTick endTick selectionEnd :
  Page.neverShortens (Range startTick endTick) selectionEnd
  <-> selectionEnd <= endTick - Page.SAFETY_MARGIN.
Proof.
  unfold Page.neverShortens. split.
  - intros H. apply (H (endTick - Page.SAFETY_MARGIN)).
    exists startTick. apply enforcerWrap_spec. split; [reflexivity|].
    exists endTick. split; [reflexivity|lia].
  - intros Hle tick [s Hs]. apply enforcerWrap_spec in Hs.
    destruct Hs as (_ & e & [= -> ->] & Ht). lia.
Qed.

(** C1, as the code has it.  The declarative tail of [applyLoopSelection]
    hands the engine the range from the selection start to [loopEnd + 1],
    one tick past the derived loop end, which is the selection end when no
    beat resolves in the selection; the beat overlay commits its range as
    it is.  The margin policy of the page intercepts exactly the ticks from
    the range end less 120 on: the loop plays to the delegated end less the
    safety margin, and a selection end is left whole only if it lies at
    least the margin before the delegated end. *)
Theorem loop_end_tail_and_margin :
  (forall tickCache loopEnabled sel tr,
      playbackRange tr <> RangeUndefined ->
      let tr' := applyLoopSelection tickCache loopEnabled sel tr in
      playbackRange tr' = Range (sel_startTick sel) (loopEnd tickCache sel + 1)
      /\ tickPosition tr' = Some (sel_startTick sel)
      /\ isLooping tr' = loopEnabled)
  /\ (forall tickCache sel,
        tickCache = None
        \/ (exists tc, tickCache = Some tc /\ lastBeatResult tc sel = None) ->
        loopEnd tickCache sel = sel_endTick sel)
  /\ (forall tickCache sb eb o,
        let '(lo, hi) := BeatLoopOverlay.loHi tickCache sb (default sb eb) in
        playbackRange (BeatLoopOverlay.transport
                         (BeatLoopOverlay.commitBeatLevel tickCache sb eb o))
        = Range (BeatLoopOverlay.tickOf tickCache lo)
            (BeatLoopOverlay.tickOf tickCache hi + durOf hi))
  /\ (forall startTick endTick tick,
        is_Some (Page.enforcerWrap true (Range startTick endTick) tick)
        <-> endTick - Page.SAFETY_MARGIN <= tick)
  /\ (forall startTick endTick selectionEnd,
        Page.neverShortens (Range startTick endTick) selectionEnd
        <-> selectionEnd <= endTick - Page.SAFETY_MARGIN).
Proof.
  split; [|split; [|split; [|split]]].
  - intros tickCache loopEnabled sel tr Hdef. unfold applyLoopSelection.
    destruct (playbackRange tr) eqn:E; [congruence| |]; repeat split.
  - intros tickCache sel [->|(tc & -> & Hnone)]; [reflexivity|].
    unfold loopEnd. now rewrite Hnone.
  - intros tickCache sb eb o. unfold BeatLoopOverlay.commitBeatLevel.
    destruct (BeatLoopOverlay.loHi tickCache sb (default sb eb)) as [lo hi].
    reflexivity.
  - intros startTick endTick tick. split.
    + intros [s Hs]. apply enforcerWrap_spec in Hs.
      destruct Hs as (_ & e & [= -> ->] & Ht). exact Ht.
    + intros Hle. exists startTick. apply enforcerWrap_spec. eauto.
  - apply neverShortens_margin.
Qed.

Lemma loop_end_tail_and_margin_witness :
  let tr' := applyLoopSelection (Some Scenario.cache) true
               (mkLoopSelection 9600 11520) Scenario.stopped in
  playbackRange Scenario.stopped <> RangeUndefined
  /\ playbackRange tr' = Range 9600 (11520 + 1)
  /\ tickPosition tr' = Some 9600
  /\ isLooping tr' = true.
Proof.
  cbv zeta. split; [discriminate|].
  assert (E : loopEnd (Some Scenario.cache) (mkLoopSelection 9600 11520) = 11520)
    by (vm_compute; reflexivity).
  rewrite <- E.
  apply (proj1 loop_end_tail_and_margin (Some Scenario.cache) true
           (mkLoopSelection 9600 11520) Scenario.stopped).
  discriminate.
Defined.

(** C1 as stated fails: the selection [9600, 11520) committed by a
    drag over the two beats of the bar is delegated as it is, and the page
    wraps at tick 11400, before the selection end; the same selection with
    the one-tick tail of [applyLoopSelection] is cut at 11401. *)
Lemma margin_shortens_loop_counterexample :
  let o := BeatLoopOverlay.gesture (Some Scenario.cache)
             (Scenario.pointerAt 105 (Some Scenario.beat1))
             [Scenario.pointerAt 205 (Some Scenario.beat2)]
             (Scenario.pointerAt 205 (Some Scenario.beat2)) Scenario.idle in
  let tr := applyLoopSelection (Some Scenario.cache) true
              (mkLoopSelection 9600 11520) Scenario.stopped in
  BeatLoopOverlay.commits o = [BeatLoopOverlay.BeatLevel 9600 11520]
  /\ ~ Page.neverShortens (playbackRange (BeatLoopOverlay.transport o)) 11520
  /\ Page.enforcerWrap true (playbackRange (BeatLoopOverlay.transport o)) 11400
     = Some 9600
  /\ ~ Page.neverShortens (playbackRange tr) 11520.
Proof.
  cbv zeta. split; [vm_compute; reflexivity|]. split; [|split].
  - intros H. specialize (H 11400).
    assert (X : 11520 <= 11400) by (apply H; eexists; vm_compute; reflexivity).
    lia.
  - vm_compute. reflexivity.
  - intros H. specialize (H 11401).
    assert (X : 11520 <= 11401) by (apply H; eexists; vm_compute; reflexivity).
    lia.
Qed.

End LoopEndFacts.

(** * Further properties *)

(** ** MaestroCursor: what a frame keeps, and repeated frames *)

Section CursorFrames.

Import MaestroCursor.
Local Open Scope Q_scope.

Ltac proj_red :=
  cbn [element currentBeat currentNoteX currentY currentHeight currentVbW
       nextBeatCenterX beatStart beatDuration beatStartToUse svgRendered
       lastSvgHeight lastFinalX lastFinalY hasInitialPosition lastLogBeat
       lastDebugUpdate visible opacity transitionNone transform height svg
       debugLabel] in *.

Lemma sameBeatState_refl c : sameBeatState c c.
Proof. repeat split. Qed.

Lemma sameBeatState_trans c1 c2 c3 :
  sameBeatState c1 c2 -> sameBeatState c2 c3 -> sameBeatState c1 c3.
Proof.
  unfold sameBeatState.
  intros ((A1 & A2 & A3) & (A4 & A5 & A6 & A7) & (A8 & A9 & A10))
         ((B1 & B2 & B3) & (B4 & B5 & B6 & B7) & (B8 & B9 & B10)).
  repeat split; congruence.
Qed.

Lemma frozen_sameBeatState api next override c :
  sameBeatState c (frozen api next override c).
Proof.
  unfold sameBeatState, frozen, fillNext, with_beatStartToUse. proj_red.
  destruct next as [nb|], (nextBeatCenterX c) as [nx|],
    (currentBeat c) as [cur|]; try (repeat split; reflexivity).
  destruct (nextAnchor api (currentY c) cur nb); repeat split; reflexivity.
Qed.

Lemma applyTransform_sameBeatState x y hgt snap c :
  sameBeatState c (applyTransform x y hgt snap c).
Proof.
  unfold applyTransform. destruct (suppressed x y c); [apply sameBeatState_refl|].
  match goal with
  | |- context [if ?b then _ else _] => destruct b
  end; repeat split.
Qed.

Lemma diagnostics_sameBeatState api finalX progress c :
  sameBeatState c (diagnostics api finalX progress c).
Proof.
  unfold diagnostics.
  destruct (bool_decide (beatStartToUse c = lastLogBeat c)); cbv zeta;
    match goal with
    | |- context [if ?b then _ else _] => destruct b
    end; repeat split.
Qed.

Lemma setTick_sameBeatState api tick next override c :
  sameBeatState c (setTick api tick next override c).
Proof.
  unfold setTick. destruct (currentBeat c) eqn:E; [|apply sameBeatState_refl].
  destruct (beatDuration c <=? 0)%Z; [apply sameBeatState_refl|]. cbv zeta.
  eapply sameBeatState_trans; [apply (frozen_sameBeatState api next override)|].
  eapply sameBeatState_trans; [|apply diagnostics_sameBeatState].
  apply applyTransform_sameBeatState.
Qed.

(** X1.  [setTick] moves the cursor and nothing else: no run of [setTick]
    calls, whatever their arguments, changes the current beat, its start and
    duration, the cached geometry, or the visibility of the element (a
    hidden cursor stays hidden, a shown one stays shown). *)
Theorem setTick_keeps_beat_state calls : forall c,
  sameBeatState c (setTicks calls c).
Proof.
  induction calls as [|k calls IH]; intros c; [apply sameBeatState_refl|].
  change (setTicks (k :: calls) c)
    with (setTicks calls (setTick (call_api k) (call_tick k) (call_next k)
                            (call_overrideBeatStart k) c)).
  eapply sameBeatState_trans; [apply setTick_sameBeatState|apply IH].
Qed.

(** *** The sub-pixel filter *)

Lemma Qabs_diag_small (x : Q) : Qltb (Qabs (x - x)) 0.5 = true.
Proof.
  apply Qltb_lt. assert (E : x - x == 0) by ring. rewrite E. reflexivity.
Qed.

Lemma suppressed_last x y c :
  lastFinalX c = x -> lastFinalY c = y -> suppressed x y c = true.
Proof.
  intros <- <-. unfold suppressed. now rewrite !Qabs_diag_small.
Qed.

Lemma applyTransform_lastFinal x y hgt snap c :
  suppressed x y c = false ->
  lastFinalX (applyTransform x y hgt snap c) = x
  /\ lastFinalY (applyTransform x y hgt snap c) = y.
Proof.
  intros Hs. unfold applyTransform. rewrite Hs.
  match goal with
  | |- context [if ?b then _ else _] => destruct b
  end; split; reflexivity.
Qed.

(** After [applyTransform x y], a write to [x y] is filtered out. *)
Lemma applyTransform_then_suppressed x y hgt snap c :
  suppressed x y (applyTransform x y hgt snap c) = true.
Proof.
  destruct (suppressed x y c) eqn:Hs.
  - unfold applyTransform. now rewrite Hs.
  - destruct (applyTransform_lastFinal x y hgt snap c Hs). now apply suppressed_last.
Qed.

(** X2.  Writing the same position twice is writing it once: the second
    [applyTransform] touches neither the element nor the cache. *)
Theorem applyTransform_idempotent x y hgt snap c :
  applyTransform x y hgt snap (applyTransform x y hgt snap c)
  = applyTransform x y hgt snap c.
Proof.
  unfold applyTransform at 1. now rewrite applyTransform_then_suppressed.
Qed.

(** *** A repeated frame *)

Lemma with_beatStartToUse_same c : with_beatStartToUse (beatStartToUse c) c = c.
Proof. destruct c; reflexivity. Qed.

Lemma Qltb_100_diag (x : Q) : Qltb 100 (x - x) = false.
Proof.
  apply Qltb_ge. assert (E : x - x == 0) by ring. rewrite E. discriminate.
Qed.

Lemma diagnostics_idempotent api finalX progress c :
  diagnostics api finalX progress (diagnostics api finalX progress c)
  = diagnostics api finalX progress c.
Proof.
  unfold diagnostics. cbv zeta.
  set (c1 := if bool_decide (beatStartToUse c = lastLogBeat c) then c
             else with_lastLogBeat (beatStartToUse c) c).
  assert (L1 : beatStartToUse c1 = lastLogBeat c1).
  { subst c1. destruct (bool_decide (beatStartToUse c = lastLogBeat c)) eqn:E;
      [now apply bool_decide_eq_true in E|reflexivity]. }
  set (c2 := if Qltb 100 (clock api - lastDebugUpdate c1)
             then updateDebugLabel finalX progress
                    (with_lastDebugUpdate (clock api) c1)
             else c1).
  assert (L2 : beatStartToUse c2 = lastLogBeat c2).
  { subst c2. destruct (Qltb 100 (clock api - lastDebugUpdate c1)); exact L1. }
  assert (L3 : Qltb 100 (clock api - lastDebugUpdate c2) = false).
  { subst c2. destruct (Qltb 100 (clock api - lastDebugUpdate c1)) eqn:E;
      [apply Qltb_100_diag|exact E]. }
  rewrite (bool_decide_eq_true_2 _ L2). now rewrite L3.
Qed.

Lemma diagnostics_fields api finalX progress c :
  beatStartToUse (diagnostics api finalX progress c) = beatStartToUse c
  /\ lastFinalX (diagnostics api finalX progress c) = lastFinalX c
  /\ lastFinalY (diagnostics api finalX progress c) = lastFinalY c.
Proof.
  unfold diagnostics.
  destruct (bool_decide (beatStartToUse c = lastLogBeat c)); cbv zeta;
    match goal with
    | |- context [if ?b then _ else _] => destruct b
    end; repeat split.
Qed.

Lemma applyTransform_beatStartToUse x y hgt snap c :
  beatStartToUse (applyTransform x y hgt snap c) = beatStartToUse c.
Proof.
  unfold applyTransform. destruct (suppressed x y c); [reflexivity|].
  match goal with
  | |- context [if ?b then _ else _] => destruct b
  end; reflexivity.
Qed.

(** The position of a frame reads the walk fields only. *)
Lemma interpolatedX_ext api tick c c' :
  nextBeatCenterX c' = nextBeatCenterX c -> beatStartToUse c' = beatStartToUse c ->
  sameBeatState c c' ->
  interpolatedX api tick c' = interpolatedX api tick c
  /\ progressOf tick c' = progressOf tick c.
Proof.
  intros Hn Hs ((Hb & _ & Hd) & (Hx & _ & _ & Hw) & _).
  unfold interpolatedX, walkX, walkDistance, barlineWalk, progressOf.
  now rewrite Hn, Hs, Hb, Hd, Hx, Hw.
Qed.

(** Once a frame has been computed, freezing again changes nothing. *)
Lemma frozen_again api next override c c' :
  sameBeatState (frozen api next override c) c' ->
  nextBeatCenterX c' = nextBeatCenterX (frozen api next override c) ->
  beatStartToUse c' = beatStartToUse (frozen api next override c) ->
  frozen api next override c' = c'.
Proof.
  intros S Hn Hs.
  destruct S as ((Hb & Hst & _) & (_ & Hy & _) & _).
  destruct (frozen_sameBeatState api next override c)
    as ((Hb0 & Hst0 & _) & (_ & Hy0 & _) & _).
  destruct (frozen_frame api next override c) as (_ & _ & Fstart & _).
  assert (Ecb : currentBeat c' = currentBeat c) by congruence.
  assert (Ey : currentY c' = currentY c) by congruence.
  assert (Est : default (beatStart c') override = beatStartToUse c').
  { rewrite Hs, Fstart. congruence. }
  clear Hb Hst Hy Hb0 Hst0 Hy0 Hs Fstart.
  unfold frozen at 1. rewrite Est, with_beatStartToUse_same.
  unfold fillNext. destruct next as [nb|]; [|reflexivity]. rewrite Ecb, Ey.
  destruct (nextBeatCenterX c') as [nx|] eqn:N; [reflexivity|].
  destruct (currentBeat c) as [cur|] eqn:B; [|reflexivity].
  (* the first fill found no anchor, with the same beat and row *)
  assert (X : nextAnchor api (currentY c) cur nb = None).
  { unfold frozen, fillNext, with_beatStartToUse in Hn. proj_red.
    try rewrite N in Hn. try rewrite B in Hn.
    destruct (nextBeatCenterX c) as [nx0|]; [discriminate Hn|].
    destruct (nextAnchor api (currentY c) cur nb); [discriminate Hn|reflexivity]. }
  now rewrite X.
Qed.

(** X3.  A position event that repeats (same tick, same arguments, same
    renderer and clock) is absorbed: the second [setTick] changes nothing,
    neither the element nor the cursor's caches. *)
Theorem setTick_idempotent api tick next override c :
  setTick api tick next override (setTick api tick next override c)
  = setTick api tick next override c.
Proof.
  pose proof (setTick_sameBeatState api tick next override c) as S.
  unfold setTick in S. unfold setTick at 2 3.
  destruct (currentBeat c) as [cur|] eqn:B.
  2:{ unfold setTick. now rewrite B. }
  destruct (beatDuration c <=? 0)%Z eqn:D.
  { unfold setTick. now rewrite B, D. }
  cbv zeta in S |- *.
  set (f := frozen api next override c) in *.
  set (X := interpolatedX api tick f - cursorWidth / 2) in *.
  set (Y := currentY f - topOverhang) in *.
  set (H := currentHeight f + topOverhang + bottomOverhang + bottomPointBaseShift) in *.
  set (a := applyTransform X Y H false f) in *.
  set (r := diagnostics api X (progressOf tick f) a) in *.
  destruct (diagnostics_fields api X (progressOf tick f) a) as (Rs & Rx & Ry).
  fold r in Rs, Rx, Ry.
  assert (Sf : sameBeatState f r).
  { eapply sameBeatState_trans; [apply applyTransform_sameBeatState|].
    apply diagnostics_sameBeatState. }
  assert (Rn : nextBeatCenterX r = nextBeatCenterX f).
  { subst r a. rewrite (proj1 (diagnostics_frame _ _ _ _)).
    apply applyTransform_nextBeatCenterX. }
  assert (Rs' : beatStartToUse r = beatStartToUse f).
  { rewrite Rs. apply applyTransform_beatStartToUse. }
  destruct S as ((Sb & _ & Sd) & _).
  unfold setTick. rewrite Sb, B, Sd, D. cbv zeta.
  rewrite (frozen_again api next override c r Sf Rn Rs').
  destruct (interpolatedX_ext api tick f r Rn Rs' Sf) as [-> ->].
  destruct Sf as (_ & (_ & -> & -> & _) & _).
  fold X Y H.
  assert (Hsup : suppressed X Y r = true).
  { unfold suppressed. rewrite Rx, Ry.
    apply (applyTransform_then_suppressed X Y H false f). }
  unfold applyTransform. rewrite Hsup.
  apply diagnostics_idempotent.
Qed.

End CursorFrames.

(** ** MaestroCursor: the walk within a beat *)

Section CursorWalk.

Import MaestroCursor.
Local Open Scope Q_scope.

Lemma clamp01_monotone (p q : Q) : p <= q -> clamp01 p <= clamp01 q.
Proof.
  intros H. unfold clamp01.
  apply Q.max_le_compat_l. now apply Q.min_le_compat_l.
Qed.

Lemma progressOf_range tick c : 0 <= progressOf tick c <= 1.
Proof.
  unfold progressOf. destruct (0 <? beatDuration c)%Z; [apply clamp01_range|].
  split; discriminate.
Qed.

Lemma progressOf_monotone t1 t2 c :
  (t1 <= t2)%Z -> progressOf t1 c <= progressOf t2 c.
Proof.
  intros Ht. unfold progressOf.
  destruct (0 <? beatDuration c)%Z eqn:D; [|apply Qle_refl].
  apply Z.ltb_lt in D. apply clamp01_monotone.
  unfold Qdiv. apply Qmult_le_compat_r.
  - rewrite <- Zle_Qle. lia.
  - apply Qinv_le_0_compat. change 0 with (inject_Z 0). rewrite <- Zle_Qle. lia.
Qed.

(** In MODE A the walk distance is positive by the guard itself. *)
Lemma walkDistance_modeA api c :
  inModeA c = true -> 0 < walkDistance api c.
Proof.
  unfold inModeA, walkDistance. destruct (nextBeatCenterX c) as [nx|]; [|discriminate].
  intros H. rewrite H. apply Qltb_lt in H. lra.
Qed.

Lemma walkDistance_modeB api c :
  inModeA c = false -> walkDistance api c = barlineWalk api c.
Proof.
  unfold inModeA, walkDistance. destruct (nextBeatCenterX c) as [nx|]; [|reflexivity].
  now intros ->.
Qed.

Lemma walkX_unguarded api tick c :
  0 <= walkDistance api c ->
  walkX api tick c == currentNoteX c + walkDistance api c * progressOf tick c.
Proof.
  intros Hd. unfold walkX. cbv zeta.
  destruct (nextBeatCenterX c) as [nx|] eqn:N; [|reflexivity].
  destruct (Qltb (currentNoteX c) nx) eqn:A; [|reflexivity].
  apply Q.min_l.
  assert (W : walkDistance api c = nx - currentNoteX c).
  { unfold walkDistance. now rewrite N, A. }
  rewrite W in *. destruct (progressOf_range tick c). nra.
Qed.

(** The walk position, before the pause clamp, over one cursor state. *)
Lemma walkX_monotone api t1 t2 c :
  inModeA c = true \/ 0 <= barlineWalk api c ->
  (t1 <= t2)%Z ->
  currentNoteX c <= walkX api t1 c /\ walkX api t1 c <= walkX api t2 c.
Proof.
  intros Hmode Ht.
  assert (Hd : 0 <= walkDistance api c).
  { destruct Hmode as [A|B].
    - apply Qlt_le_weak. now apply walkDistance_modeA.
    - destruct (inModeA c) eqn:A.
      + apply Qlt_le_weak. now apply walkDistance_modeA.
      + now rewrite walkDistance_modeB. }
  rewrite !(walkX_unguarded api _ c Hd).
  pose proof (progressOf_monotone t1 t2 c Ht).
  destruct (progressOf_range t1 c). split; nra.
Qed.

Lemma walkX_endpoints api tick c :
  (0 < beatDuration c)%Z ->
  ((tick <= beatStartToUse c)%Z -> walkX api tick c == currentNoteX c)
  /\ ((beatStartToUse c + beatDuration c <= tick)%Z ->
      (forall nx, nextBeatCenterX c = Some nx -> currentNoteX c < nx ->
                  walkX api tick c == nx)
      /\ (inModeA c = false -> walkX api tick c == currentNoteX c + barlineWalk api c)).
Proof.
  intros Hd.
  assert (Hinv : 0 < / inject_Z (beatDuration c)).
  { apply Qinv_lt_0_compat. change 0 with (inject_Z 0). rewrite <- Zlt_Qlt. lia. }
  assert (Hne : ~ inject_Z (beatDuration c) == 0).
  { intros E. unfold Qeq in E. cbn in E. lia. }
  split.
  - intros Ht.
    assert (P : progressOf tick c == 0).
    { rewrite (progressOf_positive tick c Hd). unfold clamp01.
      assert (L : inject_Z (tick - beatStartToUse c) / inject_Z (beatDuration c) <= 0).
      { unfold Qdiv.
        assert (X : inject_Z (tick - beatStartToUse c) <= 0).
        { change 0 with (inject_Z 0). rewrite <- Zle_Qle. lia. }
        nra. }
      rewrite (Q.min_r 1) by lra. now apply Q.max_l. }
    unfold walkX. cbv zeta.
    assert (E : currentNoteX c + walkDistance api c * progressOf tick c == currentNoteX c).
    { rewrite P. ring. }
    destruct (nextBeatCenterX c) as [nx|]; [|exact E].
    destruct (Qltb (currentNoteX c) nx) eqn:A; [|exact E].
    apply Qltb_lt in A. rewrite Q.min_l; [exact E|]. rewrite E. lra.
  - intros Ht.
    assert (P : progressOf tick c == 1).
    { rewrite (progressOf_positive tick c Hd). unfold clamp01.
      assert (L : 1 <= inject_Z (tick - beatStartToUse c) / inject_Z (beatDuration c)).
      { apply Qle_shift_div_l.
        - change 0 with (inject_Z 0). rewrite <- Zlt_Qlt. lia.
        - rewrite Qmult_1_l. rewrite <- Zle_Qle. lia. }
      rewrite (Q.min_l 1) by exact L. apply Q.max_r. discriminate. }
    split.
    + intros nx N A. unfold walkX, walkDistance. cbv zeta. rewrite N.
      apply Qltb_lt in A. rewrite A. apply Qltb_lt in A.
      rewrite Q.min_r; [reflexivity|]. rewrite P. lra.
    + intros A. unfold walkX. cbv zeta. rewrite (walkDistance_modeB api c A).
      unfold inModeA in A.
      assert (E : currentNoteX c + barlineWalk api c * progressOf tick c
                  == currentNoteX c + barlineWalk api c).
      { rewrite P. ring. }
      destruct (nextBeatCenterX c) as [nx|]; [rewrite A|]; exact E.
Qed.

Lemma sameBeatState_sym c c' : sameBeatState c c' -> sameBeatState c' c.
Proof.
  unfold sameBeatState.
  intros ((A1 & A2 & A3) & (A4 & A5 & A6 & A7) & (A8 & A9 & A10)).
  repeat split; congruence.
Qed.

(** The frame after a frame reads the same walk fields, unless the second
    call fills the next anchor. *)
Lemma next_frame_same_walk api t1 t next1 next2 override c :
  let f1 := frozen api next1 override c in
  let f2 := frozen api next2 override (setTick api t1 next1 override c) in
  nextBeatCenterX f2 = nextBeatCenterX f1 ->
  interpolatedX api t f2 = interpolatedX api t f1.
Proof.
  intros f1 f2 Hn.
  set (c1 := setTick api t1 next1 override c) in *.
  pose proof (setTick_sameBeatState api t1 next1 override c) as S1. fold c1 in S1.
  pose proof (frozen_sameBeatState api next1 override c) as Sf1. fold f1 in Sf1.
  pose proof (frozen_sameBeatState api next2 override c1) as Sf2. fold f2 in Sf2.
  destruct (frozen_frame api next1 override c) as (_ & _ & St1 & _).
  destruct (frozen_frame api next2 override c1) as (_ & _ & St2 & _).
  fold f1 in St1. fold f2 in St2.
  apply (interpolatedX_ext api t f1 f2).
  - exact Hn.
  - rewrite St1, St2. destruct S1 as ((_ & -> & _) & _). reflexivity.
  - eapply sameBeatState_trans; [apply sameBeatState_sym; exact Sf1|].
    eapply sameBeatState_trans; [exact S1|exact Sf2].
Qed.

(** X4.  From one frame to the next the cursor does not move backward.  For
    two consecutive [setTick] calls on a well-formed beat, the second at a
    later or equal tick with the same beat-start override and without
    filling the next anchor, the frame position of the first is at or right
    of the anchor and the frame position of the second is at or right of
    the first, provided the walk distance is not negative (always so in
    MODE A; in MODE B when the barline target is not left of the anchor) and
    the pause clamp does not apply (the transport is playing, or progress
    at the second tick is below 0.999). *)
Theorem frame_position_monotone api t1 t2 next1 next2 override c cur :
  currentBeat c = Some cur -> (0 < beatDuration c)%Z -> (t1 <= t2)%Z ->
  let f1 := frozen api next1 override c in
  let f2 := frozen api next2 override (setTick api t1 next1 override c) in
  nextBeatCenterX f2 = nextBeatCenterX f1 ->
  inModeA f1 = true \/ 0 <= barlineWalk api f1 ->
  default false (isPlaying api) = true \/ progressOf t2 f1 < 0.999 ->
  currentNoteX c <= interpolatedX api t1 f1
  /\ interpolatedX api t1 f1 <= interpolatedX api t2 f2.
Proof.
  intros Hcur Hdur Ht f1 f2 Hn Hmode Hclamp.
  pose proof (next_frame_same_walk api t1 t2 next1 next2 override c Hn) as E2.
  cbv zeta in E2. fold f1 f2 in E2. rewrite E2. clear E2.
  destruct (frozen_frame api next1 override c) as (_ & _ & _ & Fx & _).
  fold f1 in Fx. rewrite <- Fx.
  destruct (walkX_monotone api t1 t2 f1 Hmode Ht) as [W1 W2].
  pose proof (progressOf_monotone t1 t2 f1 Ht) as Pm.
  assert (E : forall t, progressOf t f1 <= progressOf t2 f1 ->
                        interpolatedX api t f1 = walkX api t f1).
  { intros t Hle. unfold interpolatedX. destruct Hclamp as [Hp|Hp].
    - now rewrite Hp.
    - assert (L : Qleb 0.999 (progressOf t f1) = false) by (apply Qleb_gt; lra).
      now rewrite L, andb_false_r. }
  rewrite (E t1 Pm), (E t2 (Qle_refl _)). now split.
Qed.

Lemma frame_position_monotone_witness :
  let f1 := frozen Scenario.paused (Some Scenario.beat2) (Some 9600%Z)
              Scenario.onBeat1 in
  let f2 := frozen Scenario.paused None (Some 9600%Z)
              (setTick Scenario.paused 9700 (Some Scenario.beat2) (Some 9600%Z)
                 Scenario.onBeat1) in
  currentNoteX Scenario.onBeat1 <= interpolatedX Scenario.paused 9700 f1
  /\ interpolatedX Scenario.paused 9700 f1 <= interpolatedX Scenario.paused 10300 f2.
Proof.
  apply (frame_position_monotone Scenario.paused 9700 10300 (Some Scenario.beat2) None
           (Some 9600%Z) Scenario.onBeat1 Scenario.beat1).
  - reflexivity.
  - reflexivity.
  - lia.
  - reflexivity.
  - left. reflexivity.
  - right. vm_compute. reflexivity.
Defined.

(** X5.  The frame position at the ends of a beat.  On a [setTick] with a
    well-formed beat, at or before the beat start in use the frame position
    is the anchor.  At or after the end of the beat it is the anchor when
    the transport is not playing (the pause clamp), and when it is playing
    it is the frozen next anchor in MODE A and the anchor plus the barline
    distance in MODE B. *)
Theorem frame_position_endpoints api tick next override c cur :
  currentBeat c = Some cur -> (0 < beatDuration c)%Z ->
  let f := frozen api next override c in
  let start := default (beatStart c) override in
  let playing := default false (isPlaying api) in
  ((tick <= start)%Z -> interpolatedX api tick f == currentNoteX c)
  /\ ((start + beatDuration c <= tick)%Z ->
      (playing = false -> interpolatedX api tick f == currentNoteX c)
      /\ (playing = true ->
          (forall nx, nextBeatCenterX f = Some nx -> currentNoteX c < nx ->
                      interpolatedX api tick f == nx)
          /\ (inModeA f = false ->
              interpolatedX api tick f == currentNoteX c + barlineWalk api f))).
Proof.
  intros Hcur Hdur f start playing.
  destruct (frozen_frame api next override c) as (_ & Fdur & Fstart & Fx & _).
  fold f in Fdur, Fstart, Fx. fold start in Fstart.
  assert (Hd : (0 < beatDuration f)%Z) by now rewrite Fdur.
  destruct (walkX_endpoints api tick f Hd) as [W0 W1].
  rewrite Fstart, Fdur, Fx in *.
  split.
  - intros Ht. unfold interpolatedX. rewrite Fx.
    destruct (_ && _); [reflexivity|now apply W0].
  - intros Ht. destruct (W1 Ht) as [WA WB]. split.
    + intros Hp. unfold interpolatedX. fold playing. rewrite Hp. cbn [negb andb].
      assert (P : Qleb 0.999 (progressOf tick f) = true).
      { apply Qleb_le.
        rewrite (progressOf_positive tick f) by (rewrite Fdur; exact Hdur).
        rewrite Fstart, Fdur. unfold clamp01.
        assert (L : 1 <= inject_Z (tick - start) / inject_Z (beatDuration c)).
        { apply Qle_shift_div_l.
          - change 0 with (inject_Z 0). rewrite <- Zlt_Qlt. lia.
          - rewrite Qmult_1_l. rewrite <- Zle_Qle. lia. }
        rewrite (Q.min_l 1) by exact L. rewrite Q.max_r by discriminate.
        discriminate. }
      rewrite P, Fx. reflexivity.
    + intros Hp.
      assert (E : interpolatedX api tick f = walkX api tick f).
      { unfold interpolatedX. fold playing. now rewrite Hp. }
      rewrite E. split; [exact WA|exact WB].
Qed.

Lemma frame_position_endpoints_witness :
  let f := frozen Scenario.playing None (Some 9600%Z) Scenario.onBeat1 in
  let g := frozen Scenario.paused None (Some 9600%Z) Scenario.onBeat1 in
  interpolatedX Scenario.playing 9000 f == 110
  /\ interpolatedX Scenario.playing 12000 f == 210
  /\ interpolatedX Scenario.paused 12000 g == 110.
Proof.
  cbv zeta.
  destruct (frame_position_endpoints Scenario.playing 9000 None (Some 9600%Z)
              Scenario.onBeat1 Scenario.beat1 eq_refl eq_refl) as [H0 _].
  destruct (frame_position_endpoints Scenario.playing 12000 None (Some 9600%Z)
              Scenario.onBeat1 Scenario.beat1 eq_refl eq_refl) as [_ H1].
  destruct (frame_position_endpoints Scenario.paused 12000 None (Some 9600%Z)
              Scenario.onBeat1 Scenario.beat1 eq_refl eq_refl) as [_ H2].
  split; [|split].
  - apply H0. vm_compute. discriminate.
  - apply (proj1 (proj2 (H1 ltac:(vm_compute; discriminate)) eq_refl) 210);
      reflexivity.
  - apply (proj1 (H2 ltac:(vm_compute; discriminate))). reflexivity.
Defined.

End CursorWalk.

(** ** MaestroCursor: beat entry and snap *)

Section CursorBeatEntry.

Import MaestroCursor.
Local Open Scope Q_scope.

Lemma nextAnchor_spec api curY cur next nx :
  nextAnchor api curY cur next = Some nx
  <-> exists nb nvb,
        findBeat api next = Some nb /\ visualBounds nb = Some nvb
        /\ nx = anchorX nb nvb
        /\ Qabs (vb_y nvb - curY) < 5
        /\ barIdxOf cur = barIdxOf next.
Proof.
  unfold nextAnchor. split.
  - destruct (findBeat api next) as [nb|]; [|discriminate].
    destruct (visualBounds nb) as [nvb|] eqn:V; [|discriminate].
    destruct (Qltb (Qabs (vb_y nvb - curY)) 5) eqn:R; [|discriminate].
    destruct (bool_decide (barIdxOf cur = barIdxOf next)) eqn:B; [|discriminate].
    intros [= <-]. exists nb, nvb. repeat split; try assumption.
    + now apply Qltb_lt.
    + now apply bool_decide_eq_true in B.
  - intros (nb & nvb & -> & -> & -> & R & B).
    apply Qltb_lt in R. rewrite R. now rewrite (bool_decide_eq_true_2 _ B).
Qed.

(** X6.  [setBeat] on a beat with bounds retimes the cursor to the beat
    (its absolute start, else its start in the bar, else 0; its duration),
    takes the geometry of the beat's bounds, shows the element, and writes
    it at the beat's anchor (7 px left of it, 26 px above the bounds) unless
    the sub-pixel filter drops the write.  It freezes the next anchor
    afresh: it is set exactly when the structural next beat has bounds on
    the same row (less than 5 px apart) and in the same bar, whatever was
    frozen before. *)
Theorem setBeat_freezes_next api b c bb vb :
  findBeat api b = Some bb -> visualBounds bb = Some vb ->
  let c' := setBeat api (Some b) c in
  let start := default (default 0%Z (playbackStart b)) (absolutePlaybackStart b) in
  let finalX := anchorX bb vb - cursorWidth / 2 in
  let finalY := vb_y vb - topOverhang in
  (currentBeat c' = Some b /\ beatStart c' = start /\ beatStartToUse c' = start
   /\ beatDuration c' = durOf b)
  /\ (currentNoteX c' = anchorX bb vb /\ currentY c' = vb_y vb
      /\ currentHeight c' = vb_h vb /\ currentVbW c' = vb_w vb)
  /\ (visible (element c') = true /\ opacity (element c') = 1%Z
      /\ hasInitialPosition c' = true)
  /\ (if suppressed finalX finalY c
      then transform (element c') = transform (element c)
      else transform (element c') = Some (finalX, finalY))
  /\ (forall nx,
        nextBeatCenterX c' = Some nx
        <-> exists structuralNext nb nvb,
              nextBeat b = Some structuralNext
              /\ findBeat api structuralNext = Some nb
              /\ visualBounds nb = Some nvb
              /\ nx = anchorX nb nvb
              /\ Qabs (vb_y nvb - vb_y vb) < 5
              /\ barIdxOf b = barIdxOf structuralNext).
Proof.
  intros Hbb Hvb c' start finalX finalY. subst c'. unfold setBeat.
  rewrite Hbb, Hvb. cbv zeta.
  set (g := with_nextBeatCenterX None
              (with_geometry (anchorX bb vb) (vb_y vb) (vb_h vb) (vb_w vb)
                 (with_beat b c))).
  set (n := match nextBeat b with
            | Some structuralNext =>
                match nextAnchor api (currentY g) b structuralNext with
                | Some nx => with_nextBeatCenterX (Some nx) g
                | None => g
                end
            | None => g
            end).
  assert (Hn : (currentBeat n = Some b /\ beatStart n = start
                /\ beatStartToUse n = start /\ beatDuration n = durOf b)
               /\ (currentNoteX n = anchorX bb vb /\ currentY n = vb_y vb
                   /\ currentHeight n = vb_h vb /\ currentVbW n = vb_w vb)
               /\ (element n = element c /\ lastFinalX n = lastFinalX c
                   /\ lastFinalY n = lastFinalY c)
               /\ nextBeatCenterX n
                  = match nextBeat b with
                    | Some structuralNext => nextAnchor api (vb_y vb) b structuralNext
                    | None => None
                    end).
  { subst n. destruct (nextBeat b) as [sn|]; [|repeat split].
    change (currentY g) with (vb_y vb).
    destruct (nextAnchor api (vb_y vb) b sn); repeat split. }
  destruct Hn as ((N1 & N2 & N3 & N4) & (G1 & G2 & G3 & G4) & (E1 & E2 & E3) & N5).
  rewrite G1. fold finalX finalY.
  match goal with
  | |- context [applyTransform finalX finalY ?h ?s n] =>
      set (a := applyTransform finalX finalY h s n);
      pose proof (applyTransform_nextBeatCenterX finalX finalY h s n) as A1;
      pose proof (applyTransform_sameBeatState finalX finalY h s n) as A2;
      assert (A3 : beatStartToUse a = beatStartToUse n
                   /\ (if suppressed finalX finalY n
                       then transform (element a) = transform (element n)
                       else transform (element a) = Some (finalX, finalY)))
  end.
  { subst a. unfold applyTransform. destruct (suppressed finalX finalY n).
    - split; reflexivity.
    - match goal with
      | |- context [if ?b then _ else _] => destruct b
      end; split; reflexivity. }
  fold a in A1, A2. destruct A3 as (A3 & A4).
  destruct A2 as ((B1 & B2 & B3) & (B4 & B5 & B6 & B7) & _).
  assert (Hs : suppressed finalX finalY n = suppressed finalX finalY c).
  { unfold suppressed. now rewrite E2, E3. }
  rewrite Hs, E1 in A4.
  split; [|split; [|split; [|split]]].
  - cbn. repeat split; congruence.
  - cbn. repeat split; congruence.
  - repeat split.
  - cbn. exact A4.
  - intros nx. cbn. rewrite A1, N5. destruct (nextBeat b) as [sn|].
    + rewrite nextAnchor_spec. split.
      * intros (nb & nvb & H). exists sn, nb, nvb. now split.
      * intros (sn' & nb & nvb & [= <-] & H). now exists nb, nvb.
    + split; [discriminate|]. intros (sn' & _ & _ & H & _). discriminate H.
Qed.

Lemma setBeat_freezes_next_witness :
  let c' := setBeat Scenario.playing (Some Scenario.beat1) Scenario.onBeat2 in
  (currentBeat c' = Some Scenario.beat1 /\ beatStart c' = 9600%Z
   /\ beatStartToUse c' = 9600%Z /\ beatDuration c' = 960%Z)
  /\ (currentNoteX c' = 110 /\ currentY c' = 50
      /\ currentHeight c' = 40 /\ currentVbW c' = 20)
  /\ (visible (element c') = true /\ opacity (element c') = 1%Z
      /\ hasInitialPosition c' = true)
  /\ transform (element c') = Some (110 - cursorWidth / 2, 50 - topOverhang)
  /\ nextBeatCenterX c' = Some 210.
Proof.
  pose proof (setBeat_freezes_next Scenario.playing Scenario.beat1 Scenario.onBeat2
                (mkBeatBounds (Some (mkVisualBounds 100 50 20 40)) (Some 110))
                (mkVisualBounds 100 50 20 40) eq_refl eq_refl) as H.
  cbv zeta in H. destruct H as (H1 & H2 & H3 & H4 & H5).
  split; [exact H1|]. split; [exact H2|]. split; [exact H3|]. split; [exact H4|].
  apply H5.
  exists Scenario.beat2,
         (mkBeatBounds (Some (mkVisualBounds 200 50 20 40)) (Some 210)),
         (mkVisualBounds 200 50 20 40).
  repeat split.
Defined.

Lemma setTicks_shown calls : forall c,
  visible (element (setTicks calls c)) = visible (element c)
  /\ opacity (element (setTicks calls c)) = opacity (element c)
  /\ currentBeat (setTicks calls c) = currentBeat c.
Proof.
  induction calls as [|k calls IH]; intros c; [repeat split|].
  change (setTicks (k :: calls) c)
    with (setTicks calls (setTick (call_api k) (call_tick k) (call_next k)
                            (call_overrideBeatStart k) c)).
  destruct (IH (setTick (call_api k) (call_tick k) (call_next k)
                  (call_overrideBeatStart k) c)) as (-> & -> & ->).
  destruct (setTick_sameBeatState (call_api k) (call_tick k) (call_next k)
              (call_overrideBeatStart k) c) as ((B & _) & _ & (V & O & _)).
  repeat split; assumption.
Qed.

(** X7.  [setBeat] on a beat the renderer has no bounds for retimes the
    cursor to the beat (its absolute start, else its start in the bar, else
    0; its duration) and hides the element (visibility hidden, opacity 0).
    It keeps the geometry (anchor, row, height, width), the frozen next
    anchor, the initial-position flag and the transform of the beat before;
    and no run of [setTick] calls shows the cursor again. *)
Theorem setBeat_without_bounds api b c :
  findBeat api b ≫= visualBounds = None ->
  let c' := setBeat api (Some b) c in
  let start := default (default 0%Z (playbackStart b)) (absolutePlaybackStart b) in
  (currentBeat c' = Some b /\ beatStart c' = start /\ beatStartToUse c' = start
   /\ beatDuration c' = durOf b)
  /\ (currentNoteX c' = currentNoteX c /\ currentY c' = currentY c
      /\ currentHeight c' = currentHeight c /\ currentVbW c' = currentVbW c
      /\ nextBeatCenterX c' = nextBeatCenterX c
      /\ hasInitialPosition c' = hasInitialPosition c)
  /\ (visible (element c') = false /\ opacity (element c') = 0%Z
      /\ transform (element c') = transform (element c)
      /\ height (element c') = height (element c))
  /\ (forall calls,
        visible (element (setTicks calls c')) = false
        /\ opacity (element (setTicks calls c')) = 0%Z).
Proof.
  intros Hb c' start.
  assert (E : c' = hide (with_beat b c)).
  { subst c'. unfold setBeat. destruct (findBeat api b) as [bb|]; [|reflexivity].
    cbn in Hb. now rewrite Hb. }
  rewrite E. split; [repeat split|]. split; [repeat split|]. split; [repeat split|].
  intros calls.
  destruct (setTicks_shown calls (hide (with_beat b c))) as (V & O & _).
  rewrite V, O. split; reflexivity.
Qed.

Lemma setBeat_without_bounds_witness :
  let c' := setBeat Scenario.playing (Some Examples.unrendered) Scenario.onBeat1 in
  (currentBeat c' = Some Examples.unrendered /\ beatStart c' = 30000%Z
   /\ beatStartToUse c' = 30000%Z /\ beatDuration c' = 480%Z)
  /\ (currentNoteX c' = currentNoteX Scenario.onBeat1
      /\ currentY c' = currentY Scenario.onBeat1
      /\ currentHeight c' = currentHeight Scenario.onBeat1
      /\ currentVbW c' = currentVbW Scenario.onBeat1
      /\ nextBeatCenterX c' = nextBeatCenterX Scenario.onBeat1
      /\ hasInitialPosition c' = hasInitialPosition Scenario.onBeat1)
  /\ (visible (element c') = false /\ opacity (element c') = 0%Z
      /\ transform (element c') = transform (element Scenario.onBeat1)
      /\ height (element c') = height (element Scenario.onBeat1))
  /\ (forall calls,
        visible (element (setTicks calls c')) = false
        /\ opacity (element (setTicks calls c')) = 0%Z).
Proof.
  apply (setBeat_without_bounds Scenario.playing Examples.unrendered Scenario.onBeat1).
  reflexivity.
Defined.

Lemma fillNext_from_none api next c cur :
  nextBeatCenterX c = None -> currentBeat c = Some cur ->
  nextBeatCenterX (fillNext api next c)
  = match next with
    | Some nb => nextAnchor api (currentY c) cur nb
    | None => None
    end.
Proof.
  intros N B. unfold fillNext. rewrite N, B.
  destruct next as [nb|]; [|exact N].
  destruct (nextAnchor api (currentY c) cur nb); [reflexivity|exact N].
Qed.

Lemma fillNext_lastFinal api next c :
  lastFinalX (fillNext api next c) = lastFinalX c
  /\ lastFinalY (fillNext api next c) = lastFinalY c.
Proof.
  unfold fillNext.
  destruct next as [nb|], (nextBeatCenterX c) as [nx|],
    (currentBeat c) as [cur|]; try (split; reflexivity).
  destruct (nextAnchor api (currentY c) cur nb); split; reflexivity.
Qed.

(** X8.  [requestSnap] forces the next frame.  The [setTick] that follows it
    freezes the next anchor again from its own next beat (same row, same
    bar), and writes the transform it computes even where the element
    already stands there, unless that position is within half a pixel of
    (-1, -1), the value the snap resets the write cache to. *)
Theorem requestSnap_forces_frame api tick next override c cur :
  currentBeat c = Some cur -> (0 < beatDuration c)%Z ->
  let r := requestSnap c in
  let c' := setTick api tick next override r in
  let finalX := interpolatedX api tick (frozen api next override r) - cursorWidth / 2 in
  let finalY := currentY c - topOverhang in
  nextBeatCenterX c'
  = match next with
    | Some nb => nextAnchor api (currentY c) cur nb
    | None => None
    end
  /\ (0.5 <= Qabs (finalX - -1) \/ 0.5 <= Qabs (finalY - -1) ->
      transform (element c') = Some (finalX, finalY)).
Proof.
  intros Hcur Hdur r c' finalX finalY.
  assert (Rcur : currentBeat r = Some cur) by exact Hcur.
  assert (Rdur : (0 < beatDuration r)%Z) by exact Hdur.
  set (w := with_beatStartToUse (default (beatStart r) override) r).
  assert (Wn : nextBeatCenterX w = None) by reflexivity.
  assert (Wb : currentBeat w = Some cur) by exact Hcur.
  assert (Wf : lastFinalX w = -1 /\ lastFinalY w = -1) by (split; reflexivity).
  split.
  - subst c'. unfold setTick. rewrite Rcur.
    apply Z.leb_gt in Rdur. rewrite Rdur. cbv zeta.
    rewrite (proj1 (diagnostics_frame _ _ _ _)), applyTransform_nextBeatCenterX.
    unfold frozen. fold w. apply (fillNext_from_none api next w cur Wn Wb).
  - intros Hfar.
    pose proof (setTick_transform api tick next override r cur Rcur Rdur) as T.
    cbv zeta in T.
    destruct (frozen_frame api next override r) as (_ & _ & _ & _ & Fy & _).
    rewrite Fy in T. apply T.
    unfold suppressed.
    destruct (fillNext_lastFinal api next w) as [Lx Ly].
    unfold frozen. fold w. rewrite Lx, Ly. destruct Wf as [-> ->].
    change (currentY r) with (currentY c).
    change (fillNext api next w) with (frozen api next override r).
    fold finalX finalY.
    apply andb_false_iff. destruct Hfar as [H|H]; [left|right]; now apply Qltb_ge.
Qed.

Lemma requestSnap_forces_frame_witness :
  let c := setTick Scenario.playing 9700 None (Some 9600%Z) Scenario.onBeat1 in
  let c' := setTick Scenario.playing 9700 (Some Scenario.beat2) (Some 9600%Z)
              (requestSnap c) in
  nextBeatCenterX (requestSnap c) = None
  /\ nextBeatCenterX c' = Some 210
  /\ transform (element c') = Some (217760 # 1920, 24).
Proof.
  cbv zeta.
  destruct (requestSnap_forces_frame Scenario.playing 9700 (Some Scenario.beat2)
              (Some 9600%Z)
              (setTick Scenario.playing 9700 None (Some 9600%Z) Scenario.onBeat1)
              Scenario.beat1 eq_refl eq_refl) as [Hn Ht].
  split; [reflexivity|]. split; [rewrite Hn; reflexivity|].
  rewrite Ht; [vm_compute; reflexivity|].
  left. apply Qle_bool_imp_le. vm_compute. reflexivity.
Defined.

End CursorBeatEntry.

(** ** CustomLoopOverlay: ticks under the mouse *)

Section OverlayTickFacts.

Import LoopOverlay LoopOverlayDrag.
Local Open Scope Z_scope.

(** X9.  [clampToBar], and with it the tick [resolveBeatModeTick] answers, lands
    inside the bar that was hit whenever the bar is not inverted; a tick
    already inside is left alone. *)
Theorem resolveBeatModeTick_in_bar api x y barHit passRefTick :
  hit_startTick barHit <= hit_endTick barHit ->
  (hit_startTick barHit <= resolveBeatModeTick api x y barHit passRefTick
                        <= hit_endTick barHit)
  /\ (forall tick, hit_startTick barHit <= clampToBar tick barHit <= hit_endTick barHit)
  /\ (forall tick, hit_startTick barHit <= tick <= hit_endTick barHit ->
                   clampToBar tick barHit = tick)
  /\ (forall tick, clampToBar (clampToBar tick barHit) barHit = clampToBar tick barHit).
Proof.
  intros Hwf. unfold resolveBeatModeTick, clampToBar. repeat split; intros; lia.
Qed.

Lemma resolveBeatModeTick_in_bar_witness :
  9600 <= resolveBeatModeTick Examples.overlayApi 105 60 Examples.barHit1 9600 <= 11520.
Proof.
  apply (proj1 (resolveBeatModeTick_in_bar Examples.overlayApi 105 60
                  Examples.barHit1 9600 ltac:(vm_compute; discriminate))).
Defined.

(** X10.  The liquid tick inside a beat box stays within the beat, both ends
    included, and follows the mouse: it does not decrease when the mouse
    moves right.  Without bounds, or with a duration or a width that is not
    positive, there is no such tick. *)
Theorem computeInsideBeatTick_range api rBeat expandedBeatStart :
  (forall mouseX t,
      computeInsideBeatTick api rBeat expandedBeatStart mouseX = Some t ->
      expandedBeatStart <= t <= expandedBeatStart + durOf rBeat)
  /\ (forall x1 x2 t1 t2,
        (x1 <= x2)%Q ->
        computeInsideBeatTick api rBeat expandedBeatStart x1 = Some t1 ->
        computeInsideBeatTick api rBeat expandedBeatStart x2 = Some t2 ->
        t1 <= t2)
  /\ (forall mouseX,
        computeInsideBeatTick api rBeat expandedBeatStart mouseX = None
        <-> ov_findBeat api rBeat ≫= visualBounds = None
            \/ durOf rBeat <= 0
            \/ exists vb, ov_findBeat api rBeat ≫= visualBounds = Some vb
                          /\ (vb_w vb <= 0)%Q).
Proof.
  unfold computeInsideBeatTick.
  destruct (ov_findBeat api rBeat ≫= visualBounds) as [vb|].
  2:{ split; [discriminate|]. split; [discriminate|]. intros _. split; auto. }
  destruct (durOf rBeat <=? 0) eqn:D; cbn [orb].
  { apply Z.leb_le in D. split; [discriminate|]. split; [discriminate|].
    intros _. split; auto. }
  apply Z.leb_gt in D.
  destruct (Qleb (vb_w vb) 0) eqn:W.
  { apply Qleb_le in W. split; [discriminate|]. split; [discriminate|].
    intros _. split; eauto. }
  apply Qleb_gt in W. cbv zeta.
  assert (Hd : (0 <= inject_Z (durOf rBeat))%Q).
  { change 0%Q with (inject_Z 0). rewrite <- Zle_Qle. lia. }
  split; [|split].
  - intros mouseX t E.
    destruct (clamp01_range ((mouseX - vb_x vb) / vb_w vb)) as [P0 P1].
    set (p := clamp01 ((mouseX - vb_x vb) / vb_w vb)) in *.
    assert (Et : t = expandedBeatStart + Qfloor (p * inject_Z (durOf rBeat)))
      by congruence.
    clear E.
    assert (L : 0 <= Qfloor (p * inject_Z (durOf rBeat))).
    { change 0 with (Qfloor (inject_Z 0)). apply Qfloor_resp_le.
      change (inject_Z 0) with 0%Q. now apply Qmult_le_0_compat. }
    assert (U : Qfloor (p * inject_Z (durOf rBeat)) <= durOf rBeat).
    { rewrite <- (Qfloor_Z (durOf rBeat)) at 2. apply Qfloor_resp_le.
      rewrite <- (Qmult_1_l (inject_Z (durOf rBeat))) at 2.
      now apply Qmult_le_compat_r. }
    lia.
  - intros x1 x2 t1 t2 Hx E1 E2.
    assert (Et1 : t1 = expandedBeatStart
                       + Qfloor (clamp01 ((x1 - vb_x vb) / vb_w vb)
                                 * inject_Z (durOf rBeat))) by congruence.
    assert (Et2 : t2 = expandedBeatStart
                       + Qfloor (clamp01 ((x2 - vb_x vb) / vb_w vb)
                                 * inject_Z (durOf rBeat))) by congruence.
    rewrite Et1, Et2.
    apply Zplus_le_compat_l, Qfloor_resp_le.
    apply Qmult_le_compat_r; [|exact Hd].
    unfold clamp01. apply Q.max_le_compat_l, Q.min_le_compat_l.
    unfold Qdiv. apply Qmult_le_compat_r.
    + lra.
    + apply Qlt_le_weak, Qinv_lt_0_compat, W.
  - intros mouseX. split; [discriminate|].
    intros [H|[H|(vb' & [= <-] & H)]]; [discriminate H|lia|].
    exfalso. exact (Qle_not_lt _ _ H W).
Qed.

Lemma computeInsideBeatTick_range_witness :
  computeInsideBeatTick Examples.overlayApi Scenario.beat1 9600 110 = Some 10080
  /\ computeInsideBeatTick Examples.overlayApi Scenario.beat1 9600 500 = Some 10560
  /\ computeInsideBeatTick Examples.overlayApi Examples.unrendered 30000 110 = None
  /\ (9600 <= 10080 <= 9600 + durOf Scenario.beat1)
  /\ 10080 <= 10560.
Proof.
  destruct (computeInsideBeatTick_range Examples.overlayApi Scenario.beat1 9600)
    as (R & M & _).
  destruct (computeInsideBeatTick_range Examples.overlayApi Examples.unrendered 30000)
    as (_ & _ & N).
  split; [reflexivity|]. split; [reflexivity|]. split; [|split].
  - apply N. left. reflexivity.
  - apply (R 110%Q). reflexivity.
  - apply (M 110%Q 500%Q); [vm_compute; discriminate|reflexivity|reflexivity].
Defined.

End OverlayTickFacts.

(** ** CustomLoopOverlay: the drag *)

Section OverlayDragFacts.

Import LoopOverlay LoopOverlayDrag.
Local Open Scope Z_scope.

Lemma handleMouseMove_keeps api e o :
  sameAnchor o (handleMouseMove api e o)
  /\ ((forall x y, orderedHit (ov_findBarAtPos api x y)) ->
      orderedHit (currentBar (dragRef o)) ->
      orderedHit (currentBar (dragRef (handleMouseMove api e o)))).
Proof.
  unfold handleMouseMove, sameAnchor. cbv zeta.
  destruct (isDragging (dragRef o)) eqn:D;
    [|split; [rewrite ?D; repeat split|auto]].
  destruct (startBar (dragRef o)) as [sb|] eqn:S;
    [|split; [rewrite ?D, ?S; repeat split|auto]].
  destruct (withinClick e (dragRef o));
    [split; [rewrite ?D, ?S; repeat split|auto]|].
  destruct (ov_findBarAtPos api (posX e) (posY e)) as [barHit|] eqn:F;
    [|split; [rewrite ?D, ?S; repeat split|auto]].
  match goal with
  | |- context [if ?b then _ else _] => destruct b
  end.
  - split; [cbn; rewrite ?D, ?S; repeat split|].
    intros Hwf _. cbn. rewrite <- F. apply Hwf.
  - match goal with
    | |- context [let '(_, _) := ?p in _] => destruct p as [s t]
    end.
    split; [cbn; rewrite ?D, ?S; repeat split|].
    intros Hwf _. cbn. rewrite <- F. apply Hwf.
Qed.

Lemma moves_keep api moves : forall o,
  sameAnchor o (fold_left (λ o e, handleMouseMove api e o) moves o)
  /\ ((forall x y, orderedHit (ov_findBarAtPos api x y)) ->
      orderedHit (currentBar (dragRef o)) ->
      orderedHit (currentBar
                    (dragRef (fold_left (λ o e, handleMouseMove api e o) moves o)))).
Proof.
  induction moves as [|e moves IH]; intros o; cbn.
  - split; [repeat split|auto].
  - destruct (handleMouseMove_keeps api e o)
      as (((A1 & A2 & A3 & A4 & A5) & (A6 & A7 & A8 & A9)) & Hc).
    destruct (IH (handleMouseMove api e o))
      as (((B1 & B2 & B3 & B4 & B5) & (B6 & B7 & B8 & B9)) & Hc').
    split; [repeat split; congruence|auto].
Qed.

Lemma dragTicks_ordered mode drag sb cb cur s t :
  orderedHit (Some sb) -> dragTicks mode drag sb cb cur = (s, t) -> s <= t.
Proof.
  intros Hsb. specialize (Hsb sb eq_refl). unfold dragTicks.
  destruct mode; [intros [= <- <-]; lia|].
  destruct (startTick drag) as [a|]; [|intros [= <- <-]; lia].
  destruct cur as [c|]; intros [= <- <-]; lia.
Qed.

Lemma handleMouseUp_commit api loopEnabled e o :
  (forall x y, orderedHit (ov_findBarAtPos api x y)) ->
  orderedHit (startBar (dragRef o)) ->
  let o' := handleMouseUp api loopEnabled e o in
  (changes o' = changes o /\ loopSelectionRef o' = loopSelectionRef o
   /\ transport o' = transport o)
  \/ exists s t, s <= t /\ committed api loopEnabled s t o o'.
Proof.
  intros Hwf Hsb. unfold handleMouseUp. cbv zeta.
  destruct (isDragging (dragRef o)); cbn [negb]; [|left; repeat split].
  destruct (withinClick e (dragRef o)).
  - destruct (ov_findBarAtPos api (posX e) (posY e)) as [h|] eqn:F;
      [|left; repeat split].
    right. exists (hit_startTick h), (hit_endTick h).
    split; [apply (Hwf (posX e) (posY e) h F)|repeat split].
  - destruct (startBar (dragRef o)) as [sb|] eqn:S; [|left; repeat split].
    destruct (currentBar (dragRef o)) as [cb|]; [|left; repeat split].
    cbn [snapModeRef set_drag].
    destruct (dragTicks (snapModeRef o) (dragRef o) sb cb (currentTick (dragRef o)))
      as [s t] eqn:T.
    pose proof (dragTicks_ordered _ _ _ _ _ _ _ Hsb T) as Hst.
    destruct (bool_decide (s = t)).
    + destruct (ov_findBarAtPos api (posX e) (posY e)) as [h|] eqn:F;
        [|left; repeat split].
      right. exists (hit_startTick h), (hit_endTick h).
      split; [apply (Hwf (posX e) (posY e) h F)|repeat split].
    + right. exists s, t. split; [exact Hst|repeat split].
Qed.

(** X11.  The selection invariant of the overlay.  If every bar the hit-test
    answers has its start at or before its end, then a gesture (press,
    moves, release) begun with no drag in progress commits nothing or one
    selection, and the selection it commits has [startTick <= endTick]:
    clicks and zero-length drags commit a bar, other drags the span of
    their two ends in order.  The commit applies the selection with the
    loop flag the release handler captured when it was memoised, whatever
    the flag is at the time of the press. *)
Theorem gesture_commits_ordered api loopEnabled capturedLoopEnabled down moves up o :
  (forall x y h, ov_findBarAtPos api x y = Some h ->
                 hit_startTick h <= hit_endTick h) ->
  isDragging (dragRef o) = false ->
  let o' := gesture api loopEnabled capturedLoopEnabled down moves up o in
  (changes o' = changes o /\ loopSelectionRef o' = loopSelectionRef o
   /\ transport o' = transport o)
  \/ exists s t, s <= t /\ committed api capturedLoopEnabled s t o o'.
Proof.
  intros Hwf Hidle o'. subst o'. unfold gesture.
  assert (Hwf' : forall x y, orderedHit (ov_findBarAtPos api x y)).
  { intros x y h. apply Hwf. }
  set (o0 := handleMouseDown api loopEnabled down o).
  assert (H0 : (changes o0 = changes o /\ loopSelectionRef o0 = loopSelectionRef o
                /\ transport o0 = transport o)
               /\ (isDragging (dragRef o0) = false
                   \/ orderedHit (startBar (dragRef o0)))).
  { subst o0. unfold handleMouseDown.
    destruct (negb (bool_decide (button down = 0)) || negb loopEnabled);
      [split; [repeat split|now left]|].
    cbv zeta. split; [repeat split|right]. cbn. apply Hwf'. }
  destruct H0 as ((C0 & L0 & T0) & Hstart).
  destruct (moves_keep api moves o0)
    as (((D1 & _ & _ & S1 & _) & (_ & L1 & T1 & C1)) & _).
  set (o1 := fold_left (λ o e, handleMouseMove api e o) moves o0) in *.
  destruct Hstart as [Hnot|Hord].
  - left. unfold handleMouseUp. rewrite D1, Hnot. cbn [negb].
    repeat split; congruence.
  - assert (Hord1 : orderedHit (startBar (dragRef o1))) by (now rewrite S1).
    destruct (handleMouseUp_commit api capturedLoopEnabled up o1 Hwf' Hord1)
      as [(A & B & C)|(s & t & Hst & A & B & C)].
    + left. repeat split; congruence.
    + right. exists s, t. split; [exact Hst|]. unfold committed.
      rewrite A, B, C, C1, C0, T1, T0. repeat split.
Qed.

Lemma gesture_commits_ordered_witness :
  let o' := gesture Examples.overlayApi true false
              (mkMouseEvent 105 60 0 105 60)
              [mkMouseEvent 150 60 0 150 60; mkMouseEvent 205 60 0 205 60]
              (mkMouseEvent 205 60 0 205 60) Examples.overlayIdle in
  changes o' = [(9840, 10800)]
  /\ isLooping (transport o') = false
  /\ ((changes o' = changes Examples.overlayIdle
       /\ loopSelectionRef o' = loopSelectionRef Examples.overlayIdle
       /\ transport o' = transport Examples.overlayIdle)
      \/ exists s t, s <= t /\ committed Examples.overlayApi false s t
                                  Examples.overlayIdle o').
Proof.
  cbv zeta. split; [vm_compute; reflexivity|]. split; [reflexivity|].
  apply (gesture_commits_ordered Examples.overlayApi true false).
  - intros x y h [= <-]. vm_compute. discriminate.
  - reflexivity.
Defined.

(** X12.  With the loop enabled at the press, a release within five pixels
    of the press, on both axes, is a click: whatever the moves in between
    and whatever the snap mode, it commits the bar under the release point,
    from its start tick to its end tick, moves the player to the bar's
    start, and sets the player's loop flag to the flag the release handler
    captured when it was memoised, which need not be the current one. *)
Theorem click_commits_bar_at_release api capturedLoopEnabled down moves up o h :
  button down = 0 ->
  (Qabs (clientX up - clientX down) < 5)%Q ->
  (Qabs (clientY up - clientY down) < 5)%Q ->
  ov_findBarAtPos api (posX up) (posY up) = Some h ->
  let o' := gesture api true capturedLoopEnabled down moves up o in
  committed api capturedLoopEnabled (hit_startTick h) (hit_endTick h) o o'
  /\ (isLooping (transport o') = capturedLoopEnabled
      /\ tickPosition (transport o') = Some (hit_startTick h))
  /\ isDragging (dragRef o') = false
  /\ previewSelection o' = None.
Proof.
  intros Hb Hx Hy Hh o'. subst o'. unfold gesture.
  set (o0 := handleMouseDown api true down o).
  assert (H0 : (isDragging (dragRef o0) = true /\ startX (dragRef o0) = clientX down
                /\ startY (dragRef o0) = clientY down)
               /\ changes o0 = changes o /\ transport o0 = transport o).
  { subst o0. unfold handleMouseDown.
    rewrite (bool_decide_eq_true_2 _ Hb). cbn. repeat split. }
  destruct H0 as ((D0 & X0 & Y0) & C0 & T0).
  destruct (moves_keep api moves o0)
    as (((D1 & X1 & Y1 & _ & _) & (_ & _ & T1 & C1)) & _).
  set (o1 := fold_left (λ o e, handleMouseMove api e o) moves o0) in *.
  unfold handleMouseUp. cbv zeta. rewrite D1, D0. cbn [negb].
  assert (W : withinClick up (dragRef o1) = true).
  { unfold withinClick, CLICK_THRESHOLD_PX. rewrite X1, Y1, X0, Y0.
    apply andb_true_iff. split; now apply Qltb_lt. }
  rewrite W, Hh. unfold committed. cbn. rewrite C1, C0, T1, T0. repeat split.
Qed.

Lemma click_commits_bar_at_release_witness :
  let o' := gesture Examples.overlayApi true false
              (mkMouseEvent 105 60 0 105 60)
              [mkMouseEvent 150 60 0 150 60; mkMouseEvent 107 61 0 107 61]
              (mkMouseEvent 107 61 0 107 61) Examples.overlayIdle in
  committed Examples.overlayApi false 9600 11520 Examples.overlayIdle o'
  /\ (isLooping (transport o') = false
      /\ tickPosition (transport o') = Some 9600)
  /\ isDragging (dragRef o') = false
  /\ previewSelection o' = None.
Proof.
  apply (click_commits_bar_at_release Examples.overlayApi false
           (mkMouseEvent 105 60 0 105 60)
           [mkMouseEvent 150 60 0 150 60; mkMouseEvent 107 61 0 107 61]
           (mkMouseEvent 107 61 0 107 61) Examples.overlayIdle Examples.barHit1);
    reflexivity.
Defined.

End OverlayDragFacts.

(** ** The page: the scans at beat entry *)

Section ScanFacts.

Import Page.
Local Open Scope Z_scope.

(** A downward scan in steps of one, with enough fuel, breaks at the
    greatest tick of its interval that satisfies the test. *)
Lemma scanDown_unit stop lo : forall fuel t,
  (Z.to_nat (t - lo + 1) <= fuel)%nat ->
  match (scanDown stop 1 lo fuel t).1 with
  | Some t' => lo <= t' <= t /\ stop t' = true
               /\ forall u, t' < u <= t -> stop u = false
  | None => forall u, lo <= u <= t -> stop u = false
  end.
Proof.
  induction fuel as [|n IH]; intros t Hf; cbn.
  - intros u Hu. lia.
  - destruct (t <? lo) eqn:E.
    + apply Z.ltb_lt in E. cbn. intros u Hu. lia.
    + apply Z.ltb_ge in E. destruct (stop t) eqn:S; cbn.
      * split; [lia|]. split; [exact S|]. intros u Hu. lia.
      * specialize (IH (t - 1) ltac:(lia)).
        destruct (scanDown stop 1 lo n (t - 1)).1 as [t'|].
        -- destruct IH as (Hr & Hs & Hall). split; [lia|]. split; [exact Hs|].
           intros u Hu. destruct (Z.eq_dec u t) as [->|]; [exact S|].
           apply Hall. lia.
        -- intros u Hu. destruct (Z.eq_dec u t) as [->|]; [exact S|].
           apply IH. lia.
Qed.

(** An upward scan with enough fuel breaks at the least such tick. *)
Lemma scanUp_unit stop hi : forall fuel t,
  (Z.to_nat (hi - t + 1) <= fuel)%nat ->
  match (scanUp stop hi fuel t).1 with
  | Some t' => t <= t' <= hi /\ stop t' = true
               /\ forall u, t <= u < t' -> stop u = false
  | None => forall u, t <= u <= hi -> stop u = false
  end.
Proof.
  induction fuel as [|n IH]; intros t Hf; cbn.
  - intros u Hu. lia.
  - destruct (hi <? t) eqn:E.
    + apply Z.ltb_lt in E. cbn. intros u Hu. lia.
    + apply Z.ltb_ge in E. destruct (stop t) eqn:S; cbn.
      * split; [lia|]. split; [exact S|]. intros u Hu. lia.
      * specialize (IH (t + 1) ltac:(lia)).
        destruct (scanUp stop hi n (t + 1)).1 as [t'|].
        -- destruct IH as (Hr & Hs & Hall). split; [lia|]. split; [exact Hs|].
           intros u Hu. destruct (Z.eq_dec u t) as [->|]; [exact S|].
           apply Hall. lia.
        -- intros u Hu. destruct (Z.eq_dec u t) as [->|]; [exact S|].
           apply IH. lia.
Qed.

(** X13.  The backward scan of the beat entry guard.  The start it reports lies
    within the 1999 ticks before the event's tick or is that tick; every
    tick from the reported start up to the event's tick resolves to the
    current beat; and either the tick just before the reported start does
    not, or all 2000 ticks before the event's tick resolve to the current
    beat, in which case the reported start is the event's tick itself. *)
Theorem backwardScan_start tc curBeat tick :
  let s := (backwardScan tc curBeat tick).1 in
  tick - 2000 < s <= tick
  /\ (forall u, s <= u < tick ->
        isSameBeat (tc_findBeat tc u) (Some curBeat) = true)
  /\ (isSameBeat (tc_findBeat tc (s - 1)) (Some curBeat) = false
      \/ (s = tick
          /\ forall u, tick - 2000 <= u < tick ->
               isSameBeat (tc_findBeat tc u) (Some curBeat) = true)).
Proof.
  unfold backwardScan. cbv zeta. cbn [fst].
  pose proof (scanDown_unit
                (λ t, negb (isSameBeat (tc_findBeat tc t) (Some curBeat)))
                (tick - 2000) (scanFuel (tick - 2000) (tick - 1)) (tick - 1)
                ltac:(unfold scanFuel; lia)) as H.
  destruct (scanDown _ 1 (tick - 2000) _ (tick - 1)).1 as [t|].
  - destruct H as (Hr & Hs & Hall). split; [lia|]. split.
    + intros u Hu. specialize (Hall u ltac:(lia)).
      now apply negb_false_iff in Hall.
    + left. replace (t + 1 - 1) with t by lia. now apply negb_true_iff in Hs.
  - split; [lia|]. split; [intros u Hu; lia|]. right. split; [reflexivity|].
    intros u Hu. specialize (H u ltac:(lia)). now apply negb_false_iff in H.
Qed.

(** X14.  The forward scan of the beat entry guard.  The next beat it reports is
    what the first tick after the start, within 4000 ticks, resolves to
    among the ticks that resolve to a beat other than the current one;
    it reports none exactly when no such tick exists in that window. *)
Theorem forwardScan_next tc curBeat expandedBeatStart :
  let other t := exists b, tc_findBeat tc t = Some b
                           /\ isSameBeat (Some b) (Some curBeat) = false in
  match (forwardScan tc curBeat expandedBeatStart).1 with
  | Some next =>
      exists t, expandedBeatStart < t <= expandedBeatStart + 4000
                /\ tc_findBeat tc t = Some next
                /\ isSameBeat (Some next) (Some curBeat) = false
                /\ forall u, expandedBeatStart < u < t -> ~ other u
  | None => forall u, expandedBeatStart < u <= expandedBeatStart + 4000 -> ~ other u
  end.
Proof.
  intros other. unfold forwardScan. cbv zeta. cbn [fst].
  set (stop := λ t, bool_decide (is_Some (tc_findBeat tc t))
                    && negb (isSameBeat (tc_findBeat tc t) (Some curBeat))).
  assert (Hstop : forall u, stop u = false -> ~ other u).
  { intros u Hu (b & Hb & Hd). unfold stop in Hu. rewrite Hb, Hd in Hu.
    rewrite bool_decide_eq_true_2 in Hu by eauto. discriminate. }
  pose proof (scanUp_unit stop (expandedBeatStart + 4000)
                (scanFuel (expandedBeatStart + 1) (expandedBeatStart + 4000))
                (expandedBeatStart + 1) ltac:(unfold scanFuel; lia)) as H.
  destruct (scanUp stop _ _ (expandedBeatStart + 1)).1 as [t|]; cbn.
  - destruct H as (Hr & Hs & Hall). unfold stop in Hs.
    apply andb_true_iff in Hs as [Hsome Hdiff].
    apply bool_decide_eq_true in Hsome as [b Hb]. rewrite Hb in Hdiff.
    change (Some t ≫= tc_findBeat tc) with (tc_findBeat tc t). rewrite Hb.
    exists t. split; [lia|]. split; [exact Hb|].
    split; [now apply negb_true_iff in Hdiff|].
    intros u Hu. apply Hstop, Hall. lia.
  - intros u Hu. apply Hstop, H. lia.
Qed.

(** X15.  The manual loop lets a tick through exactly when the tick is at or
    after the range start and some later tick of the range still resolves
    to a beat; every other tick is forced back to the start.  The native
    loop is switched off. *)
Theorem manual_loop_passes_iff tc tr start endExclusive tr' handler tick :
  playbackRange tr = Range start endExclusive ->
  enableManualLoop tc tr = Some (tr', handler) ->
  isLooping tr' = false
  /\ (handler (Some tick) = None \/ handler (Some tick) = Some start)
  /\ (handler (Some tick) = None
      <-> start <= tick
          /\ exists u, tick < u < endExclusive
                       /\ is_Some (tc ≫= (λ c, tc_findBeat c u))).
Proof.
  intros Hr H. unfold enableManualLoop in H. rewrite Hr in H.
  cbv beta iota in H. assert (Htr : tr' = set_isLooping false tr) by congruence.
  assert (Hh : handler = manualLoopWrap start (lastValid tc start endExclusive))
    by congruence.
  clear H. subst tr' handler. split; [reflexivity|].
  unfold manualLoopWrap, lastValid.
  set (stop := λ t, bool_decide (is_Some (tc ≫= (λ c, tc_findBeat c t)))).
  pose proof (scanDown_unit stop start (scanFuel start (endExclusive - 1))
                (endExclusive - 1) ltac:(unfold scanFuel; lia)) as H.
  assert (Hyes : forall u, stop u = true -> is_Some (tc ≫= (λ c, tc_findBeat c u))).
  { intros u Hu. unfold stop in Hu. now apply bool_decide_eq_true in Hu. }
  assert (Hno : forall u, stop u = false -> ~ is_Some (tc ≫= (λ c, tc_findBeat c u))).
  { intros u Hu. unfold stop in Hu. now apply bool_decide_eq_false in Hu. }
  split.
  { destruct (tick <? start); [now right|]. destruct (_ <=? tick); [now right|now left]. }
  destruct (scanDown stop 1 start _ (endExclusive - 1)).1 as [lv|]; cbn [default from_option id].
  - destruct H as (Hlv & Hs & Hall).
    destruct (tick <? start) eqn:E1.
    + apply Z.ltb_lt in E1. split; [discriminate|]. intros [? _]. lia.
    + apply Z.ltb_ge in E1. destruct (lv <=? tick) eqn:E2.
      * apply Z.leb_le in E2. split; [discriminate|].
        intros (_ & u & Hu & Hsome). exfalso.
        apply (Hno u); [apply Hall; lia|exact Hsome].
      * apply Z.leb_gt in E2. split; [|reflexivity]. intros _.
        split; [exact E1|]. exists lv. split; [lia|]. now apply Hyes.
  - destruct (tick <? start) eqn:E1.
    + apply Z.ltb_lt in E1. split; [discriminate|]. intros [? _]. lia.
    + apply Z.ltb_ge in E1. rewrite (proj2 (Z.leb_le start tick) E1).
      split; [discriminate|]. intros (_ & u & Hu & Hsome). exfalso.
      apply (Hno u); [apply H; lia|exact Hsome].
Qed.

Lemma manual_loop_passes_iff_witness :
  let tr := mkTransport (Some 9600) (Range 9600 11520) true in
  isLooping (set_isLooping false tr) = false
  /\ (manualLoopWrap 9600 (lastValid (Some Scenario.cache) 9600 11520) (Some 11000) = None
      \/ manualLoopWrap 9600 (lastValid (Some Scenario.cache) 9600 11520) (Some 11000)
         = Some 9600)
  /\ (manualLoopWrap 9600 (lastValid (Some Scenario.cache) 9600 11520) (Some 11000) = None
      <-> 9600 <= 11000
          /\ exists u, 11000 < u < 11520
                       /\ is_Some (Some Scenario.cache ≫= (λ c, tc_findBeat c u))).
Proof.
  apply (manual_loop_passes_iff (Some Scenario.cache)
           (mkTransport (Some 9600) (Range 9600 11520) true) 9600 11520);
    reflexivity.
Defined.

End ScanFacts.

(** ** The page: runs of position events *)

Section HandlerRuns.

Import Page LoopControls.
Local Open Scope Z_scope.



(** What no event changes: the loop flag of the page, the playback range
    and the native loop flag of the player; and an attached cursor stays
    attached. *)
Lemma handler_keeps api e st :
  let st' := (onPlayerPositionChanged api e st).1 in
  loopEnabledRef st' = loopEnabledRef st
  /\ playbackRange (transport st') = playbackRange (transport st)
  /\ isLooping (transport st') = isLooping (transport st)
  /\ (is_Some (cursorRef st) -> is_Some (cursorRef st')).
Proof.
  unfold onPlayerPositionChanged.
  destruct (cursorRef st) as [cursor|] eqn:C; [|cbn; rewrite C; auto].
  destruct e as [tick|]; [|cbn; rewrite C; auto].
  destruct (enforcerWrap _ _ tick); [cbn; eauto|].
  destruct (tickCache api) as [tc|]; [|cbn; eauto]. cbv zeta.
  destruct (resolveBeat api tc tick).1; [|cbn; eauto].
  destruct (negb _ || _); cbn; eauto.
Qed.

Lemma handler_transport_idle api e st :
  loopEnabledRef st = false
  \/ (forall s t, playbackRange (transport st) <> Range s t) ->
  transport (onPlayerPositionChanged api e st).1 = transport st.
Proof.
  intros H. apply handler_transport. destruct e as [tick|]; [|exact I].
  unfold enforcerWrap. destruct H as [->|H]; [reflexivity|].
  destruct (loopEnabledRef st); [|reflexivity].
  destruct (playbackRange (transport st)) as [| |s t] eqn:R; try reflexivity.
  now destruct (H s t).
Qed.

(** X16.  With the loop flag off, or with no playback range set, no run of
    position events ever writes the player: its position, its range and
    its loop flag stay as they are. *)
Theorem no_loop_never_seeks api es : forall st,
  loopEnabledRef st = false
  \/ (forall s t, playbackRange (transport st) <> Range s t) ->
  transport (positionEvents api es st) = transport st.
Proof.
  induction es as [|e es IH]; intros st H; [reflexivity|].
  change (positionEvents api (e :: es) st)
    with (positionEvents api es (onPlayerPositionChanged api e st).1).
  rewrite IH.
  - now apply handler_transport_idle.
  - destruct (handler_keeps api e st) as (L & R & _). cbv zeta in L, R.
    rewrite L, R. exact H.
Qed.

Lemma no_loop_never_seeks_witness :
  transport (positionEvents Scenario.pageApi [Some 11400; Some 11519; None; Some 11520]
               (onLoopToggle false Scenario.looping))
  = mkTransport (Some 11519) RangeNull false.
Proof.
  apply (no_loop_never_seeks Scenario.pageApi
           [Some 11400; Some 11519; None; Some 11520]
           (onLoopToggle false Scenario.looping)).
  left. reflexivity.
Defined.

(** X17.  A loop no longer than the safety margin never plays: every tick from
    its start on is forced back to the start, however many events arrive,
    and the cursor's element, beat and position refs are never touched. *)
Theorem short_loop_freezes_cursor api startTick endTick ticks : forall st c,
  cursorRef st = Some c ->
  loopEnabledRef st = true ->
  playbackRange (transport st) = Range startTick endTick ->
  endTick - startTick <= SAFETY_MARGIN ->
  Forall (λ t, startTick <= t) ticks ->
  ticks <> [] ->
  let st' := positionEvents api (Some <$> ticks) st in
  tickPosition (transport st') = Some startTick
  /\ (exists c', cursorRef st' = Some c'
                 /\ MaestroCursor.element c' = MaestroCursor.element c
                 /\ MaestroCursor.currentBeat c' = MaestroCursor.currentBeat c)
  /\ lastTickRef st' = lastTickRef st
  /\ stableCurBeatRef st' = stableCurBeatRef st.
Proof.
  assert (Step : forall st c t,
            cursorRef st = Some c -> loopEnabledRef st = true ->
            playbackRange (transport st) = Range startTick endTick ->
            endTick - startTick <= SAFETY_MARGIN -> startTick <= t ->
            (onPlayerPositionChanged api (Some t) st).1
            = mkPageState (Some (MaestroCursor.requestSnap c)) true (lastTickRef st)
                (stableCurBeatRef st) (stableExpandedBeatStartRef st)
                (stableNextBeatRef st) (set_tickPosition startTick (transport st))).
  { intros st c t C L R Hs Ht. unfold onPlayerPositionChanged, enforcerWrap.
    rewrite C, L, R. rewrite (proj2 (Z.leb_le _ _)) by lia. reflexivity. }
  induction ticks as [|t ticks IH]; intros st c C L R Hs Hall Hne; [congruence|].
  apply Forall_cons in Hall as [Ht Hall].
  cbn [fmap list_fmap positionEvents fold_left]. cbv zeta.
  rewrite (Step st c t C L R Hs Ht).
  destruct ticks as [|t' ticks'].
  - cbn. split; [reflexivity|]. split; [|split; reflexivity].
    eexists. split; [reflexivity|]. split; reflexivity.
  - set (st1 := mkPageState _ _ _ _ _ _ _).
    specialize (IH st1 (MaestroCursor.requestSnap c) eq_refl eq_refl R Hs Hall
                  ltac:(discriminate)).
    cbv zeta in IH. unfold positionEvents in IH.
    destruct IH as (P & (c' & C' & E' & B') & T' & S').
    split; [exact P|]. split; [|split; assumption].
    exists c'. split; [exact C'|]. split; [rewrite E'|rewrite B']; reflexivity.
Qed.

Lemma short_loop_freezes_cursor_witness :
  let st := mkPageState (Some Scenario.onBeat1) true (Some 9700) (Some Scenario.beat1)
              9600 (Some Scenario.beat2)
              (mkTransport (Some 9700) (Range 9600 9720) true) in
  let st' := positionEvents Scenario.pageApi (Some <$> [9601; 9600; 9650]) st in
  tickPosition (transport st') = Some 9600
  /\ (exists c', cursorRef st' = Some c'
                 /\ MaestroCursor.element c' = MaestroCursor.element Scenario.onBeat1
                 /\ MaestroCursor.currentBeat c'
                    = MaestroCursor.currentBeat Scenario.onBeat1)
  /\ lastTickRef st' = Some 9700
  /\ stableCurBeatRef st' = Some Scenario.beat1.
Proof.
  apply (short_loop_freezes_cursor Scenario.pageApi 9600 9720 [9601; 9600; 9650]
           (mkPageState (Some Scenario.onBeat1) true (Some 9700) (Some Scenario.beat1)
              9600 (Some Scenario.beat2)
              (mkTransport (Some 9700) (Range 9600 9720) true))
           Scenario.onBeat1);
    try reflexivity; try discriminate.
  repeat constructor; lia.
Defined.



(** A seek that breaks the agreement: the page holds the first beat, the
    cursor is on it, and [updateCursorForTick] at a tick of the second beat
    moves the cursor there and leaves [stableCurBeatRef] behind. *)
Example updateCursorForTick_leaves_ref_behind :
  let st := mkPageState (Some Scenario.onBeat1) false (Some 9700) (Some Scenario.beat1)
              9600 (Some Scenario.beat2) Scenario.stopped in
  let st' := updateCursorForTick Scenario.pageApi true 10600 st in
  tracksBeat st
  /\ stableCurBeatRef st' = Some Scenario.beat1
  /\ (MaestroCursor.currentBeat <$> cursorRef st') = Some (Some Scenario.beat2)
  /\ ~ tracksBeat st'.
Proof.
  cbv zeta. split; [|split; [|split]].
  - intros b Hb. exists Scenario.onBeat1. split; [reflexivity|].
    rewrite <- Hb. reflexivity.
  - reflexivity.
  - vm_compute. reflexivity.
  - intros T. destruct (T Scenario.beat1 eq_refl) as (c & Hc & Hcb).
    vm_compute in Hc. injection Hc as <-.
    vm_compute in Hcb. discriminate Hcb.
Qed.

End HandlerRuns.

(** ** The page: expanded beat resolution *)

Section ResolutionFacts.

Import Page Occurrences.
Local Open Scope Z_scope.

Lemma occurrences_snoc {A : Type} (index : A -> option Z) idx (l : list A) x :
  occurrences index idx (l ++ [x])
  = (occurrences index idx l
     + if bool_decide (index x = Some idx) then 1 else 0)%nat.
Proof.
  unfold occurrences. rewrite filter_app, length_app. f_equal.
  case_bool_decide as E.
  - now rewrite filter_cons_True.
  - now rewrite filter_cons_False.
Qed.

(** The invariant of the walk over [masterBars]: the map counts the
    entries seen so far per bar index, and the owner is the last entry seen
    whose span owns the tick, with the number of earlier entries of its
    bar. *)
Lemma fold_ownerStep tick (l : list MasterBarTickLookup) :
  let r := fold_left (ownerStep tick) l (∅, None) in
  (forall i, default 0%nat (r.1 !! i) = occurrences mbt_index i l)
  /\ match r.2 with
     | Some (idx, occ, start) =>
         exists pre mb post,
           l = pre ++ mb :: post
           /\ mbt_index mb = Some idx /\ mbt_start mb = start /\ owns tick mb
           /\ occ = occurrences mbt_index idx pre
           /\ Forall (λ m, mbt_index m = None \/ ~ owns tick m) post
     | None => Forall (λ m, mbt_index m = None \/ ~ owns tick m) l
     end.
Proof.
  induction l as [|x l IH] using rev_ind; cbv zeta.
  - cbn [fold_left fst snd].
    split; [intros i; now rewrite lookup_empty|constructor].
  - rewrite fold_left_app. cbn [fold_left]. cbv zeta in IH.
    destruct (fold_left (ownerStep tick) l (∅, None)) as [m r].
    cbn [fst snd] in IH. destruct IH as [Hm Hr].
    unfold ownerStep. cbn [fst snd].
    destruct (mbt_index x) as [j|] eqn:J.
    + assert (Hm' : forall i,
                default 0%nat (<[j := S (default 0%nat (m !! j))]> m !! i)
                = occurrences mbt_index i (l ++ [x])).
      { intros i. rewrite occurrences_snoc, J.
        destruct (decide (j = i)) as [->|Hne].
        - rewrite lookup_insert_eq, bool_decide_eq_true_2 by reflexivity.
          cbn. rewrite Hm. lia.
        - rewrite lookup_insert_ne by exact Hne.
          rewrite bool_decide_eq_false_2 by congruence. rewrite Hm. lia. }
      destruct ((mbt_start x <=? tick) && (tick <? mbt_start x + mbt_dur x)) eqn:O;
        cbn [fst snd]; (split; [exact Hm'|]).
      * apply andb_true_iff in O as [O1 O2].
        apply Z.leb_le in O1. apply Z.ltb_lt in O2.
        exists l, x, []. split; [reflexivity|]. split; [exact J|].
        split; [reflexivity|]. split; [split; assumption|].
        split; [apply Hm|constructor].
      * assert (Hx : mbt_index x = None \/ ~ owns tick x).
        { right. intros [O1 O2]. apply andb_false_iff in O as [O|O].
          - apply Z.leb_gt in O. lia.
          - apply Z.ltb_ge in O. lia. }
        destruct r as [[[idx occ] start]|].
        -- destruct Hr as (pre & mb & post & -> & Hi & Hs & Ho & Hocc & Hpost).
           exists pre, mb, (post ++ [x]). split; [now rewrite <- app_assoc|].
           repeat (split; [assumption|]). apply Forall_app. split; [exact Hpost|].
           now constructor.
        -- apply Forall_app. split; [exact Hr|]. now constructor.
    + split.
      * intros i. rewrite occurrences_snoc, J, bool_decide_eq_false_2 by discriminate.
        rewrite Hm. lia.
      * destruct r as [[[idx occ] start]|].
        -- destruct Hr as (pre & mb & post & -> & Hi & Hs & Ho & Hocc & Hpost).
           exists pre, mb, (post ++ [x]). split; [now rewrite <- app_assoc|].
           repeat (split; [assumption|]). apply Forall_app. split; [exact Hpost|].
           constructor; [now left|constructor].
        -- apply Forall_app. split; [exact Hr|]. constructor; [now left|constructor].
Qed.

(** The walk over the layout stops at the bar with the wanted index that
    has the wanted number of bars of that index before it. *)
Lemma findVisual_spec idx occ : forall bars m mbb,
  findVisual idx occ m bars = Some mbb ->
  exists pre post,
    bars = pre ++ mbb :: post
    /\ visualIndex mbb = Some idx
    /\ (default 0%nat (m !! idx) + occurrences visualIndex idx pre)%nat = occ.
Proof.
  induction bars as [|x bars IH]; intros m mbb H; cbn in H; [discriminate|].
  fold (visualIndex x) in H.
  destruct (visualIndex x) as [v|] eqn:V.
  - destruct (bool_decide (v = idx) && bool_decide (default 0%nat (m !! v) = occ)) eqn:E.
    + injection H as <-. apply andb_true_iff in E as [E1 E2].
      apply bool_decide_eq_true in E1, E2. subst v.
      exists [], bars. split; [reflexivity|]. split; [exact V|].
      unfold occurrences. cbn. lia.
    + destruct (IH _ _ H) as (pre & post & -> & Hv & Hocc).
      exists (x :: pre), post. split; [reflexivity|]. split; [exact Hv|].
      unfold occurrences in *.
      destruct (decide (v = idx)) as [->|Hne].
      * rewrite lookup_insert_eq in Hocc. cbn [default from_option id] in Hocc.
        rewrite filter_cons_True by exact V. cbn [length]. 
        unfold default in *. lia.
      * rewrite lookup_insert_ne in Hocc by exact Hne.
        rewrite filter_cons_False by congruence. exact Hocc.
  - destruct (IH _ _ H) as (pre & post & -> & Hv & Hocc).
    exists (x :: pre), post. split; [reflexivity|]. split; [exact Hv|].
    unfold occurrences in *. rewrite filter_cons_False by congruence. exact Hocc.
Qed.

(** X19.  The expanded resolution matches occurrences.  When it resolves a beat,
    the tick is owned by an entry of [masterBars], the last such entry; the
    beat is laid out in a bar of the same index that has as many bars of
    that index before it in the layout as the entry has entries of that
    index before it in [masterBars]; and the beat's span, shifted to the
    start of the entry, owns the tick. *)
Theorem resolveExpandedBeat_occurrence api tc tick beat :
  resolveExpandedBeat api tc tick = Some beat ->
  exists pre mb post vpre mbb vpost idx,
    (default [] (tc_masterBars tc) = pre ++ mb :: post
     /\ mbt_index mb = Some idx /\ owns tick mb
     /\ Forall (λ m, mbt_index m = None \/ ~ owns tick m) post)
    /\ (concat (sys_bars <$> staffSystems api) = vpre ++ mbb :: vpost
        /\ visualIndex mbb = Some idx
        /\ occurrences visualIndex idx vpre = occurrences mbt_index idx pre)
    /\ (beat ∈ beatsOf mbb
        /\ mbt_start mb + default 0 (playbackStart beat) <= tick
           < mbt_start mb + default 0 (playbackStart beat) + durOf beat).
Proof.
  unfold resolveExpandedBeat, findOwner. intros H.
  destruct (fold_ownerStep tick (default [] (tc_masterBars tc))) as [_ Hr].
  cbv zeta in Hr.
  destruct (fold_left (ownerStep tick) _ (∅, None)).2 as [[[idx occ] start]|];
    [|discriminate].
  destruct Hr as (pre & mb & post & Hl & Hi & Hs & Ho & Hocc & Hpost).
  destruct (findVisual idx occ ∅ _) as [mbb|] eqn:V; [|discriminate].
  apply findVisual_spec in V as (vpre & vpost & Hv & Hvi & Hvo).
  rewrite lookup_empty in Hvo. cbn in Hvo.
  cbn in H. unfold findBeatIn in H. apply find_some in H as [Hin Hspan].
  apply andb_true_iff in Hspan as [S1 S2].
  apply Z.leb_le in S1. apply Z.ltb_lt in S2.
  exists pre, mb, post, vpre, mbb, vpost, idx.
  split; [repeat split; try assumption; apply Ho|].
  split; [repeat split; try assumption; congruence|].
  split; [apply list_elem_of_In; exact Hin|]. subst start. lia.
Qed.

Lemma resolveExpandedBeat_occurrence_witness :
  resolveExpandedBeat Scenario.pageApi Scenario.cache 10600 = Some Scenario.beat2
  /\ exists pre mb post vpre mbb vpost idx,
    (default [] (tc_masterBars Scenario.cache) = pre ++ mb :: post
     /\ mbt_index mb = Some idx /\ owns 10600 mb
     /\ Forall (λ m, mbt_index m = None \/ ~ owns 10600 m) post)
    /\ (concat (sys_bars <$> staffSystems Scenario.pageApi) = vpre ++ mbb :: vpost
        /\ visualIndex mbb = Some idx
        /\ occurrences visualIndex idx vpre = occurrences mbt_index idx pre)
    /\ (Scenario.beat2 ∈ beatsOf mbb
        /\ mbt_start mb + default 0 (playbackStart Scenario.beat2) <= 10600
           < mbt_start mb + default 0 (playbackStart Scenario.beat2)
             + durOf Scenario.beat2).
Proof.
  split; [vm_compute; reflexivity|].
  apply (resolveExpandedBeat_occurrence Scenario.pageApi Scenario.cache 10600).
  vm_compute. reflexivity.
Defined.

End ResolutionFacts.

(** ** TimelineExpander: seeking and re-resolving *)

Section ExpanderMore.

Import TimelineExpander.
Local Open Scope Z_scope.

(** X20.  The click-to-seek of the page lands on the clicked beat's offset in an
    occurrence of its bar, and no occurrence of that bar would bring the
    beat nearer to the current position. *)
Theorem seekTarget_nearest tc beat currentTick target :
  seekTarget tc beat currentTick = Some target ->
  let offsetInBar := default 0 (playbackStart beat) in
  exists mbs idx mb,
    (tc ≫= tc_masterBars = Some mbs /\ masterBarIndex beat = Some idx)
    /\ (mb ∈ mbs /\ mbt_index mb = Some idx /\ target = mbt_start mb + offsetInBar)
    /\ forall mb', mb' ∈ mbs -> mbt_index mb' = Some idx ->
         Z.abs (target - currentTick)
         <= Z.abs (mbt_start mb' + offsetInBar - currentTick).
Proof.
  intros H offsetInBar. unfold seekTarget in H.
  destruct (tc ≫= tc_masterBars) as [mbs|] eqn:M; [|discriminate].
  destruct (masterBarIndex beat) as [idx|] eqn:I; [|discriminate].
  cbv zeta in H. fold offsetInBar in H.
  destruct (filter (λ mb, mbt_index mb = Some idx) mbs) as [|a rest] eqn:F;
    [discriminate|].
  cbn in H. rewrite fold_closerTick in H.
  destruct (reduce_closer (currentTick - offsetInBar) a rest)
    as (i & best & Hi & Hr & Hmin & _).
  unfold reduce in Hr. injection Hr as Hr. rewrite Hr in H. injection H as <-.
  assert (Hin : best ∈ filter (λ mb, mbt_index mb = Some idx) mbs).
  { rewrite F. eapply list_elem_of_lookup_2. exact Hi. }
  apply list_elem_of_filter in Hin as [Hidx Hin].
  exists mbs, idx, best. split; [now split|]. split; [now repeat split|].
  intros mb' Hin' Hidx'.
  assert (Hf : mb' ∈ a :: rest).
  { rewrite <- F. apply list_elem_of_filter. now split. }
  apply list_elem_of_lookup_1 in Hf as [j Hj].
  specialize (Hmin j mb' Hj). lia.
Qed.

Lemma seekTarget_nearest_witness :
  seekTarget (Some Scenario.cache) Scenario.beat2 20000 = Some 20160
  /\ let offsetInBar := default 0 (playbackStart Scenario.beat2) in
     exists mbs idx mb,
       (Some Scenario.cache ≫= tc_masterBars = Some mbs
        /\ masterBarIndex Scenario.beat2 = Some idx)
       /\ (mb ∈ mbs /\ mbt_index mb = Some idx /\ 20160 = mbt_start mb + offsetInBar)
       /\ forall mb', mb' ∈ mbs -> mbt_index mb' = Some idx ->
            Z.abs (20160 - 20000)
            <= Z.abs (mbt_start mb' + offsetInBar - 20000).
Proof.
  split; [vm_compute; reflexivity|].
  apply (seekTarget_nearest (Some Scenario.cache) Scenario.beat2 20000 20160).
  vm_compute. reflexivity.
Defined.

(** X21.  Re-resolving from its own answer changes nothing: the start of an
    occurrence resolves to itself. *)
Theorem resolveExpandedBarStart_idempotent tickCache visualBarIndex refTick start :
  resolveExpandedBarStart tickCache visualBarIndex refTick = Some start ->
  resolveExpandedBarStart tickCache visualBarIndex start = Some start.
Proof.
  unfold resolveExpandedBarStart.
  destruct (instancesOf tickCache visualBarIndex) as [|a rest]; [discriminate|].
  intros H.
  destruct (reduce_closer refTick a rest) as (i & best & Hi & Hr & _).
  rewrite Hr in H. cbn in H. injection H as <-.
  destruct (reduce_closer (mbt_start best) a rest) as (i' & best' & _ & Hr' & Hmin & _).
  rewrite Hr'. cbn. f_equal. specialize (Hmin i best Hi). lia.
Qed.

Lemma resolveExpandedBarStart_idempotent_witness :
  resolveExpandedBarStart (Some Scenario.cache) 5 20000 = Some 19200
  /\ resolveExpandedBarStart (Some Scenario.cache) 5 19200 = Some 19200.
Proof.
  split; [vm_compute; reflexivity|].
  apply (resolveExpandedBarStart_idempotent (Some Scenario.cache) 5 20000 19200).
  vm_compute. reflexivity.
Defined.

End ExpanderMore.

(** ** The beat overlay: bar ranges, cancelled and dragged gestures *)

Section BeatOverlayFacts.

Import BeatLoopOverlay Occurrences.
Local Open Scope Z_scope.

Lemma find_first {A : Type} (f : A -> bool) : forall l x,
  List.find f l = Some x ->
  exists pre post, l = pre ++ x :: post /\ f x = true
                   /\ Forall (λ y, f y = false) pre.
Proof.
  induction l as [|y l IH]; intros x H; cbn in H; [discriminate|].
  destruct (f y) eqn:F.
  - injection H as <-. exists [], l. split; [reflexivity|]. split; [exact F|constructor].
  - destruct (IH x H) as (pre & post & -> & Hx & Hpre).
    exists (y :: pre), post. split; [reflexivity|]. split; [exact Hx|].
    now constructor.
Qed.

Lemma find_none_all {A : Type} (f : A -> bool) : forall l,
  List.find f l = None -> Forall (λ y, f y = false) l.
Proof.
  induction l as [|y l IH]; cbn; [constructor|].
  destruct (f y) eqn:F; [discriminate|]. intros H. constructor; auto.
Qed.

Lemma owner_test tick mb :
  (0 <? mbt_dur mb) && (mbt_start mb <=? tick) && (tick <? mbt_start mb + mbt_dur mb)
  = false -> ~ owns tick mb.
Proof.
  intros H [O1 O2]. rewrite !andb_false_iff in H.
  destruct H as [[H|H]|H].
  - apply Z.ltb_ge in H. lia.
  - apply Z.leb_gt in H. lia.
  - apply Z.ltb_ge in H. lia.
Qed.

(** X22.  A bar range is never empty.  It is the span of the first entry of
    [masterBars] that owns the tick, and then contains the tick; only when
    no entry owns the tick is it the structural span of the beat's own
    master bar, which need not contain the tick. *)
Theorem getExpandedBarRange_first_owner tc tick beat startTick endTick :
  getExpandedBarRange tc tick beat = Some (startTick, endTick) ->
  let table := default [] (tc ≫= tc_masterBars) in
  startTick < endTick
  /\ ((exists pre mb post,
         table = pre ++ mb :: post
         /\ startTick = mbt_start mb /\ endTick = mbt_start mb + mbt_dur mb
         /\ startTick <= tick < endTick
         /\ Forall (λ m, ~ owns tick m) pre)
      \/ (Forall (λ m, ~ owns tick m) table
          /\ structuralRange beat = Some (startTick, endTick))).
Proof.
  intros H table. unfold getExpandedBarRange, owningEntry in H. fold table in H.
  destruct (List.find _ table) as [mb|] eqn:F; cbn in H.
  - assert (Hs : startTick = mbt_start mb) by congruence.
    assert (He : endTick = mbt_start mb + mbt_dur mb) by congruence.
    clear H. subst startTick endTick.
    apply find_first in F as (pre & post & Ht & Hx & Hpre).
    apply andb_true_iff in Hx as [Hx H3]. apply andb_true_iff in Hx as [H1 H2].
    apply Z.ltb_lt in H1, H3. apply Z.leb_le in H2.
    split; [lia|]. left. exists pre, mb, post.
    split; [exact Ht|]. split; [reflexivity|]. split; [reflexivity|].
    split; [lia|].
    eapply Forall_impl; [exact Hpre|]. intros m. apply owner_test.
  - apply find_none_all in F. split.
    + unfold structuralRange in H. destruct (beat ≫= masterBar) as [mb|]; [|discriminate].
      cbv zeta in H.
      destruct (0 <? _) eqn:D; [|discriminate]. apply Z.ltb_lt in D.
      assert (Hs : endTick = startTick
                             + match mb_calculateDuration mb with
                               | Some d => d
                               | None => default 1920 (mb_duration mb)
                               end) by congruence.
      lia.
    + right. split; [|exact H].
      eapply Forall_impl; [exact F|]. intros m. apply owner_test.
Qed.

Lemma getExpandedBarRange_first_owner_witness :
  getExpandedBarRange (Some Scenario.cache) 19300 None = Some (19200, 21120)
  /\ let table := default [] (Some Scenario.cache ≫= tc_masterBars) in
     19200 < 21120
     /\ ((exists pre mb post,
            table = pre ++ mb :: post
            /\ 19200 = mbt_start mb /\ 21120 = mbt_start mb + mbt_dur mb
            /\ 19200 <= 19300 < 21120
            /\ Forall (λ m, ~ owns 19300 m) pre)
         \/ (Forall (λ m, ~ owns 19300 m) table
             /\ structuralRange None = Some (19200, 21120))).
Proof.
  split; [vm_compute; reflexivity|].
  apply (getExpandedBarRange_first_owner (Some Scenario.cache) 19300 None 19200 21120).
  vm_compute. reflexivity.
Defined.

Lemma onMove_idle tc e o : isDragging o = false -> onMove tc e o = o.
Proof. intros H. unfold onMove. now rewrite H. Qed.

Lemma moves_idle tc moves : forall o,
  isDragging o = false -> fold_left (λ o e, onMove tc e o) moves o = o.
Proof.
  induction moves as [|e moves IH]; intros o H; [reflexivity|].
  cbn. rewrite (onMove_idle tc e o H). now apply IH.
Qed.

Lemma onMove_frame tc e o :
  commits (onMove tc e o) = commits o /\ transport (onMove tc e o) = transport o.
Proof.
  unfold onMove. destruct (negb _ || _); [now split|].
  destruct (resolved e); now split.
Qed.

Lemma moves_frame tc moves : forall o,
  commits (fold_left (λ o e, onMove tc e o) moves o) = commits o
  /\ transport (fold_left (λ o e, onMove tc e o) moves o) = transport o.
Proof.
  induction moves as [|e moves IH]; intros o; [now split|].
  cbn. destruct (IH (onMove tc e o)) as [-> ->]. apply onMove_frame.
Qed.

(** X23.  A re-render in the middle of a gesture cancels it: whatever was
    pressed and dragged before, the moves and the release that follow the
    re-render commit nothing and leave the player alone. *)
Theorem render_cancels_gesture tc before after up o :
  let o' := onUp tc up
              (fold_left (λ o e, onMove tc e o) after
                 (handleRenderFinished
                    (fold_left (λ o e, onMove tc e o) before o))) in
  commits o' = commits o /\ transport o' = transport o
  /\ isDragging o' = false /\ startBeat o' = None.
Proof.
  cbv zeta.
  set (o1 := fold_left _ before o).
  rewrite (moves_idle tc after (handleRenderFinished o1) eq_refl).
  unfold onUp. cbn.
  destruct (moves_frame tc before o) as [C T]. fold o1 in C, T.
  repeat split; assumption.
Qed.

(** X24.  A drag whose last move resolves a beat at another tick than the press
    commits the beat-level range from the earlier of the two ticks to the
    end of the later beat, whichever way the drag went and whatever the
    moves in between and the release event. *)
Theorem drag_commits_span tc down moves last up o a b :
  loopRef o = true -> resolved down = Some a -> resolved last = Some b ->
  tickOf tc a <> tickOf tc b ->
  let o' := gesture tc down (moves ++ [last]) up o in
  let lo := if tickOf tc a <=? tickOf tc b then a else b in
  let hi := if tickOf tc a <=? tickOf tc b then b else a in
  commits o' = BeatLevel (tickOf tc lo) (tickOf tc hi + durOf hi) :: commits o
  /\ playbackRange (transport o') = Range (tickOf tc lo) (tickOf tc hi + durOf hi)
  /\ isLooping (transport o') = true
  /\ tickOf tc lo < tickOf tc hi.
Proof.
  intros Hl Ha Hb Hne. cbv zeta. unfold gesture.
  rewrite fold_left_app. cbn [fold_left].
  set (o0 := onDown tc down o).
  assert (H0 : (isDragging o0 = true /\ startBeat o0 = Some a
                /\ downTickRef o0 = Some (tickOf tc a))
               /\ transport o0 = transport o /\ commits o0 = commits o).
  { subst o0. unfold onDown. rewrite Hl, Ha. cbn. repeat split. }
  destruct H0 as ((D0 & S0 & T0) & Tr0 & C0).
  destruct (moves_invariant tc moves o0 a (tickOf tc a) D0 S0 T0)
    as ((D1 & S1 & T1) & (_ & Tr1 & C1) & _).
  cbv zeta in D1, S1, T1, Tr1, C1.
  set (o1 := fold_left (λ o e, onMove tc e o) moves o0) in *.
  clearbody o1. clearbody o0.
  assert (Hm : onMove tc last o1
               = mkOverlay (loopRef o1) true (Some a) (Some b) (downXRef o1)
                   (downYRef o1) (Some (tickOf tc a)) true (transport o1)
                   (commits o1)).
  { unfold onMove. rewrite D1, S1, T1, Hb. cbn [negb orb].
    rewrite bool_decide_eq_true_2 by eauto. cbn [negb]. cbv zeta.
    now rewrite (bool_decide_eq_false_2 (tickOf tc b = tickOf tc a)) by congruence. }
  rewrite Hm. unfold onUp. cbn [isDragging negb startBeat beatCrossedRef endBeat].
  unfold commitBeatLevel, loHi. cbn [default from_option id].
  destruct (tickOf tc a <=? tickOf tc b) eqn:E; cbn; rewrite C1, C0;
    (split; [reflexivity|]); (split; [reflexivity|]); (split; [reflexivity|]).
  - apply Z.leb_le in E. lia.
  - apply Z.leb_gt in E. lia.
Qed.

Lemma drag_commits_span_witness :
  let o' := gesture (Some Scenario.cache)
              (Scenario.pointerAt 210 (Some Scenario.beat2))
              ([Scenario.pointerAt 180 None] ++ [Scenario.pointerAt 110 (Some Scenario.beat1)])
              (Scenario.pointerAt 110 None) Scenario.idle in
  commits o' = [BeatLevel 9600 11520]
  /\ playbackRange (transport o') = Range 9600 11520
  /\ isLooping (transport o') = true
  /\ 9600 < 10560.
Proof.
  apply (drag_commits_span (Some Scenario.cache)
           (Scenario.pointerAt 210 (Some Scenario.beat2))
           [Scenario.pointerAt 180 None]
           (Scenario.pointerAt 110 (Some Scenario.beat1))
           (Scenario.pointerAt 110 None) Scenario.idle
           Scenario.beat2 Scenario.beat1);
    try reflexivity.
  vm_compute. discriminate.
Defined.

End BeatOverlayFacts.

(** ** The bar overlay: applying and initialising a selection *)

Section LoopSelectionFacts.

Import LoopOverlay LoopOverlayDrag LoopInit.
Local Open Scope Z_scope.

(** X25.  The last selection wins: applying a selection over another one gives
    what applying it alone gives, so applying the same selection twice is
    applying it once. *)
Theorem applyLoopSelection_overwrites tickCache loopEnabled loopEnabled' sel sel' tr :
  applyLoopSelection tickCache loopEnabled sel
    (applyLoopSelection tickCache loopEnabled' sel' tr)
  = applyLoopSelection tickCache loopEnabled sel tr.
Proof.
  unfold applyLoopSelection.
  destruct (playbackRange tr) eqn:R; cbn; rewrite ?R; reflexivity.
Qed.

(** X26.  The start of the last beat, as [applyLoopSelection] finds it.  When the
    ten-tick scan finds a beat, the loop ends one beat duration after a
    start that lies within the selection; every tick from that start to the
    selection's last but one resolves to the beat; and either the tick just
    before the start does not resolve to the beat, or the whole selection
    up to its last but one tick resolves to the beat, in which case the
    start reported is the selection's last tick. *)
Theorem loopEnd_last_beat tc sel curBeat :
  lastBeatResult tc sel = Some curBeat ->
  let s := expandedBeatStart tc sel curBeat in
  loopEnd (Some tc) sel = s + durOf curBeat
  /\ sel_startTick sel <= s <= sel_endTick sel - 1
  /\ (forall u, s <= u <= sel_endTick sel - 2 -> resolvesTo tc curBeat u)
  /\ ((sel_startTick sel < s /\ ~ resolvesTo tc curBeat (s - 1))
      \/ (s = sel_endTick sel - 1
          /\ forall u, sel_startTick sel <= u <= sel_endTick sel - 2 ->
               resolvesTo tc curBeat u)).
Proof.
  intros L s. split; [unfold loopEnd; now rewrite L|].
  assert (Hne : sel_startTick sel <= sel_endTick sel - 1).
  { unfold lastBeatResult in L.
    destruct (scanDown _ 10 _ _ (sel_endTick sel - 1)).1 as [t|] eqn:E;
      [|discriminate].
    apply scanDown_result in E; lia. }
  subst s. unfold expandedBeatStart.
  set (stop := λ t, match tc_findBeat tc t with
                    | Some b => negb (sameStructuralBeat b curBeat)
                    | None => true
                    end).
  assert (Hyes : forall u, stop u = false -> resolvesTo tc curBeat u).
  { intros u Hu. unfold stop in Hu. destruct (tc_findBeat tc u) as [b|] eqn:B;
      [|discriminate]. exists b. split; [exact B|]. now apply negb_false_iff. }
  assert (Hno : forall u, stop u = true -> ~ resolvesTo tc curBeat u).
  { intros u Hu (b & Hb & Hs). unfold stop in Hu. rewrite Hb, Hs in Hu. discriminate. }
  pose proof (scanDown_unit stop (sel_startTick sel)
                (scanFuel (sel_startTick sel) (sel_endTick sel - 2))
                (sel_endTick sel - 2) ltac:(unfold scanFuel; lia)) as H.
  destruct (scanDown stop 1 _ _ (sel_endTick sel - 2)).1 as [t|].
  - destruct H as (Hr & Hs & Hall). split; [lia|]. split.
    + intros u Hu. apply Hyes, Hall. lia.
    + left. split; [lia|]. replace (t + 1 - 1) with t by lia. now apply Hno.
  - split; [lia|]. split.
    + intros u Hu. lia.
    + right. split; [reflexivity|]. intros u Hu. apply Hyes, H. lia.
Qed.

Lemma loopEnd_last_beat_witness :
  let sel := mkLoopSelection 9600 11520 in
  loopEnd (Some Scenario.cache) sel = 10560 + 960
  /\ 9600 <= 10560 <= 11520 - 1
  /\ (forall u, 10560 <= u <= 11520 - 2 -> resolvesTo Scenario.cache Scenario.beat2 u)
  /\ ((9600 < 10560 /\ ~ resolvesTo Scenario.cache Scenario.beat2 (10560 - 1))
      \/ (10560 = 11520 - 1
          /\ forall u, 9600 <= u <= 11520 - 2 ->
               resolvesTo Scenario.cache Scenario.beat2 u)).
Proof.
  apply (loopEnd_last_beat Scenario.cache (mkLoopSelection 9600 11520) Scenario.beat2).
  vm_compute. reflexivity.
Defined.

(** X27.  The auto-init runs once: with a selection in place it does nothing, so
    a second run changes nothing; and when it does select, it selects from
    an empty selection, reports the range and moves the player to its
    start. *)
Theorem autoInit_once api loopEnabled boundsReady o :
  let o' := autoInit api loopEnabled boundsReady o in
  autoInit api loopEnabled boundsReady o' = o'
  /\ (o' = o
      \/ (loopSelectionRef o = None
          /\ exists s e,
               loopSelectionRef o' = Some (mkLoopSelection s e)
               /\ changes o' = (s, e) :: changes o
               /\ tickPosition (transport o') = Some s
               /\ isLooping (transport o') = loopEnabled)).
Proof.
  cbv zeta.
  assert (Keep : forall o1, is_Some (loopSelectionRef o1) ->
                            autoInit api loopEnabled boundsReady o1 = o1).
  { intros o1 [x Hx]. unfold autoInit. rewrite Hx. now destruct (_ || _). }
  assert (Id : autoInit api loopEnabled boundsReady o = o ->
               autoInit api loopEnabled boundsReady
                 (autoInit api loopEnabled boundsReady o)
               = autoInit api loopEnabled boundsReady o
               /\ (autoInit api loopEnabled boundsReady o = o
                   \/ (loopSelectionRef o = None
                       /\ exists s e,
                            loopSelectionRef (autoInit api loopEnabled boundsReady o)
                            = Some (mkLoopSelection s e)
                            /\ changes (autoInit api loopEnabled boundsReady o)
                               = (s, e) :: changes o
                            /\ tickPosition
                                 (transport (autoInit api loopEnabled boundsReady o))
                               = Some s
                            /\ isLooping
                                 (transport (autoInit api loopEnabled boundsReady o))
                               = loopEnabled))).
  { intros E. rewrite !E. split; [reflexivity|now left]. }
  destruct (negb loopEnabled || negb boundsReady) eqn:G.
  { apply Id. unfold autoInit. now rewrite G. }
  destruct (loopSelectionRef o) as [x|] eqn:L.
  { apply Id. unfold autoInit. now rewrite G, L. }
  destruct (ov_tickCache api) as [tickCache|] eqn:T.
  2:{ apply Id. unfold autoInit. now rewrite G, L, T. }
  destruct (tc_findBeat tickCache (default 0 (tickPosition (transport o))) ≫= masterBar)
    as [mb|] eqn:B.
  2:{ apply Id. unfold autoInit. rewrite G, L, T. cbv zeta. now rewrite B. }
  destruct (mb_index mb) as [visualBarIndex|] eqn:I.
  2:{ apply Id. unfold autoInit. rewrite G, L, T. cbv zeta. now rewrite B, I. }
  destruct (TimelineExpander.resolveExpandedBarStart (Some tickCache) visualBarIndex
              (default 0 (tickPosition (transport o)))) as [expandedStart|] eqn:R.
  2:{ apply Id. unfold autoInit. rewrite G, L, T. cbv zeta. now rewrite B, I, R. }
  assert (E : autoInit api loopEnabled boundsReady o
              = let barDur := match mb_calculateDuration mb with
                              | Some d => d
                              | None => default 0 (mb_duration mb)
                              end in
                let sel := mkLoopSelection expandedStart (expandedStart + barDur) in
                mkOverlay (snapModeRef o) (dragRef o) (Some sel) (previewSelection o)
                  (applyLoopSelection (Some tickCache) loopEnabled sel (transport o))
                  ((expandedStart, expandedStart + barDur) :: changes o)).
  { unfold autoInit. rewrite G, L, T. cbv zeta. now rewrite B, I, R. }
  rewrite E. cbv zeta. split.
  - apply Keep. cbn. eauto.
  - right. split; [reflexivity|]. eexists _, _.
    split; [reflexivity|]. split; [reflexivity|].
    unfold applyLoopSelection. split; reflexivity.
Qed.

End LoopSelectionFacts.
